(** * DS-Animator: the container core, embedded and verified

    The containers of the teaching tool (BST.cpp, AVLTree.cpp, MinHeap.cpp,
    LinkedList.cpp, Stack.cpp, Queue.cpp) are embedded as Rocq functions.

    Conventions of the embedding.
    - A C++ [int] is a [Z].  Values are only compared, never added; array
      indices, heights, sizes and identifiers stay far below 2^31 in every
      run of the tool, so no arithmetic on them wraps.
    - A node pointer stored in a trace or handed back to the caller is
      modelled by the identifier of the node ([ref]); [None] is [nullptr].
      Identifiers are issued by the per-container counter [nextNodeId].
    - A tree pointer that is followed ([node->left], [node->right]) is the
      subtree itself; [Null] is [nullptr].
    - Reference parameters ([success], [path], [deletedNode], [rotation])
      are threaded explicitly: a helper takes their current contents and
      returns the new ones.
    - Code that can dereference a null pointer or index a vector out of range
      returns an [outcome]: [Fault] is that undefined behaviour; loops run on
      fuel and [OutOfFuel] says the fuel did not suffice. *)

From stdpp Require Import base numbers list sorting.
From Stdlib Require Import Ascii.

Local Open Scope Z_scope.

(** ** Outcomes of fallible code *)

Inductive outcome (A : Type) : Type :=
| Done (a : A)
| Fault
| OutOfFuel.

Arguments Done {A} a.
Arguments Fault {A}.
Arguments OutOfFuel {A}.

Definition bind {A B : Type} (m : outcome A) (k : A -> outcome B) : outcome B :=
  match m with
  | Done a => k a
  | Fault => Fault
  | OutOfFuel => OutOfFuel
  end.

Notation "x <- m ; k" := (bind m (fun x => k))
  (at level 20, m at level 100, k at level 200, only parsing, right associativity).
Notation "' pat <- m ; k" := (bind m (fun x => match x with pat => k end))
  (at level 20, pat pattern, m at level 100, k at level 200, only parsing,
   right associativity).

(** A node reference as the callers see it: the node's identifier. *)
Definition ref := Z.

(** ** BST.h / BST.cpp *)

Module BST.

(** [struct Node]; the screen coordinates are presentation state and are
    left out. *)
Inductive Node : Type :=
| Null
| Mk (value : Z) (left right : Node) (id : Z).

(** [class BST]: the root pointer and the identifier counter. *)
Record BST : Type := mkBST { root : Node; nextNodeId : Z }.

Definition empty : BST := mkBST Null 0.

Definition nodeId (n : Node) : option ref :=
  match n with Null => None | Mk _ _ _ i => Some i end.

(** [BST::insertHelper]: returns the new subtree root, [success], [path] and
    the counter. *)
Fixpoint insertHelper (node : Node) (value : Z) (success : bool)
    (path : list ref) (next : Z) : Node * bool * list ref * Z :=
  match node with
  | Null => (Mk value Null Null next, success, path ++ [next], next + 1)
  | Mk nv l r i =>
      let path := path ++ [i] in
      if value <? nv then
        let '(l', success, path, next) := insertHelper l value success path next in
        (Mk nv l' r i, success, path, next)
      else if value >? nv then
        let '(r', success, path, next) := insertHelper r value success path next in
        (Mk nv l r' i, success, path, next)
      else (Mk nv l r i, false, path, next)
  end.

(** [BST::insert]. *)
Definition insert (t : BST) (value : Z) (path : list ref) : bool * BST * list ref :=
  let success := true in
  let '(r, success, path, next) := insertHelper (root t) value success path (nextNodeId t) in
  (success, mkBST r next, path).

(** [BST::findMin]. *)
Fixpoint findMin (node : Node) : Node :=
  match node with
  | Null => Null
  | Mk _ l _ _ => match l with Null => node | Mk _ _ _ _ => findMin l end
  end.

(** [BST::findMinWithPath]: the leftmost node and the path extended by the
    nodes walked. *)
Fixpoint findMinWithPath (node : Node) (path : list ref) : Node * list ref :=
  match node with
  | Null => (Null, path)
  | Mk _ l _ i =>
      match l with
      | Null => (node, path ++ [i])
      | Mk _ _ _ _ => findMinWithPath l (path ++ [i])
      end
  end.

(** The reference parameters of [BST::deleteHelper]. *)
Record delrefs : Type := mkDel {
  success : bool;
  path : list ref;
  deletedNode : option ref;
  successor : option ref
}.

(** [BST::deleteHelper].  In the two-children case [node->right] is not
    null, so [findMinWithPath] returns a node and [successor->value] is read
    from it; the recursive call works on temporaries, whose contents are
    dropped. *)
Fixpoint deleteHelper (node : Node) (value : Z) (a : delrefs) : Node * delrefs :=
  match node with
  | Null => (Null, mkDel false (path a) (deletedNode a) (successor a))
  | Mk nv l r i =>
      let a := mkDel (success a) (path a ++ [i]) (deletedNode a) (successor a) in
      if value <? nv then
        let '(l', a) := deleteHelper l value a in (Mk nv l' r i, a)
      else if value >? nv then
        let '(r', a) := deleteHelper r value a in (Mk nv l r' i, a)
      else
        let a := mkDel (success a) (path a) (Some i) (successor a) in
        match l, r with
        | Null, _ => (r, a)
        | _, Null => (l, a)
        | _, Mk sv0 _ _ _ =>
            let '(succ, successorPath) := findMinWithPath r [] in
            let a := mkDel (success a) (path a ++ successorPath) (deletedNode a) (nodeId succ) in
            let sv := match succ with Null => sv0 | Mk v _ _ _ => v end in
            let temp := mkDel true [] None None in
            let '(r', _) := deleteHelper r sv temp in
            (Mk sv l r' i, a)
        end
  end.

(** [BST::remove]. *)
Definition remove (t : BST) (value : Z) (path : list ref) : bool * BST * delrefs :=
  let a := mkDel true path None None in
  let '(r, a) := deleteHelper (root t) value a in
  (success a, mkBST r (nextNodeId t), a).

(** [BST::searchHelper]: the node found (as the subtree it roots) and the
    path. *)
Fixpoint searchHelper (node : Node) (value : Z) (path : list ref) : Node * list ref :=
  match node with
  | Null => (Null, path)
  | Mk nv l r i =>
      let path := path ++ [i] in
      if value <? nv then searchHelper l value path
      else if value >? nv then searchHelper r value path
      else (node, path)
  end.

(** [BST::search]; the tree is handed back as the call leaves it. *)
Definition search (t : BST) (value : Z) (path : list ref) : BST * Node * list ref :=
  let '(n, path) := searchHelper (root t) value path in (t, n, path).

(** [BST::contains]. *)
Definition contains (t : BST) (value : Z) : BST * bool :=
  let '(t, n, _) := search t value [] in
  (t, match n with Null => false | Mk _ _ _ _ => true end).

(** [BST::clear]. *)
Definition clear (t : BST) : BST := mkBST Null (nextNodeId t).

(** [BST::inorderHelper] / [BST::inorderTraversal]. *)
Fixpoint inorderHelper (node : Node) (result : list Z) : list Z :=
  match node with
  | Null => result
  | Mk v l r _ => inorderHelper r (inorderHelper l result ++ [v])
  end.

Definition inorderTraversal (t : BST) : list Z := inorderHelper (root t) [].

(** [BST::collectNodes] / [BST::getAllNodes]: the nodes in pre-order. *)
Fixpoint collectNodes (node : Node) (nodes : list ref) : list ref :=
  match node with
  | Null => nodes
  | Mk _ l r i => collectNodes r (collectNodes l (nodes ++ [i]))
  end.

Definition getAllNodes (t : BST) : list ref := collectNodes (root t) [].

(** [BST::isEmpty], [BST::getRoot] *)
Definition isEmpty (t : BST) : bool :=
  match root t with Null => true | Mk _ _ _ _ => false end.
Definition getRoot (t : BST) : Node := root t.

(** [BST::getHeightHelper] / [BST::getHeight] *)
Fixpoint getHeightHelper (node : Node) : Z :=
  match node with
  | Null => 0
  | Mk _ l r _ =>
      let leftHeight := getHeightHelper l in
      let rightHeight := getHeightHelper r in
      1 + Z.max leftHeight rightHeight
  end.

Definition getHeight (t : BST) : Z := getHeightHelper (root t).

End BST.

(** ** AVLTree.h / AVLTree.cpp *)

Module AVLTree.

(** [struct AVLNode], with the fields in the order of the header; the screen
    coordinates are left out. *)
Inductive AVLNode : Type :=
| Null
| Node (value : Z) (left right : AVLNode) (height : Z) (id : Z).

(** [enum class RotationType]. *)
Inductive RotationType : Type := NONE | LEFT | RIGHT | LEFT_RIGHT | RIGHT_LEFT.

(** [class AVLTree]. *)
Record AVLTree : Type := mkAVL { root : AVLNode; nextNodeId : Z }.

Definition empty : AVLTree := mkAVL Null 0.

(** The reference parameters of the helpers.  [insertHelper] has no
    [deletedNode] and leaves that field alone.  [performed] is a ghost
    history, absent from the program: every assignment of a rotation class to
    [rotation] is also appended to it, in the order of execution. *)
Record refs : Type := mkRefs {
  success : bool;
  path : list ref;
  deletedNode : option ref;
  rotation : RotationType;
  performed : list RotationType
}.

(** [path.push_back(node)] *)
Definition visit (i : ref) (a : refs) : refs :=
  mkRefs (success a) (path a ++ [i]) (deletedNode a) (rotation a) (performed a).
(** [success = false] *)
Definition fail (a : refs) : refs :=
  mkRefs false (path a) (deletedNode a) (rotation a) (performed a).
(** [deletedNode = node] *)
Definition found (i : ref) (a : refs) : refs :=
  mkRefs (success a) (path a) (Some i) (rotation a) (performed a).
(** [rotation = RotationType::X] *)
Definition report (x : RotationType) (a : refs) : refs :=
  mkRefs (success a) (path a) (deletedNode a) x (performed a ++ [x]).

(** [node->value], [node->left], [node->right]: a fault on [nullptr]. *)
Definition valueOf (node : AVLNode) : outcome Z :=
  match node with Null => Fault | Node v _ _ _ _ => Done v end.
Definition leftOf (node : AVLNode) : outcome AVLNode :=
  match node with Null => Fault | Node _ l _ _ _ => Done l end.
Definition rightOf (node : AVLNode) : outcome AVLNode :=
  match node with Null => Fault | Node _ _ r _ _ => Done r end.
(** [node->left = l], [node->right = r] *)
Definition setLeft (node l : AVLNode) : outcome AVLNode :=
  match node with Null => Fault | Node v _ r h i => Done (Node v l r h i) end.
Definition setRight (node r : AVLNode) : outcome AVLNode :=
  match node with Null => Fault | Node v l _ h i => Done (Node v l r h i) end.

(** [AVLTree::getHeight] *)
Definition getHeight (node : AVLNode) : Z :=
  match node with Null => 0 | Node _ _ _ h _ => h end.

(** [AVLTree::getBalance] *)
Definition getBalance (node : AVLNode) : Z :=
  match node with Null => 0 | Node _ l r _ _ => getHeight l - getHeight r end.

(** [AVLTree::updateHeight] *)
Definition updateHeight (node : AVLNode) : AVLNode :=
  match node with
  | Null => Null
  | Node v l r _ i => Node v l r (1 + Z.max (getHeight l) (getHeight r)) i
  end.

(** [AVLTree::rotateRight] *)
Definition rotateRight (y : AVLNode) : outcome AVLNode :=
  x <- leftOf y;
  T2 <- rightOf x;
  y <- setLeft y T2;
  let y := updateHeight y in
  x <- setRight x y;
  Done (updateHeight x).

(** [AVLTree::rotateLeft] *)
Definition rotateLeft (x : AVLNode) : outcome AVLNode :=
  y <- rightOf x;
  T2 <- leftOf y;
  x <- setRight x T2;
  let x := updateHeight x in
  y <- setLeft y x;
  Done (updateHeight y).

(** [c1 && c2] with the right operand evaluated only when the left holds. *)
Definition andThen (c1 : bool) (c2 : outcome bool) : outcome bool :=
  if c1 then c2 else Done false.

(** The tail of [AVLTree::insertHelper] (lines 98-130), run after the
    recursive call returned into [node]. *)
Definition insertRebalance (node : AVLNode) (value : Z) (a : refs) : outcome (AVLNode * refs) :=
  let node := updateHeight node in
  let balance := getBalance node in
  ll <- andThen (balance >? 1) (l <- leftOf node; lv <- valueOf l; Done (value <? lv));
  if ll then
    let a := report RIGHT a in
    t <- rotateRight node; Done (t, a)
  else
  rr <- andThen (balance <? -1) (r <- rightOf node; rv <- valueOf r; Done (value >? rv));
  if rr then
    let a := report LEFT a in
    t <- rotateLeft node; Done (t, a)
  else
  lr <- andThen (balance >? 1) (l <- leftOf node; lv <- valueOf l; Done (value >? lv));
  if lr then
    let a := report LEFT_RIGHT a in
    l <- leftOf node; l <- rotateLeft l; node <- setLeft node l;
    t <- rotateRight node; Done (t, a)
  else
  rl <- andThen (balance <? -1) (r <- rightOf node; rv <- valueOf r; Done (value <? rv));
  if rl then
    let a := report RIGHT_LEFT a in
    r <- rightOf node; r <- rotateRight r; node <- setRight node r;
    t <- rotateLeft node; Done (t, a)
  else Done (node, a).

(** [AVLTree::insertHelper] *)
Fixpoint insertHelper (node : AVLNode) (value : Z) (a : refs) (next : Z)
    : outcome (AVLNode * refs * Z) :=
  match node with
  | Null => Done (Node value Null Null 1 next, visit next a, next + 1)
  | Node nv l r h i =>
      let a := visit i a in
      if value <? nv then
        '(l', a, next) <- insertHelper l value a next;
        '(t, a) <- insertRebalance (Node nv l' r h i) value a;
        Done (t, a, next)
      else if value >? nv then
        '(r', a, next) <- insertHelper r value a next;
        '(t, a) <- insertRebalance (Node nv l r' h i) value a;
        Done (t, a, next)
      else Done (node, fail a, next)
  end.

(** [AVLTree::insert]; [deletedNode] is not a parameter here. *)
Definition insert (t : AVLTree) (value : Z) (path : list ref)
    : outcome (bool * AVLTree * refs) :=
  let a := mkRefs true path None NONE [] in
  '(r, a, next) <- insertHelper (root t) value a (nextNodeId t);
  Done (success a, mkAVL r next, a).

(** [AVLTree::findMin] *)
Fixpoint findMin (node : AVLNode) : AVLNode :=
  match node with
  | Null => Null
  | Node _ l _ _ _ => match l with Null => node | Node _ _ _ _ _ => findMin l end
  end.

(** The tail of [AVLTree::deleteHelper] (lines 179-213). *)
Definition deleteRebalance (node : AVLNode) (a : refs) : outcome (AVLNode * refs) :=
  match node with
  | Null => Done (Null, a)
  | Node _ _ _ _ _ =>
  let node := updateHeight node in
  let balance := getBalance node in
  ll <- andThen (balance >? 1) (l <- leftOf node; Done (getBalance l >=? 0));
  if ll then
    let a := report RIGHT a in
    t <- rotateRight node; Done (t, a)
  else
  lr <- andThen (balance >? 1) (l <- leftOf node; Done (getBalance l <? 0));
  if lr then
    let a := report LEFT_RIGHT a in
    l <- leftOf node; l <- rotateLeft l; node <- setLeft node l;
    t <- rotateRight node; Done (t, a)
  else
  rr <- andThen (balance <? -1) (r <- rightOf node; Done (getBalance r <=? 0));
  if rr then
    let a := report LEFT a in
    t <- rotateLeft node; Done (t, a)
  else
  rl <- andThen (balance <? -1) (r <- rightOf node; Done (getBalance r >? 0));
  if rl then
    let a := report RIGHT_LEFT a in
    r <- rightOf node; r <- rotateRight r; node <- setRight node r;
    t <- rotateLeft node; Done (t, a)
  else Done (node, a)
  end.

(** [AVLTree::deleteHelper].  In the two-children case the recursive call
    receives the very same [deletedNode] and [path] references. *)
Fixpoint deleteHelper (node : AVLNode) (value : Z) (a : refs) : outcome (AVLNode * refs) :=
  match node with
  | Null => Done (Null, fail a)
  | Node nv l r h i =>
      let a := visit i a in
      if value <? nv then
        '(l', a) <- deleteHelper l value a;
        deleteRebalance (Node nv l' r h i) a
      else if value >? nv then
        '(r', a) <- deleteHelper r value a;
        deleteRebalance (Node nv l r' h i) a
      else
        let a := found i a in
        match l, r with
        | Null, _ => Done (r, a)
        | _, Null => Done (l, a)
        | _, _ =>
            tv <- valueOf (findMin r);
            '(r', a) <- deleteHelper r tv a;
            deleteRebalance (Node tv l r' h i) a
        end
  end.

(** [AVLTree::remove] *)
Definition remove (t : AVLTree) (value : Z) (path : list ref)
    : outcome (bool * AVLTree * refs) :=
  let a := mkRefs true path None NONE [] in
  '(r, a) <- deleteHelper (root t) value a;
  Done (success a, mkAVL r (nextNodeId t), a).

(** [AVLTree::searchHelper] *)
Fixpoint searchHelper (node : AVLNode) (value : Z) (path : list ref) : AVLNode * list ref :=
  match node with
  | Null => (Null, path)
  | Node nv l r _ i =>
      let path := path ++ [i] in
      if value <? nv then searchHelper l value path
      else if value >? nv then searchHelper r value path
      else (node, path)
  end.

(** [AVLTree::search]; the tree is handed back as the call leaves it. *)
Definition search (t : AVLTree) (value : Z) (path : list ref)
    : AVLTree * AVLNode * list ref :=
  let '(n, path) := searchHelper (root t) value path in (t, n, path).

(** [AVLTree::contains] *)
Definition contains (t : AVLTree) (value : Z) : AVLTree * bool :=
  let '(t, n, _) := search t value [] in
  (t, match n with Null => false | Node _ _ _ _ _ => true end).

(** [AVLTree::clear] *)
Definition clear (t : AVLTree) : AVLTree := mkAVL Null (nextNodeId t).

(** [AVLTree::getTreeHeight] *)
Definition getTreeHeight (t : AVLTree) : Z := getHeight (root t).

(** [AVLTree::inorderHelper] / [AVLTree::inorderTraversal] *)
Fixpoint inorderHelper (node : AVLNode) (result : list Z) : list Z :=
  match node with
  | Null => result
  | Node v l r _ _ => inorderHelper r (inorderHelper l result ++ [v])
  end.

Definition inorderTraversal (t : AVLTree) : list Z := inorderHelper (root t) [].

(** [AVLTree::collectNodes] / [AVLTree::getAllNodes] *)
Fixpoint collectNodes (node : AVLNode) (nodes : list ref) : list ref :=
  match node with
  | Null => nodes
  | Node _ l r _ i => collectNodes r (collectNodes l (nodes ++ [i]))
  end.

Definition getAllNodes (t : AVLTree) : list ref := collectNodes (root t) [].

(** [AVLTree::isEmpty], [AVLTree::getRoot] *)
Definition isEmpty (t : AVLTree) : bool :=
  match root t with Null => true | Node _ _ _ _ _ => false end.
Definition getRoot (t : AVLTree) : AVLNode := root t.

End AVLTree.

(** ** MinHeap.h / MinHeap.cpp *)

Module MinHeap.

(** [struct HeapNode] *)
Record HeapNode : Type := mkHeapNode { value : Z; id : Z }.

(** [class MinHeap]: the vector of cells and the identifier counter.  The
    vector holds one cell per position, so positions [0 .. size-1] are
    occupied by construction. *)
Record MinHeap : Type := mkHeap { heap : list HeapNode; nextNodeId : Z }.

Definition empty : MinHeap := mkHeap [] 0.

(** [static_cast<int>(heap.size())] *)
Definition size (h : list HeapNode) : Z := Z.of_nat (length h).

(** [heap[i]] read: a fault outside [0 .. size-1]. *)
Definition get (h : list HeapNode) (i : Z) : outcome HeapNode :=
  if (0 <=? i) && (i <? size h) then
    match h !! Z.to_nat i with Some x => Done x | None => Fault end
  else Fault.

(** [heap[i] = x]: a fault outside [0 .. size-1]. *)
Definition set (h : list HeapNode) (i : Z) (x : HeapNode) : outcome (list HeapNode) :=
  if (0 <=? i) && (i <? size h) then Done (<[Z.to_nat i := x]> h) else Fault.

(** [heap.back()] and [heap.pop_back()]: a fault on an empty vector. *)
Definition back (h : list HeapNode) : outcome HeapNode :=
  match last h with Some x => Done x | None => Fault end.
Definition pop_back (h : list HeapNode) : outcome (list HeapNode) :=
  match h with [] => Fault | _ => Done (removelast h) end.

(** [MinHeap::parent], [leftChild], [rightChild]; [/] on [int] truncates. *)
Definition parent (i : Z) : Z := Z.quot (i - 1) 2.
Definition leftChild (i : Z) : Z := 2 * i + 1.
Definition rightChild (i : Z) : Z := 2 * i + 2.

(** [MinHeap::swap] *)
Definition swap (h : list HeapNode) (i j : Z) : outcome (list HeapNode) :=
  temp <- get h i;
  hj <- get h j;
  h <- set h i hj;
  set h j temp.

(** [c1 && c2] with the right operand evaluated only when the left holds. *)
Definition andThen (c1 : bool) (c2 : outcome bool) : outcome bool :=
  if c1 then c2 else Done false.

(** The sift-up loop of [insert] (lines 29-33) and of [remove] (lines
    140-144); one unit of fuel per iteration. *)
Fixpoint siftUpLoop (fuel : nat) (h : list HeapNode) (current : Z) (siftPath : list Z)
    : outcome (list HeapNode * Z * list Z) :=
  go <- andThen (current >? 0)
          (p <- get h (parent current); c <- get h current; Done (value p >? value c));
  if go then
    match fuel with
    | O => OutOfFuel
    | S fuel =>
        h <- swap h current (parent current);
        let current := parent current in
        siftUpLoop fuel h current (siftPath ++ [current])
    end
  else Done (h, current, siftPath).

(** The sift-down loop of [extractMin] (lines 50-72) and of [remove] (lines
    115-137); one unit of fuel per iteration. *)
Fixpoint siftDownLoop (fuel : nat) (h : list HeapNode) (current : Z) (siftPath : list Z)
    : outcome (list HeapNode * Z * list Z) :=
  let smallest := current in
  let left := leftChild current in
  let right := rightChild current in
  c1 <- andThen (left <? size h)
          (l <- get h left; s <- get h smallest; Done (value l <? value s));
  let smallest := if c1 then left else smallest in
  c2 <- andThen (right <? size h)
          (r <- get h right; s <- get h smallest; Done (value r <? value s));
  let smallest := if c2 then right else smallest in
  if negb (smallest =? current) then
    match fuel with
    | O => OutOfFuel
    | S fuel =>
        let siftPath := siftPath ++ [smallest] in
        h <- swap h current smallest;
        siftDownLoop fuel h smallest siftPath
    end
  else Done (h, current, siftPath).

(** [MinHeap::insert]; the loop gets as much fuel as the vector has cells. *)
Definition insert (t : MinHeap) (v : Z) (siftPath : list Z) : outcome (MinHeap * list Z) :=
  let newNode := mkHeapNode v (nextNodeId t) in
  let next := nextNodeId t + 1 in
  let h := heap t ++ [newNode] in
  let current := size h - 1 in
  let siftPath := siftPath ++ [current] in
  '(h, _, siftPath) <- siftUpLoop (length h) h current siftPath;
  Done (mkHeap h next, siftPath).

(** [MinHeap::extractMin]: the heap, the detached cell ([None] is [nullptr])
    and the trace. *)
Definition extractMin (t : MinHeap) (siftPath : list Z)
    : outcome (MinHeap * option HeapNode * list Z) :=
  match heap t with
  | [] => Done (t, None, siftPath)
  | _ :: _ =>
      let h := heap t in
      minNode <- get h 0;
      let siftPath := siftPath ++ [0] in
      b <- back h;
      h <- set h 0 b;
      h <- pop_back h;
      match h with
      | [] => Done (mkHeap h (nextNodeId t), Some minNode, siftPath)
      | _ :: _ =>
          '(h, _, siftPath) <- siftDownLoop (length h) h 0 siftPath;
          Done (mkHeap h (nextNodeId t), Some minNode, siftPath)
      end
  end.

(** [MinHeap::peekMin] *)
Definition peekMin (t : MinHeap) : option HeapNode := head (heap t).

(** The scan of [MinHeap::search] from position [i] over the cells
    [i .. size-1]. *)
Fixpoint searchFrom (cells : list HeapNode) (i : Z) (v : Z) (searchPath : list Z)
    : Z * list Z :=
  match cells with
  | [] => (-1, searchPath)
  | c :: cells =>
      let searchPath := searchPath ++ [i] in
      if value c =? v then (i, searchPath) else searchFrom cells (i + 1) v searchPath
  end.

(** [MinHeap::search]; the heap is handed back as the call leaves it. *)
Definition search (t : MinHeap) (v : Z) (searchPath : list Z) : MinHeap * Z * list Z :=
  let '(i, searchPath) := searchFrom (heap t) 0 v searchPath in (t, i, searchPath).

(** The scan that opens [MinHeap::remove] (lines 94-100). *)
Fixpoint findFrom (cells : list HeapNode) (i : Z) (v : Z) : Z :=
  match cells with
  | [] => -1
  | c :: cells => if value c =? v then i else findFrom cells (i + 1) v
  end.

(** [MinHeap::remove] *)
Definition remove (t : MinHeap) (v : Z) (siftPath : list Z)
    : outcome (bool * MinHeap * list Z) :=
  let h := heap t in
  let index := findFrom h 0 v in
  if index =? -1 then Done (false, t, siftPath)
  else
    let siftPath := siftPath ++ [index] in
    toDelete <- get h index;
    b <- back h;
    h <- set h index b;
    h <- pop_back h;
    if index <? size h then
      '(h, current, siftPath) <- siftDownLoop (length h) h index siftPath;
      '(h, _, siftPath) <- siftUpLoop (length h) h current siftPath;
      Done (true, mkHeap h (nextNodeId t), siftPath)
    else Done (true, mkHeap h (nextNodeId t), siftPath).

(** [MinHeap::clear], [isEmpty], [getSize] *)
Definition clear (t : MinHeap) : MinHeap := mkHeap [] (nextNodeId t).
Definition isEmpty (t : MinHeap) : bool := match heap t with [] => true | _ => false end.
Definition getSize (t : MinHeap) : Z := size (heap t).

(** [MinHeap::getNode]: the heap as the call leaves it and the cell
    ([None] is [nullptr]). *)
Definition getNode (t : MinHeap) (index : Z) : outcome (MinHeap * option HeapNode) :=
  if (index >=? 0) && (index <? size (heap t)) then
    x <- get (heap t) index; Done (t, Some x)
  else Done (t, None).

(** [MinHeap::isValidIndex] *)
Definition isValidIndex (t : MinHeap) (index : Z) : bool :=
  (index >=? 0) && (index <? size (heap t)).

(** [MinHeap::getAllNodes]: a copy of the vector. *)
Definition getAllNodes (t : MinHeap) : list HeapNode := heap t.

End MinHeap.

(** ** LinkedList.h / LinkedList.cpp *)

Module LinkedList.

(** [struct ListNode]; the [next] pointer is the position in [chain]. *)
Record ListNode : Type := mkListNode { value : Z; id : Z }.

(** [class LinkedList].  [chain] is the sequence of nodes reached from
    [head] by following [next]; [head] is its first node.  [tail] is the
    stored tail pointer. *)
Record LinkedList : Type := mkList {
  chain : list ListNode;
  tail : option ref;
  nextNodeId : Z;
  size : Z
}.

Definition empty : LinkedList := mkList [] None 0 0.

(** [LinkedList::getHead] *)
Definition getHead (t : LinkedList) : option ListNode := head (chain t).

(** [LinkedList::insertAtHead] *)
Definition insertAtHead (t : LinkedList) (v : Z) (path : list ref)
    : bool * LinkedList * list ref :=
  let newNode := mkListNode v (nextNodeId t) in
  let tail' := match chain t with [] => Some (id newNode) | _ => tail t end in
  (true, mkList (newNode :: chain t) tail' (nextNodeId t + 1) (size t + 1),
   path ++ [id newNode]).

(** The loop of [LinkedList::remove] (lines 73-90), entered with [prev] and
    the nodes from [current] on.  Returns whether the value was found, the
    nodes that follow [prev] afterwards, the path, the tail pointer and
    [deletedNode].  The pointer test [current == tail] compares the
    identifiers. *)
Fixpoint removeLoop (prev : ListNode) (current : list ListNode) (v : Z)
    (path : list ref) (tl : option ref)
    : bool * list ListNode * list ref * option ref * option ref :=
  match current with
  | [] => (false, [], path, tl, None)
  | c :: next =>
      let path := path ++ [id c] in
      if value c =? v then
        let tl := if decide (tl = Some (id c)) then Some (id prev) else tl in
        (true, next, path, tl, Some (id c))
      else
        let '(ok, next, path, tl, deleted) := removeLoop c next v path tl in
        (ok, c :: next, path, tl, deleted)
  end.

(** [LinkedList::remove]: the result, the list, the path and [deletedNode]. *)
Definition remove (t : LinkedList) (v : Z) (path : list ref)
    : bool * LinkedList * list ref * option ref :=
  match chain t with
  | [] => (false, t, path, None)
  | h :: rest =>
      if value h =? v then
        let path := path ++ [id h] in
        let tl := match rest with [] => None | _ => tail t end in
        (true, mkList rest tl (nextNodeId t) (size t - 1), path, Some (id h))
      else
        let path := path ++ [id h] in
        let '(ok, rest, path, tl, deleted) := removeLoop h rest v path (tail t) in
        (ok, mkList (h :: rest) tl (nextNodeId t) (if ok then size t - 1 else size t),
         path, deleted)
  end.

(** The loop of [LinkedList::search]. *)
Fixpoint searchLoop (current : list ListNode) (v : Z) (path : list ref)
    : option ListNode * list ref :=
  match current with
  | [] => (None, path)
  | c :: next =>
      let path := path ++ [id c] in
      if value c =? v then (Some c, path) else searchLoop next v path
  end.

(** [LinkedList::search]; the list is handed back as the call leaves it. *)
Definition search (t : LinkedList) (v : Z) (path : list ref)
    : LinkedList * option ListNode * list ref :=
  let '(n, path) := searchLoop (chain t) v path in (t, n, path).

(** [LinkedList::contains] *)
Definition contains (t : LinkedList) (v : Z) : LinkedList * bool :=
  let '(t, n, _) := search t v [] in
  (t, match n with None => false | Some _ => true end).

(** [LinkedList::clear], [isEmpty], [getSize] *)
Definition clear (t : LinkedList) : LinkedList := mkList [] None (nextNodeId t) 0.
Definition isEmpty (t : LinkedList) : bool := match chain t with [] => true | _ => false end.
Definition getSize (t : LinkedList) : Z := size t.

(** The position in the chain of the node a pointer designates. *)
Fixpoint indexOf (r : ref) (nodes : list ListNode) : option nat :=
  match nodes with
  | [] => None
  | c :: rest => if decide (id c = r) then Some O else S <$> indexOf r rest
  end.

(** [LinkedList::insertAtTail].  The write [tail->next = newNode] makes the
    new node follow the node [tail] designates, whatever followed it before.
    A null [tail] is a fault; so is, in this model, a [tail] that designates
    no node of the chain (such a node was handed out to a caller). *)
Definition insertAtTail (t : LinkedList) (v : Z) (path : list ref)
    : outcome (bool * LinkedList * list ref) :=
  let newNode := mkListNode v (nextNodeId t) in
  let next := nextNodeId t + 1 in
  match chain t with
  | [] =>
      Done (true, mkList [newNode] (Some (id newNode)) next (size t + 1),
            path ++ [id newNode])
  | _ :: _ =>
      let path := path ++ (id <$> chain t) in
      match tail t with
      | None => Fault
      | Some r =>
          match indexOf r (chain t) with
          | None => Fault
          | Some k =>
              Done (true,
                    mkList (take (S k) (chain t) ++ [newNode]) (Some (id newNode))
                      next (size t + 1),
                    path ++ [id newNode])
          end
      end
  end.

(** [LinkedList::getAllNodes] *)
Definition getAllNodes (t : LinkedList) : list ref := id <$> chain t.

End LinkedList.

(** ** Stack.h / Stack.cpp *)

Module Stack.

(** [struct StackNode] *)
Record StackNode : Type := mkStackNode { value : Z; id : Z }.

(** [class Stack]; the top is the last element. *)
Record Stack : Type := mkStack { elements : list StackNode; nextNodeId : Z }.

Definition empty : Stack := mkStack [] 0.



(** [Stack::peek] *)
Definition peek (t : Stack) : option StackNode := last (elements t).

(** The loop of [Stack::search], over the cells from the top down. *)
Fixpoint searchLoop (topDown : list StackNode) (v : Z) (path : list ref)
    : option StackNode * list ref :=
  match topDown with
  | [] => (None, path)
  | c :: below =>
      let path := path ++ [id c] in
      if value c =? v then (Some c, path) else searchLoop below v path
  end.

(** [Stack::search]; the stack is handed back as the call leaves it. *)
Definition search (t : Stack) (v : Z) (path : list ref)
    : Stack * option StackNode * list ref :=
  let '(n, path) := searchLoop (rev (elements t)) v path in (t, n, path).

(** [Stack::contains] *)
Definition contains (t : Stack) (v : Z) : Stack * bool :=
  let '(t, n, _) := search t v [] in
  (t, match n with None => false | Some _ => true end).

(** [Stack::getSize] *)
Definition getSize (t : Stack) : Z := Z.of_nat (length (elements t)).

(** [Stack::clear], [Stack::isEmpty], [Stack::getAllNodes] *)
Definition clear (t : Stack) : Stack := mkStack [] (nextNodeId t).
Definition isEmpty (t : Stack) : bool := match elements t with [] => true | _ => false end.
Definition getAllNodes (t : Stack) : list StackNode := elements t.

End Stack.

(** ** Queue.h / Queue.cpp *)

Module Queue.

(** [struct QueueNode] *)
Record QueueNode : Type := mkQueueNode { value : Z; id : Z }.

(** [class Queue]; the front is the first element. *)
Record Queue : Type := mkQueue { elements : list QueueNode; nextNodeId : Z }.

Definition empty : Queue := mkQueue [] 0.



(** The loop of [Queue::search], over the cells from the front. *)
Fixpoint searchLoop (cells : list QueueNode) (v : Z) (path : list ref)
    : option QueueNode * list ref :=
  match cells with
  | [] => (None, path)
  | c :: rest =>
      let path := path ++ [id c] in
      if value c =? v then (Some c, path) else searchLoop rest v path
  end.

(** [Queue::search]; the queue is handed back as the call leaves it. *)
Definition search (t : Queue) (v : Z) (path : list ref)
    : Queue * option QueueNode * list ref :=
  let '(n, path) := searchLoop (elements t) v path in (t, n, path).

(** [Queue::contains] *)
Definition contains (t : Queue) (v : Z) : Queue * bool :=
  let '(t, n, _) := search t v [] in
  (t, match n with None => false | Some _ => true end).

(** [Queue::getSize] *)
Definition getSize (t : Queue) : Z := Z.of_nat (length (elements t)).


(** [Queue::clear], [Queue::isEmpty], [Queue::getAllNodes] *)
Definition clear (t : Queue) : Queue := mkQueue [] (nextNodeId t).
Definition isEmpty (t : Queue) : bool := match elements t with [] => true | _ => false end.
Definition getAllNodes (t : Queue) : list QueueNode := elements t.

End Queue.

(** ** Visualizer.h / Visualizer.cpp: the edge list *)

Module Visualizer.

(** [struct EdgeVisual] *)
Record EdgeVisual : Type := mkEdge {
  fromNodeId : Z;
  toNodeId : Z;
  isHighlighted : bool
}.

(** [EdgeVisual(from, to)] *)
Definition newEdge (from to : Z) : EdgeVisual := mkEdge from to false.

(** [Visualizer::buildEdgeListHelper], appending to [edges]. *)
Fixpoint buildEdgeListHelper (node : BST.Node) (edges : list EdgeVisual)
    : list EdgeVisual :=
  match node with
  | BST.Null => edges
  | BST.Mk _ l r i =>
      let edges :=
        match l with
        | BST.Null => edges
        | BST.Mk _ _ _ li => buildEdgeListHelper l (edges ++ [newEdge i li])
        end in
      match r with
      | BST.Null => edges
      | BST.Mk _ _ _ ri => buildEdgeListHelper r (edges ++ [newEdge i ri])
      end
  end.

(** [Visualizer::buildEdgeList]: the edge list is cleared first. *)
Definition buildEdgeList (bst : BST.BST) : list EdgeVisual :=
  buildEdgeListHelper (BST.getRoot bst) [].

End Visualizer.

(** ** GUIElements.h / GUIElements.cpp: the text input *)

Module TextInput.

(** [class TextInput]: the fields the event handler decides on; the shapes,
    the font and the cursor blink state are presentation. *)
Record TextInput : Type := mkInput {
  inputString : list ascii;
  isFocused : bool;
  numericOnly : bool
}.

(** The constructor: an empty string, not focused. *)
Definition create (numOnly : bool) : TextInput := mkInput [] false numOnly.

(** The events [handleEvent] tells apart.  For a mouse press the event
    carries whether the button is the left one and whether the pointer is
    inside the box (the outcome of the geometry test); for a key press,
    whether the key is Enter or Return. *)
Inductive Event : Type :=
| MouseButtonPressed (left inside : bool)
| TextEntered (unicode : N)
| KeyPressed (enter : bool)
| OtherEvent.

(** [c >= '0' && c <= '9'] and [c == '-'] on character codes. *)
Definition isDigit (c : ascii) : bool :=
  ((48 <=? N_of_ascii c) && (N_of_ascii c <=? 57))%N.
Definition isMinus (c : ascii) : bool := (N_of_ascii c =? 45)%N.

(** [TextInput::handleEvent] *)
Definition handleEvent (t : TextInput) (event : Event) : TextInput :=
  let t :=
    match event with
    | MouseButtonPressed true inside => mkInput (inputString t) inside (numericOnly t)
    | _ => t
    end in
  let t :=
    match event with
    | TextEntered unicode =>
        if isFocused t then
          if (unicode =? 8)%N then
            match inputString t with
            | [] => t
            | _ :: _ => mkInput (removelast (inputString t)) (isFocused t) (numericOnly t)
            end
          else if ((32 <=? unicode) && (unicode <? 128))%N then
            let c := ascii_of_N unicode in
            let accept :=
              if numericOnly t
              then isDigit c || (isMinus c && match inputString t with [] => true | _ => false end)
              else true in
            if accept && (Nat.ltb (length (inputString t)) 10)
            then mkInput (inputString t ++ [c]) (isFocused t) (numericOnly t)
            else t
          else t
        else t
    | _ => t
    end in
  match event with
  | KeyPressed true =>
      if isFocused t then mkInput (inputString t) false (numericOnly t) else t
  | _ => t
  end.

(** [TextInput::getText], [clear], [isEmpty] *)
Definition getText (t : TextInput) : list ascii := inputString t.
Definition clear (t : TextInput) : TextInput := mkInput [] (isFocused t) (numericOnly t).
Definition isEmpty (t : TextInput) : bool :=
  match inputString t with [] => true | _ => false end.

End TextInput.

(** ** Runs of public operations and specification predicates *)

Module AVLSpec.
Import AVLTree.

(** The recomputed height of a subtree: 0 for [nullptr], 1 for a leaf. *)
Fixpoint realHeight (t : AVLNode) : Z :=
  match t with
  | Null => 0
  | Node _ l r _ _ => 1 + Z.max (realHeight l) (realHeight r)
  end.

(** Every cached height is the recomputed one and every balance factor lies
    in [{-1, 0, 1}]. *)
Fixpoint balanced (t : AVLNode) : Prop :=
  match t with
  | Null => True
  | Node _ l r h _ =>
      h = 1 + Z.max (realHeight l) (realHeight r) /\
      -1 <= realHeight l - realHeight r <= 1 /\
      balanced l /\ balanced r
  end.

(** The values in in-order, as [inorderHelper] appends them. *)
Fixpoint inorder (t : AVLNode) : list Z :=
  match t with
  | Null => []
  | Node v l r _ _ => inorder l ++ v :: inorder r
  end.

(** The BST order of section 3: left values below, right values above. *)
Fixpoint ordered (t : AVLNode) : Prop :=
  match t with
  | Null => True
  | Node v l r _ _ =>
      Forall (fun x => x < v) (inorder l) /\ Forall (fun x => v < x) (inorder r) /\
      ordered l /\ ordered r
  end.

(** The tree has a node with identifier [i] that holds value [v]. *)
Fixpoint holds (t : AVLNode) (i : ref) (v : Z) : Prop :=
  match t with
  | Null => False
  | Node nv l r _ ni => (ni = i /\ nv = v) \/ holds l i v \/ holds r i v
  end.

(** The cached heights of all nodes, in pre-order. *)
Fixpoint heights (t : AVLNode) : list Z :=
  match t with
  | Null => []
  | Node _ l r h _ => h :: heights l ++ heights r
  end.

(** The public operations of the claims, and a run of them; every call gets
    an empty trace. *)
Inductive op : Type := Insert (v : Z) | Remove (v : Z) | Search (v : Z) | Clear.

Definition step (t : AVLTree) (o : op) : outcome AVLTree :=
  match o with
  | Insert v => '(_, t, _) <- insert t v []; Done t
  | Remove v => '(_, t, _) <- remove t v []; Done t
  | Search v => let '(t, _, _) := search t v [] in Done t
  | Clear => Done (clear t)
  end.

Fixpoint run (t : AVLTree) (ops : list op) : outcome AVLTree :=
  match ops with
  | [] => Done t
  | o :: ops => t <- step t o; run t ops
  end.


End AVLSpec.

Module BSTSpec.
Import BST.

Fixpoint inorder (t : Node) : list Z :=
  match t with
  | Null => []
  | Mk v l r _ => inorder l ++ v :: inorder r
  end.

Fixpoint ordered (t : Node) : Prop :=
  match t with
  | Null => True
  | Mk v l r _ =>
      Forall (fun x => x < v) (inorder l) /\ Forall (fun x => v < x) (inorder r) /\
      ordered l /\ ordered r
  end.

(** The tree has a node with identifier [i] that holds value [v]. *)
Fixpoint holds (t : Node) (i : ref) (v : Z) : Prop :=
  match t with
  | Null => False
  | Mk nv l r ni => (ni = i /\ nv = v) \/ holds l i v \/ holds r i v
  end.

(** The identifiers of the nodes of a subtree. *)
Fixpoint ids (t : Node) : list ref :=
  match t with
  | Null => []
  | Mk _ l r i => i :: ids l ++ ids r
  end.

End BSTSpec.

Module HeapSpec.
Import MinHeap.

(** The value stored at index [i] (0 outside the vector). *)
Definition key (h : list HeapNode) (i : Z) : Z :=
  match get h i with Done c => value c | _ => 0 end.

(** Heap order: no cell is below its parent. *)
Definition heapOrdered (h : list HeapNode) : Prop :=
  forall i, 0 < i < size h -> key h (parent i) <= key h i.

(** Dense: every index below the size holds a cell. *)
Definition dense (h : list HeapNode) : Prop :=
  forall i, 0 <= i < size h -> exists c, get h i = Done c.

Inductive op : Type := Insert (v : Z) | ExtractMin | Remove (v : Z).

Definition step (t : MinHeap) (o : op) : outcome MinHeap :=
  match o with
  | Insert v => '(t, _) <- insert t v []; Done t
  | ExtractMin => '(t, _, _) <- extractMin t []; Done t
  | Remove v => '(_, t, _) <- remove t v []; Done t
  end.

Fixpoint run (t : MinHeap) (ops : list op) : outcome MinHeap :=
  match ops with
  | [] => Done t
  | o :: ops => t <- step t o; run t ops
  end.

(** [extractMin] repeated until the heap is empty: the values in the order
    they come out.  One unit of fuel per call. *)
Fixpoint drain (fuel : nat) (t : MinHeap) : outcome (list Z) :=
  '(t, m, _) <- extractMin t [];
  match m with
  | None => Done []
  | Some c =>
      match fuel with
      | O => OutOfFuel
      | S fuel => out <- drain fuel t; Done (value c :: out)
      end
  end.

(** The sift-up part of a trace: from index [from], each entry is the parent
    of the one before, reached by a swap over a cell of [h] whose value is
    greater than [v]. *)
Fixpoint climbs (h : list HeapNode) (v : Z) (from : Z) (tr : list Z) : Prop :=
  match tr with
  | [] => True
  | b :: tr => 0 < from /\ b = parent from /\ v < key h b /\ climbs h v b tr
  end.

End HeapSpec.

(** ** Invariants used by the proofs, and the trees of the scenarios *)

Module LinkedListSpec.
Import LinkedList.

(** The stored tail pointer designates the last node of the chain, and no
    two nodes of the chain share an identifier. *)
Definition wellFormed (t : LinkedList) : Prop :=
  tail t = id <$> last (chain t) /\ NoDup (id <$> chain t).

(** The list 10 -> 20 -> 30 of scenario 6, with identifiers 0, 1, 2. *)
Definition list123 : LinkedList :=
  mkList [mkListNode 10 0; mkListNode 20 1; mkListNode 30 2] (Some 2) 3 3.

End LinkedListSpec.

Module HeapInv.
Import MinHeap HeapSpec.

(** Heap order everywhere except, possibly, between [k] and its parent; the
    children of [k] are not below the parent of [k]. *)
Definition exceptUp (h : list HeapNode) (k : Z) : Prop :=
  (forall i, 0 < i < size h -> i <> k -> key h (parent i) <= key h i) /\
  (0 < k -> forall i, 0 < i < size h -> parent i = k -> key h (parent k) <= key h i).

(** Heap order everywhere except, possibly, between [k] and its children; the
    children of [k] are not below the parent of [k]. *)
Definition exceptDown (h : list HeapNode) (k : Z) : Prop :=
  (forall i, 0 < i < size h -> parent i <> k -> key h (parent i) <= key h i) /\
  (0 < k -> forall i, 0 < i < size h -> parent i = k -> key h (parent k) <= key h i).

(** The index the sift-down loop picks at [cur]. *)
Definition pick (h : list HeapNode) (cur : Z) : Z :=
  let s1 := if (leftChild cur <? size h) && (key h (leftChild cur) <? key h cur)
            then leftChild cur else cur in
  if (rightChild cur <? size h) && (key h (rightChild cur) <? key h s1)
  then rightChild cur else s1.

End HeapInv.

Module AVLInv.
Import AVLTree AVLSpec.

(** After an insertion made a subtree taller: the side the value went to is
    the taller one. *)
Definition grew (t : AVLNode) (v : Z) : Prop :=
  match t with
  | Null => False
  | Node tv l r _ _ =>
      (v < tv /\ realHeight l = realHeight r + 1) \/
      (tv < v /\ realHeight r = realHeight l + 1)
  end.


End AVLInv.

Module Examples.

(** The tree a run from the empty tree ends in. *)
Definition treeOf (ops : list AVLSpec.op) : AVLTree.AVLTree :=
  match AVLSpec.run AVLTree.empty ops with
  | Done t => t
  | _ => AVLTree.empty
  end.

(** The AVL tree after inserting 50 and 30. *)
Definition avl_50_30 : AVLTree.AVLTree := treeOf (AVLSpec.Insert <$> [50; 30]).

(** Scenario 5: the BST after inserting 50 and 30. *)
Definition bst_50_30 : BST.BST :=
  (BST.insert (BST.insert BST.empty 50 []).1.2 30 []).1.2.

(** Insertions after which removing 10 rotates at two ancestors: a left
    rotation at 20, then a right-left rotation at the root 50. *)
Definition cascade : list AVLSpec.op :=
  AVLSpec.Insert <$> [50; 20; 80; 10; 30; 65; 90; 40; 60; 70; 95; 75].

(** Insertions after which inserting 4 rotates at the root. *)
Definition five : list AVLSpec.op := AVLSpec.Insert <$> [5; 2; 6; 1; 3].

(** Insertions that give a root 20 with the two children 10 and 30. *)
Definition three : list AVLSpec.op := AVLSpec.Insert <$> [20; 10; 30].

End Examples.

(** ** Runs and predicates for the further properties *)

Module BSTRun.
Import BST BSTSpec.

(** The mutating operations of the BST and a run of them. *)
Inductive op : Type := Insert (v : Z) | Remove (v : Z) | Clear.

Definition step (t : BST) (o : op) : BST :=
  match o with
  | Insert v => (insert t v []).1.2
  | Remove v => (remove t v []).1.2
  | Clear => clear t
  end.

Definition run (t : BST) (ops : list op) : BST := fold_left step ops t.

(** The number of nodes of a subtree. *)
Fixpoint nodes (t : Node) : Z :=
  match t with
  | Null => 0
  | Mk _ l r _ => 1 + nodes l + nodes r
  end.

(** In the tree, the node [a] has the node [b] as a child. *)
Fixpoint childOf (t : Node) (a b : ref) : Prop :=
  match t with
  | Null => False
  | Mk _ l r i =>
      (i = a /\ (nodeId l = Some b \/ nodeId r = Some b)) \/
      childOf l a b \/ childOf r a b
  end.

End BSTRun.

Module AVLRun.
Import AVLTree AVLSpec.

(** The identifiers of the nodes of a subtree, in pre-order. *)
Fixpoint ids (t : AVLNode) : list ref :=
  match t with
  | Null => []
  | Node _ l r _ i => i :: ids l ++ ids r
  end.

(** The number of nodes of a subtree. *)
Fixpoint nodes (t : AVLNode) : Z :=
  match t with
  | Null => 0
  | Node _ l r _ _ => 1 + nodes l + nodes r
  end.

End AVLRun.

Module ListRun.
Import LinkedList.

Inductive op : Type :=
| InsertAtHead (v : Z) | InsertAtTail (v : Z) | Remove (v : Z) | Clear.

Definition step (t : LinkedList) (o : op) : outcome LinkedList :=
  match o with
  | InsertAtHead v => Done (insertAtHead t v []).1.2
  | InsertAtTail v => '(_, t, _) <- insertAtTail t v []; Done t
  | Remove v => Done (remove t v []).1.1.2
  | Clear => Done (clear t)
  end.

Fixpoint run (t : LinkedList) (ops : list op) : outcome LinkedList :=
  match ops with
  | [] => Done t
  | o :: ops => t <- step t o; run t ops
  end.

End ListRun.

Module StackRun.
Import Stack.



End StackRun.

Module QueueRun.
Import Queue.



End QueueRun.

Module TextInputSpec.
Import TextInput.

(** The text after a sequence of events. *)
Definition after (t : TextInput) (events : list Event) : TextInput :=
  fold_left handleEvent events t.

(** An optional minus sign followed by digits only. *)
Definition numericText (s : list ascii) : Prop :=
  match s with
  | [] => True
  | c :: rest => (isDigit c = true \/ isMinus c = true) /\ Forall (fun d => isDigit d = true) rest
  end.

(** Every character is a printable 7-bit character. *)
Definition printable (s : list ascii) : Prop :=
  Forall (fun c => (32 <= N_of_ascii c < 128)%N) s.

(** What every event keeps: at most ten characters, printable characters
    only and, in numeric mode, a numeric text. *)
Definition kept (t : TextInput) : Prop :=
  (length (inputString t) <= 10)%nat /\ printable (inputString t) /\
  (if numericOnly t then numericText (inputString t) else True).

End TextInputSpec.

(** * Theorems *)

(** ** Searches leave the containers alone *)

(** C9. [search] and [contains] hand every container back exactly as they
    got it (structure, values, size, head and tail, root, cached heights and
    identifier counter), whether or not the value is found. *)
Theorem search_contains_frame
    (b : BST.BST) (a : AVLTree.AVLTree) (h : MinHeap.MinHeap)
    (l : LinkedList.LinkedList) (s : Stack.Stack) (q : Queue.Queue)
    (v : Z) (path : list ref) (ipath : list Z) :
  (BST.search b v path).1.1 = b /\ (BST.contains b v).1 = b /\
  (AVLTree.search a v path).1.1 = a /\ (AVLTree.contains a v).1 = a /\
  (MinHeap.search h v ipath).1.1 = h /\
  (LinkedList.search l v path).1.1 = l /\ (LinkedList.contains l v).1 = l /\
  (Stack.search s v path).1.1 = s /\ (Stack.contains s v).1 = s /\
  (Queue.search q v path).1.1 = q /\ (Queue.contains q v).1 = q.
Proof.
  unfold BST.contains, AVLTree.contains, LinkedList.contains, Stack.contains,
    Queue.contains.
  unfold BST.search, AVLTree.search, MinHeap.search, LinkedList.search,
    Stack.search, Queue.search.
  repeat split;
    repeat match goal with
           | |- context [BST.searchHelper ?x ?y ?z] => destruct (BST.searchHelper x y z)
           | |- context [AVLTree.searchHelper ?x ?y ?z] =>
               destruct (AVLTree.searchHelper x y z)
           | |- context [MinHeap.searchFrom ?x ?i ?y ?z] =>
               destruct (MinHeap.searchFrom x i y z)
           | |- context [LinkedList.searchLoop ?x ?y ?z] =>
               destruct (LinkedList.searchLoop x y z)
           | |- context [Stack.searchLoop ?x ?y ?z] => destruct (Stack.searchLoop x y z)
           | |- context [Queue.searchLoop ?x ?y ?z] => destruct (Queue.searchLoop x y z)
           end; reflexivity.
Qed.

(** ** MinHeap: cell access *)

Module MinHeapFacts.
Import MinHeap HeapSpec.

Lemma get_Done (h : list HeapNode) (i : Z) (x : HeapNode) :
  get h i = Done x <-> 0 <= i < size h /\ h !! Z.to_nat i = Some x.
Proof.
  unfold get, size.
  destruct (0 <=? i) eqn:E1; destruct (i <? Z.of_nat (length h)) eqn:E2; simpl;
    try (split; [discriminate | lia]).
  destruct (h !! Z.to_nat i) eqn:E; split.
  - intros [= ->]. split; [lia | reflexivity].
  - intros [_ [= ->]]. reflexivity.
  - discriminate.
  - intros [_ [=]].
Qed.

Lemma get_in_range (h : list HeapNode) (i : Z) :
  0 <= i < size h -> exists x, get h i = Done x /\ h !! Z.to_nat i = Some x.
Proof.
  intros Hi. destruct (lookup_lt_is_Some_2 h (Z.to_nat i)) as [x Hx].
  { unfold size in Hi. lia. }
  exists x. split; [apply get_Done; auto | exact Hx].
Qed.

(** C10. [getNode] returns the cell stored at the position when the index is
    within [0 .. size-1] and [nullptr] for every other index; it never reads
    outside the vector (the outcome is never a fault) and hands the heap
    back unchanged. *)
Theorem getNode_total (t : MinHeap) (index : Z) :
  getNode t index =
    Done (t, if bool_decide (0 <= index < size (heap t))
             then heap t !! Z.to_nat index else None) /\
  (if bool_decide (0 <= index < size (heap t))
   then is_Some (heap t !! Z.to_nat index) else True).
Proof.
  unfold getNode. case_bool_decide as Hr.
  - destruct (get_in_range (heap t) index Hr) as [x [Hg Hx]].
    replace (index >=? 0) with true by lia.
    replace (index <? size (heap t)) with true by lia.
    simpl. rewrite Hg, Hx. simpl. split; [reflexivity | eauto].
  - split; [|exact I].
    destruct (index >=? 0) eqn:E1; destruct (index <? size (heap t)) eqn:E2;
      simpl; try reflexivity.
    exfalso. apply Hr. lia.
Qed.

End MinHeapFacts.

(** ** LinkedList: remove *)

Module LinkedListFacts.
Import LinkedList LinkedListSpec.

Lemma removeLoop_first_match (l1 l2 : list ListNode) (n prev : ListNode)
    (path : list ref) (tl : option ref) :
  Forall (fun m => value m <> value n) l1 ->
  removeLoop prev (l1 ++ n :: l2) (value n) path tl =
    (true, l1 ++ l2, path ++ (id <$> l1 ++ [n]),
     if decide (tl = Some (id n))
     then Some (id (default prev (last l1))) else tl,
     Some (id n)).
Proof.
  revert prev path. induction l1 as [|c l1 IH]; intros prev path Hl1; simpl.
  - rewrite Z.eqb_refl. reflexivity.
  - apply Forall_cons in Hl1 as [Hc Hl1].
    destruct (value c =? value n) eqn:E; [lia|].
    rewrite (IH c (path ++ [id c]) Hl1). rewrite <- app_assoc. simpl.
    repeat f_equal. destruct l1 as [|c' l1]; [reflexivity|].
    simpl. rewrite !last_cons. destruct (last l1); reflexivity.
Qed.

Lemma removeLoop_absent (l : list ListNode) (prev : ListNode) (v : Z)
    (path : list ref) (tl : option ref) :
  Forall (fun m => value m <> v) l ->
  removeLoop prev l v path tl = (false, l, path ++ (id <$> l), tl, None).
Proof.
  revert prev path. induction l as [|c l IH]; intros prev path Hl; simpl.
  - rewrite app_nil_r. reflexivity.
  - apply Forall_cons in Hl as [Hc Hl].
    destruct (value c =? v) eqn:E; [lia|].
    rewrite (IH c (path ++ [id c]) Hl), <- app_assoc. reflexivity.
Qed.

(** C8. On a well-formed list whose first node holding [v] is [n]
    ([l1] before it holds no [v]), [remove] returns [true] and [n] as
    [deletedNode], unlinks exactly [n], appends the nodes from the head up to
    [n] to the trace, leaves the tail pointer on the last remaining node
    ([nullptr] when none remains; the head is the first remaining node) and
    decrements the size.  On 10 -> 20 -> 30, [remove 10] hands back the old
    head, the new head holds 20, the size is 2 and the trace is the old
    head alone. *)
Theorem remove_first_match (t : LinkedList) (v : Z) (path : list ref)
    (l1 l2 : list ListNode) (n : ListNode)
    (Hwf : wellFormed t)
    (Hchain : chain t = l1 ++ n :: l2)
    (Hn : value n = v)
    (Hl1 : Forall (fun m => value m <> v) l1) :
  remove t v path =
    (true,
     mkList (l1 ++ l2) (id <$> last (l1 ++ l2)) (nextNodeId t) (size t - 1),
     path ++ (id <$> l1 ++ [n]),
     Some (id n)) /\
  forall (a b c next : Z) (p : list ref),
    let t3 := mkList [mkListNode 10 a; mkListNode 20 b; mkListNode 30 c]
                (Some c) next 3 in
    remove t3 10 p =
      (true, mkList [mkListNode 20 b; mkListNode 30 c] (Some c) next 2,
       p ++ [a], Some a) /\
    (value <$> getHead (remove t3 10 p).1.1.2) = Some 20.
Proof.
  split; [|intros; split; reflexivity].
  destruct Hwf as [Htail Hnd]. subst v. unfold remove. rewrite Hchain.
  destruct l1 as [|h l1]; simpl.
  - rewrite Z.eqb_refl. repeat f_equal.
    destruct l2; [reflexivity|]. rewrite Htail, Hchain. simpl.
    rewrite last_cons. reflexivity.
  - apply Forall_cons in Hl1 as [Hh Hl1].
    destruct (value h =? value n) eqn:E; [lia|].
    rewrite (removeLoop_first_match l1 l2 n h _ _ Hl1). simpl.
    rewrite <- app_assoc. simpl. repeat f_equal.
    rewrite Htail, Hchain. rewrite Hchain in Hnd.
    change (h :: l1 ++ n :: l2) with ((h :: l1) ++ n :: l2) in *.
    rewrite last_app. simpl (last (n :: l2)). rewrite last_cons.
    change (h :: l1 ++ l2) with ((h :: l1) ++ l2). rewrite last_app.
    destruct (last l2) as [z|] eqn:El2.
    + simpl. rewrite decide_False; [reflexivity|].
      intros [= Hz]. rewrite fmap_app, fmap_cons in Hnd.
      apply NoDup_app in Hnd as (_ & _ & Hnd). apply NoDup_cons in Hnd as [Hnd _].
      apply Hnd. rewrite <- Hz. apply list_elem_of_fmap_2.
      apply last_Some_elem_of. exact El2.
    + simpl. rewrite decide_True by reflexivity.
      rewrite last_cons. destruct (last l1); reflexivity.
Qed.

Lemma remove_first_match_witness :
  remove list123 10 [] =
    (true, mkList [mkListNode 20 1; mkListNode 30 2] (Some 2) 3 2, [0], Some 0).
Proof.
  refine (proj1 (remove_first_match list123 10 [] [] [mkListNode 20 1; mkListNode 30 2]
            (mkListNode 10 0) _ _ _ _)).
  - split; [reflexivity|]. simpl. apply (bool_decide_unpack (NoDup [0; 1; 2])). vm_compute. exact I.
  - reflexivity.
  - reflexivity.
  - constructor.
Defined.

(** An absent value: [remove] reports failure and changes nothing. *)
Lemma remove_absent (t : LinkedList) (v : Z) (path : list ref) :
  Forall (fun m => value m <> v) (chain t) ->
  remove t v path = (false, t, path ++ (id <$> chain t), None).
Proof.
  intros H. unfold remove. destruct t as [ch tl nx sz]; simpl in *.
  destruct ch as [|h rest]; [rewrite app_nil_r; reflexivity|].
  apply Forall_cons in H as [Hh H].
  destruct (value h =? v) eqn:E; [lia|].
  rewrite (removeLoop_absent rest h v _ _ H), <- app_assoc. reflexivity.
Qed.

End LinkedListFacts.

(** ** MinHeap: sifting *)

Module MinHeapSift.
Import MinHeap HeapSpec HeapInv MinHeapFacts.

Ltac zpar :=
  unfold parent, leftChild, rightChild in *;
  Z.to_euclidean_division_equations; lia.

Lemma parent_range (i : Z) : 0 < i -> 0 <= parent i < i.
Proof. intros. zpar. Qed.

Lemma parent_children (i k : Z) :
  0 < i -> parent i = k -> i = leftChild k \/ i = rightChild k.
Proof. intros. zpar. Qed.

Lemma size_length (h : list HeapNode) : size h = Z.of_nat (length h).
Proof. reflexivity. Qed.

Lemma set_Done (h : list HeapNode) (i : Z) (x : HeapNode) :
  0 <= i < size h -> set h i x = Done (<[Z.to_nat i := x]> h).
Proof.
  intros Hi. unfold set.
  replace (0 <=? i) with true by lia. replace (i <? size h) with true by lia.
  reflexivity.
Qed.

Lemma get_insert (h : list HeapNode) (i j : Z) (x : HeapNode) :
  0 <= i < size h ->
  get (<[Z.to_nat i := x]> h) j = if decide (j = i) then Done x else get h j.
Proof.
  intros Hi. unfold get, size. rewrite length_insert.
  destruct (decide (j = i)) as [->|Hne].
  - replace (0 <=? i) with true by lia.
    replace (i <? Z.of_nat (length h)) with true by (unfold size in Hi; lia).
    simpl. rewrite list_lookup_insert_eq; [reflexivity|]. unfold size in Hi. lia.
  - destruct ((0 <=? j) && (j <? Z.of_nat (length h))) eqn:E; [|reflexivity].
    rewrite list_lookup_insert_ne; [reflexivity|]. lia.
Qed.

Lemma insert_swap_perm (l : list HeapNode) (j : nat) (a y : HeapNode) :
  l !! j = Some y -> y :: <[j := a]> l ≡ₚ a :: l.
Proof.
  revert j. induction l as [|b l IH]; intros [|j] H; simpl in *; try discriminate.
  - injection H as ->. apply perm_swap.
  - etrans; [apply perm_swap|]. etrans; [|apply perm_swap].
    apply perm_skip, IH, H.
Qed.

Lemma double_insert_perm (h : list HeapNode) (i j : nat) (x y : HeapNode) :
  h !! i = Some x -> h !! j = Some y -> <[j := x]> (<[i := y]> h) ≡ₚ h.
Proof.
  revert i j. induction h as [|a h IH]; intros [|i] [|j] Hi Hj; simpl in *;
    try discriminate.
  - injection Hi as ->. reflexivity.
  - injection Hi as ->. apply insert_swap_perm. exact Hj.
  - injection Hj as ->. apply insert_swap_perm. exact Hi.
  - f_equiv. apply IH; assumption.
Qed.

(** What [swap] does on two positions of the vector. *)
Lemma swap_spec (h : list HeapNode) (i j : Z) :
  0 <= i < size h -> 0 <= j < size h ->
  exists h', swap h i j = Done h' /\ size h' = size h /\ h' ≡ₚ h /\
    get h' i = get h j /\ get h' j = get h i /\
    (forall k, k <> i -> k <> j -> get h' k = get h k).
Proof.
  intros Hi Hj.
  destruct (get_in_range h i Hi) as [x [Hgx Hx]].
  destruct (get_in_range h j Hj) as [y [Hgy Hy]].
  unfold swap. rewrite Hgx, Hgy. simpl. rewrite (set_Done h i y Hi). simpl.
  assert (Hs : size (<[Z.to_nat i := y]> h) = size h)
    by (unfold size; rewrite length_insert; reflexivity).
  rewrite set_Done by (rewrite Hs; exact Hj).
  eexists. split; [reflexivity|]. split; [|split; [|split; [|split]]].
  - unfold size. rewrite !length_insert. reflexivity.
  - apply double_insert_perm; assumption.
  - rewrite get_insert by (rewrite Hs; exact Hj).
    destruct (decide (i = j)) as [->|Hne]; [congruence|].
    rewrite get_insert by exact Hi. rewrite decide_True by reflexivity. congruence.
  - rewrite get_insert by (rewrite Hs; exact Hj).
    rewrite decide_True by reflexivity. congruence.
  - intros k Hki Hkj. rewrite get_insert by (rewrite Hs; exact Hj).
    rewrite decide_False by exact Hkj. rewrite get_insert by exact Hi.
    rewrite decide_False by exact Hki. reflexivity.
Qed.

Lemma key_get (h : list HeapNode) (i : Z) (x : HeapNode) :
  get h i = Done x -> key h i = value x.
Proof. unfold key. intros ->. reflexivity. Qed.

Lemma key_ext (h h' : list HeapNode) (i j : Z) :
  get h' i = get h j -> key h' i = key h j.
Proof. unfold key. intros ->. reflexivity. Qed.

Lemma climbs_ext (h h' : list HeapNode) (v from : Z) (tr : list Z) :
  (forall j, j < from -> key h' j = key h j) ->
  climbs h' v from tr -> climbs h v from tr.
Proof.
  revert from. induction tr as [|b tr IH]; intros from Hext; simpl; [auto|].
  intros (Hpos & -> & Hgt & Hrest).
  pose proof (parent_range from Hpos) as Hp.
  repeat split; auto.
  - rewrite <- Hext by lia. exact Hgt.
  - apply IH; [|exact Hrest]. intros j Hj. apply Hext. lia.
Qed.

(** One test of the sift-up loop condition. *)
Lemma siftUp_unfold (fuel : nat) (h : list HeapNode) (cur : Z) (path : list Z) :
  0 <= cur < size h ->
  siftUpLoop fuel h cur path =
    if (cur >? 0) && (key h (parent cur) >? key h cur) then
      match fuel with
      | O => OutOfFuel
      | S fuel =>
          bind (swap h cur (parent cur)) (fun h =>
            siftUpLoop fuel h (parent cur) (path ++ [parent cur]))
      end
    else Done (h, cur, path).
Proof.
  intros Hc. destruct (get_in_range h cur Hc) as [x [Hgx _]].
  destruct fuel; simpl; unfold andThen.
  all: destruct (cur >? 0) eqn:E; simpl; [|reflexivity].
  all: destruct (get_in_range h (parent cur)) as [p [Hgp _]];
    [pose proof (parent_range cur); lia|].
  all: rewrite Hgp, Hgx; simpl.
  all: rewrite (key_get _ _ _ Hgp), (key_get _ _ _ Hgx); reflexivity.
Qed.

(** The sift-up loop: it terminates within [cur] iterations without leaving
    the vector, moves the cell upwards along swapped parents, stops at the
    root or under a parent that is not greater, and repairs the heap order
    when only the edge above [cur] was broken. *)
Lemma siftUp_spec (fuel : nat) (h : list HeapNode) (cur : Z) (path : list Z)
    (x : HeapNode) :
  0 <= cur < size h -> (Z.to_nat cur <= fuel)%nat -> get h cur = Done x ->
  exists h' k tr,
    siftUpLoop fuel h cur path = Done (h', k, path ++ tr) /\
    size h' = size h /\ h' ≡ₚ h /\
    climbs h (value x) cur tr /\ last (cur :: tr) = Some k /\
    0 <= k <= cur /\ get h' k = Done x /\
    (k = 0 \/ key h' (parent k) <= value x) /\
    (exceptUp h cur -> heapOrdered h').
Proof.
  revert h cur path. induction fuel as [|fuel IH]; intros h cur path Hc Hf Hx.
  - assert (cur = 0) as -> by lia.
    rewrite siftUp_unfold by exact Hc. simpl.
    exists h, 0, []. rewrite app_nil_r. repeat split; auto; try lia.
    intros [HU _] i Hi. apply HU; lia.
  - rewrite siftUp_unfold by exact Hc.
    destruct ((cur >? 0) && (key h (parent cur) >? key h cur)) eqn:E.
    + apply andb_prop in E as [Epos Egt].
      assert (Hpos : 0 < cur) by lia.
      pose proof (parent_range cur Hpos) as Hp.
      destruct (swap_spec h cur (parent cur)) as (h1 & Hsw & Hsz & Hperm & Hg1 & Hg2 & Hg3);
        [lia | lia |].
      rewrite Hsw. simpl.
      destruct (IH h1 (parent cur) (path ++ [parent cur])) as
        (h' & k & tr & Hrun & Hsz' & Hperm' & Hcl & Hlast & Hk & Hgk & Hstop & Hord).
      { lia. } { lia. } { rewrite Hg2. exact Hx. }
      exists h', k, (parent cur :: tr).
      rewrite Hrun, <- app_assoc. simpl.
      rewrite (key_get _ _ _ Hx) in Egt.
      repeat split; auto; try lia.
      * etrans; eauto.
      * apply (climbs_ext h h1); [|exact Hcl].
        intros j Hj. apply key_ext, Hg3; lia.
      * intros HU. apply Hord. clear Hord IH Hrun.
        destruct HU as [HU1 HU2].
        assert (Hkc : key h1 cur = key h (parent cur)) by (apply key_ext, Hg1).
        assert (Hkp : key h1 (parent cur) = key h cur) by (apply key_ext, Hg2).
        assert (Hko : forall j, j <> cur -> j <> parent cur -> key h1 j = key h j)
          by (intros; apply key_ext, Hg3; assumption).
        rewrite (key_get _ _ _ Hx) in Hkp.
        split.
        -- intros i Hi Hne. rewrite Hsz in Hi.
           destruct (decide (i = cur)) as [->|Hic].
           { rewrite Hkc, Hkp. lia. }
           pose proof (parent_range i ltac:(lia)) as Hpi.
           rewrite (Hko i) by assumption.
           destruct (decide (parent i = parent cur)) as [Hpp|Hpp].
           { rewrite Hpp, Hkp. specialize (HU1 i Hi Hic). rewrite Hpp in HU1. lia. }
           destruct (decide (parent i = cur)) as [Hpc|Hpc].
           { rewrite Hpc, Hkc. apply HU2; auto. }
           rewrite Hko by assumption. apply HU1; auto.
        -- intros Hpp i Hi Hpar. rewrite Hsz in Hi.
           pose proof (parent_range (parent cur) Hpp) as Hppr.
           rewrite (Hko (parent (parent cur))) by lia.
           assert (Hgp : key h (parent (parent cur)) <= key h (parent cur))
             by (apply HU1; lia).
           destruct (decide (i = cur)) as [->|Hic].
           { rewrite Hkc. exact Hgp. }
           pose proof (parent_range i ltac:(lia)) as Hpi.
           rewrite Hko by lia.
           specialize (HU1 i Hi Hic). rewrite Hpar in HU1. lia.
    + exists h, cur, []. rewrite app_nil_r.
      repeat split; auto; try lia.
      * destruct (decide (cur = 0)) as [->|Hne]; [left; reflexivity|right].
        rewrite <- (key_get _ _ _ Hx). apply andb_false_iff in E as [E|E]; lia.
      * intros [HU1 _] i Hi.
        destruct (decide (i = cur)) as [->|Hne]; [|apply HU1; auto].
        apply andb_false_iff in E as [E|E]; lia.
Qed.

End MinHeapSift.

Module MinHeapSiftDown.
Import MinHeap HeapSpec HeapInv MinHeapFacts MinHeapSift.

Lemma pick_cases (h : list HeapNode) (cur : Z) :
  0 <= cur < size h ->
  (pick h cur = cur /\
   forall i, 0 < i < size h -> parent i = cur -> key h cur <= key h i) \/
  (pick h cur <> cur /\ cur < pick h cur < size h /\ parent (pick h cur) = cur /\
   key h (pick h cur) < key h cur /\
   forall i, 0 < i < size h -> parent i = cur -> key h (pick h cur) <= key h i).
Proof.
  intros Hc. unfold pick.
  assert (Hch : forall i, 0 < i -> parent i = cur ->
                          i = leftChild cur \/ i = rightChild cur)
    by (intros; apply parent_children; assumption).
  assert (Hpl : parent (leftChild cur) = cur) by zpar.
  assert (Hpr : parent (rightChild cur) = cur) by zpar.
  assert (Hlr : rightChild cur = leftChild cur + 1) by (unfold leftChild, rightChild; lia).
  assert (Hl : cur < leftChild cur) by (unfold leftChild; lia).
  destruct ((leftChild cur <? size h) && (key h (leftChild cur) <? key h cur)) eqn:E1;
    destruct ((rightChild cur <? size h) && _) eqn:E2.
  all: try apply andb_prop in E1 as [E1a E1b].
  all: try apply andb_prop in E2 as [E2a E2b].
  all: try apply andb_false_iff in E1.
  all: try apply andb_false_iff in E2.
  - right. repeat split; try lia.
    intros i Hi Hp. destruct (Hch i ltac:(lia) Hp) as [-> | ->]; lia.
  - right. repeat split; try lia.
    intros i Hi Hp. destruct (Hch i ltac:(lia) Hp) as [-> | ->]; lia.
  - right. repeat split; try lia.
    intros i Hi Hp. destruct (Hch i ltac:(lia) Hp) as [-> | ->]; lia.
  - left. split; [reflexivity|].
    intros i Hi Hp. destruct (Hch i ltac:(lia) Hp) as [-> | ->]; lia.
Qed.

(** One test of the sift-down loop. *)
Lemma siftDown_unfold (fuel : nat) (h : list HeapNode) (cur : Z) (path : list Z) :
  0 <= cur < size h ->
  siftDownLoop fuel h cur path =
    if negb (pick h cur =? cur) then
      match fuel with
      | O => OutOfFuel
      | S fuel =>
          bind (swap h cur (pick h cur)) (fun h1 =>
            siftDownLoop fuel h1 (pick h cur) (path ++ [pick h cur]))
      end
    else Done (h, cur, path).
Proof.
  intros Hc. destruct (get_in_range h cur Hc) as [x [Hgx _]].
  assert (Htest : forall (s i : Z) (y : HeapNode), 0 <= i -> get h s = Done y ->
    andThen (i <? size h)
      (bind (get h i) (fun l => bind (get h s) (fun s0 => Done (value l <? value s0)))) =
    Done ((i <? size h) && (key h i <? key h s))).
  { intros s i y Hi Hy. unfold andThen. destruct (i <? size h) eqn:E; [|reflexivity].
    destruct (get_in_range h i ltac:(lia)) as [l [Hgl _]].
    rewrite Hgl, Hy. simpl. rewrite (key_get _ _ _ Hgl), (key_get _ _ _ Hy). reflexivity. }
  assert (Hl0 : 0 <= leftChild cur) by (unfold leftChild; lia).
  assert (Hr0 : 0 <= rightChild cur) by (unfold rightChild; lia).
  unfold pick.
  destruct fuel; simpl; rewrite (Htest cur (leftChild cur) x Hl0 Hgx); simpl.
  all: destruct ((leftChild cur <? size h) && (key h (leftChild cur) <? key h cur)) eqn:E1.
  all: try (apply andb_prop in E1 as E1'; destruct E1' as [E1a E1b];
            destruct (get_in_range h (leftChild cur) ltac:(lia)) as [xl [Hgl _]];
            rewrite (Htest (leftChild cur) (rightChild cur) xl Hr0 Hgl); simpl).
  all: try (rewrite (Htest cur (rightChild cur) x Hr0 Hgx); simpl).
  all: destruct ((rightChild cur <? size h) && _) eqn:E2; reflexivity.
Qed.

(** The sift-down loop: it terminates within [size - cur] iterations without
    leaving the vector, permutes the cells, repairs the heap order when only
    the edges below [cur] were broken, and does nothing when no child of
    [cur] is below it. *)
Lemma siftDown_spec (fuel : nat) (h : list HeapNode) (cur : Z) (path : list Z) :
  0 <= cur < size h -> (Z.to_nat (size h - cur) <= fuel)%nat ->
  exists h' k path',
    siftDownLoop fuel h cur path = Done (h', k, path') /\
    size h' = size h /\ h' ≡ₚ h /\ cur <= k < size h /\
    (exceptDown h cur -> heapOrdered h') /\
    ((forall i, 0 < i < size h -> parent i = cur -> key h cur <= key h i) ->
     h' = h /\ k = cur /\ path' = path).
Proof.
  revert h cur path. induction fuel as [|fuel IH]; intros h cur path Hc Hf; [lia|].
  rewrite siftDown_unfold by exact Hc.
  destruct (pick_cases h cur Hc) as [[Hp Hmin] | (Hne & Hr & Hpar & Hlt & Hmin)].
  - rewrite Hp, Z.eqb_refl. simpl.
    exists h, cur, path. repeat split; auto; try lia.
    intros [HD1 _] i Hi.
    destruct (decide (parent i = cur)) as [Hpc|Hpc]; [|apply HD1; auto].
    rewrite Hpc. apply Hmin; auto.
  - replace (pick h cur =? cur) with false by lia. simpl.
    set (s := pick h cur) in *.
    destruct (swap_spec h cur s) as (h1 & Hsw & Hsz & Hperm & Hg1 & Hg2 & Hg3);
      [lia | lia |].
    rewrite Hsw. simpl.
    destruct (IH h1 s (path ++ [s]))
      as (h' & k & path' & Hrun & Hsz' & Hperm' & Hk & Hord & _).
    { lia. } { lia. }
    exists h', k, path'. rewrite Hrun.
    split; [reflexivity|]. split; [lia|]. split; [etrans; eauto|].
    split; [lia|]. split; [|intros H; exfalso; specialize (H s ltac:(lia) Hpar); lia].
    intros [HD1 HD2]. apply Hord. clear Hord IH Hrun.
    assert (Hkc : key h1 cur = key h s) by (apply key_ext, Hg1).
    assert (Hks : key h1 s = key h cur) by (apply key_ext, Hg2).
    assert (Hko : forall j, j <> cur -> j <> s -> key h1 j = key h j)
      by (intros; apply key_ext, Hg3; assumption).
    split.
    + intros i Hi Hps. rewrite Hsz in Hi.
      pose proof (parent_range i ltac:(lia)) as Hpi.
      destruct (decide (i = s)) as [->|His].
      { rewrite Hpar, Hkc, Hks. lia. }
      destruct (decide (parent i = cur)) as [Hpc|Hpc].
      { rewrite Hpc, Hkc, Hko by lia. apply Hmin; auto. }
      destruct (decide (i = cur)) as [->|Hic].
      { rewrite Hkc, Hko by lia. apply HD2; [lia | lia | exact Hpar]. }
      rewrite !Hko by lia. apply HD1; auto.
    + intros _ i Hi Hps. rewrite Hsz in Hi.
      pose proof (parent_range i ltac:(lia)) as Hpi.
      rewrite Hpar, Hkc, Hko by lia.
      rewrite <- Hps. apply HD1; lia.
Qed.

End MinHeapSiftDown.

(** ** MinHeap: the operations *)

Module MinHeapOps.
Import MinHeap HeapSpec HeapInv MinHeapFacts MinHeapSift MinHeapSiftDown.

Lemma size_app (h l : list HeapNode) : size (h ++ l) = size h + size l.
Proof. unfold size. rewrite length_app. lia. Qed.

Lemma get_app_l (h l : list HeapNode) (i : Z) :
  i < size h -> get (h ++ l) i = get h i.
Proof.
  intros Hi. unfold get. rewrite size_app.
  destruct (0 <=? i) eqn:E; [|reflexivity]. simpl.
  replace (i <? size h + size l) with true
    by (symmetry; apply Z.ltb_lt; unfold size in *; lia).
  replace (i <? size h) with true by lia.
  rewrite lookup_app_l; [reflexivity|]. unfold size in Hi. lia.
Qed.

Lemma get_app_r (h : list HeapNode) (x : HeapNode) :
  get (h ++ [x]) (size h) = Done x.
Proof.
  apply get_Done. rewrite size_app. unfold size. simpl. split; [lia|].
  rewrite Nat2Z.id, lookup_app_r, Nat.sub_diag by lia. reflexivity.
Qed.

Lemma key_app_l (h l : list HeapNode) (i : Z) :
  i < size h -> key (h ++ l) i = key h i.
Proof. intros. unfold key. rewrite get_app_l by assumption. reflexivity. Qed.

Lemma heapOrdered_nil : heapOrdered [].
Proof. intros i Hi. unfold size in Hi. simpl in Hi. lia. Qed.

Lemma heapOrdered_prefix (h l : list HeapNode) :
  heapOrdered (h ++ l) -> heapOrdered h.
Proof.
  intros H i Hi. pose proof (parent_range i ltac:(lia)).
  rewrite <- !(key_app_l h l) by lia. apply H. rewrite size_app. unfold size in *. lia.
Qed.

Lemma dense_all (h : list HeapNode) : dense h.
Proof. intros i Hi. destruct (get_in_range h i Hi) as [x [Hx _]]. eauto. Qed.

(** The root is a minimum of an ordered heap. *)
Lemma root_minimal (h : list HeapNode) (i : Z) :
  heapOrdered h -> 0 <= i < size h -> key h 0 <= key h i.
Proof.
  intros Ho. induction (Z.lt_wf 0 i) as [i _ IH]. intros Hi.
  destruct (decide (i = 0)) as [->|Hne]; [lia|].
  pose proof (parent_range i ltac:(lia)) as Hp.
  etrans; [apply (IH (parent i)); lia|]. apply Ho. lia.
Qed.

(** [insert]: what it returns and what its trace is. *)
Lemma insert_spec (t : MinHeap) (v : Z) (siftPath : list Z) :
  let new := mkHeapNode v (nextNodeId t) in
  exists h' k tr,
    insert t v siftPath =
      Done (mkHeap h' (nextNodeId t + 1), siftPath ++ size (heap t) :: tr) /\
    h' ≡ₚ heap t ++ [new] /\
    climbs (heap t ++ [new]) v (size (heap t)) tr /\
    last (size (heap t) :: tr) = Some k /\
    get h' k = Done new /\
    (k = 0 \/ key h' (parent k) <= v) /\
    (heapOrdered (heap t) -> heapOrdered h').
Proof.
  intros new. unfold insert. fold new.
  set (h1 := heap t ++ [new]).
  assert (Hsz : size h1 - 1 = size (heap t)).
  { unfold h1. rewrite size_app. unfold size. simpl. lia. }
  rewrite Hsz.
  destruct (siftUp_spec (length h1) h1 (size (heap t)) (siftPath ++ [size (heap t)]) new)
    as (h' & k & tr & Hrun & Hsz' & Hperm & Hcl & Hlast & Hk & Hgk & Hstop & Hord).
  { unfold size in *. lia. }
  { unfold size in *. lia. }
  { apply get_app_r. }
  exists h', k, tr. rewrite Hrun. simpl. rewrite <- app_assoc. simpl.
  repeat split; auto.
  intros Ho. apply Hord. split.
  - intros i Hi Hne. pose proof (parent_range i ltac:(lia)).
    unfold h1. rewrite !key_app_l by lia. apply Ho. lia.
  - intros _ i Hi Hp. pose proof (parent_range i ltac:(lia)). lia.
Qed.

(** Overwriting position [idx] with the last cell and dropping the last
    position, as [extractMin] and [remove] do. *)
Lemma replace_with_last (h0 : list HeapNode) (b x : HeapNode) (idx : Z) :
  get (h0 ++ [b]) idx = Done x ->
  let h2 := if idx <? size h0 then <[Z.to_nat idx := b]> h0 else h0 in
  back (h0 ++ [b]) = Done b /\
  bind (set (h0 ++ [b]) idx b) pop_back = Done h2 /\
  x :: h2 ≡ₚ h0 ++ [b] /\ size h2 = size h0.
Proof.
  intros Hx h2. apply get_Done in Hx as [Hr Hx].
  rewrite size_app in Hr. unfold size in Hr. simpl in Hr. fold (size h0) in Hr.
  split; [unfold back; rewrite last_snoc; reflexivity|].
  rewrite set_Done by (rewrite size_app; unfold size in *; simpl; lia). simpl.
  unfold h2. destruct (idx <? size h0) eqn:E.
  - assert (Hlt : (Z.to_nat idx < length h0)%nat) by (unfold size in E; lia).
    rewrite insert_app_l by exact Hlt. rewrite lookup_app_l in Hx by exact Hlt.
    unfold pop_back. destruct (<[Z.to_nat idx:=b]> h0 ++ [b]) eqn:E'.
    { destruct (<[Z.to_nat idx:=b]> h0); discriminate. }
    rewrite <- E', removelast_last. split; [reflexivity|]. split.
    + rewrite insert_swap_perm by exact Hx. apply Permutation_cons_append.
    + unfold size. rewrite length_insert. reflexivity.
  - assert (Heq : Z.to_nat idx = length h0) by (unfold size in *; lia).
    rewrite Heq in *. rewrite lookup_app_r, Nat.sub_diag in Hx by lia.
    injection Hx as <-.
    replace (<[length h0:=b]> (h0 ++ [b])) with (h0 ++ [b]).
    2:{ symmetry. apply list_insert_id. rewrite lookup_app_r, Nat.sub_diag by lia.
        reflexivity. }
    unfold pop_back. destruct (h0 ++ [b]) eqn:E'; [destruct h0; discriminate|].
    rewrite <- E', removelast_last. split; [reflexivity|]. split; [|reflexivity].
    apply Permutation_cons_append.
Qed.

(** [extractMin] with the overwrite and the pop taken together. *)
Lemma extractMin_unfold (t : MinHeap) (siftPath : list Z) :
  heap t <> [] ->
  extractMin t siftPath =
    bind (get (heap t) 0) (fun minNode =>
    bind (back (heap t)) (fun b =>
    bind (bind (set (heap t) 0 b) pop_back) (fun h =>
      match h with
      | [] => Done (mkHeap h (nextNodeId t), Some minNode, siftPath ++ [0])
      | _ :: _ =>
          bind (siftDownLoop (length h) h 0 (siftPath ++ [0])) (fun '(h, _, siftPath) =>
            Done (mkHeap h (nextNodeId t), Some minNode, siftPath))
      end))).
Proof.
  intros Hne. unfold extractMin. destruct (heap t) as [|m rest] eqn:E; [congruence|].
  generalize (m :: rest). intros h.
  destruct (get h 0); cbn [bind]; try reflexivity.
  destruct (back h) as [b| |]; cbn [bind]; try reflexivity.
  destruct (set h 0 b); cbn [bind]; reflexivity.
Qed.

(** [extractMin] on a heap with at least one cell. *)
Lemma extractMin_spec (t : MinHeap) (siftPath : list Z) (m : HeapNode)
    (rest : list HeapNode) :
  heap t = m :: rest ->
  exists h' path',
    extractMin t siftPath = Done (mkHeap h' (nextNodeId t), Some m, path') /\
    m :: h' ≡ₚ heap t /\
    (heapOrdered (heap t) -> heapOrdered h').
Proof.
  intros Hh. rewrite extractMin_unfold by (rewrite Hh; discriminate).
  assert (Hg0 : get (heap t) 0 = Done m) by (rewrite Hh; reflexivity).
  destruct (proj2 (last_is_Some (heap t)) ltac:(rewrite Hh; discriminate)) as [b Hb].
  apply last_Some in Hb as [h0 Hh0]. rewrite Hh0 in *. clear Hh0 Hh.
  destruct (replace_with_last h0 b m 0 Hg0) as (Hback & Hset & Hperm & Hsz).
  rewrite Hg0, Hback. cbn [bind]. rewrite Hset. cbn [bind].
  set (h2 := if 0 <? size h0 then <[Z.to_nat 0:=b]> h0 else h0) in *.
  destruct h2 as [|c h2'] eqn:Eh2.
  - eexists _, _. split; [reflexivity|]. split; [exact Hperm|].
    intros _. apply heapOrdered_nil.
  - rewrite <- Eh2 in *.
    destruct (siftDown_spec (length h2) h2 0 (siftPath ++ [0]))
      as (h' & k & path' & Hrun & Hsz' & Hperm' & Hk & Hord & _).
    { rewrite Eh2. unfold size. simpl. lia. }
    { unfold size. lia. }
    rewrite Hrun. simpl.
    eexists _, _. split; [reflexivity|]. split.
    { rewrite Hperm'. exact Hperm. }
    intros Ho. apply Hord. split; [|lia].
    intros i Hi Hp. pose proof (parent_range i ltac:(lia)) as Hpi.
    assert (Hpos : 0 < size h0) by (rewrite <- Hsz; lia).
    assert (Hkey : forall j, 0 < j < size h0 -> key h2 j = key (h0 ++ [b]) j).
    { intros j Hj. unfold h2. replace (0 <? size h0) with true by lia.
      unfold key. rewrite get_insert by lia. rewrite decide_False by lia.
      rewrite get_app_l by lia. reflexivity. }
    rewrite !Hkey by lia. apply Ho. rewrite size_app. unfold size in *. simpl. lia.
Qed.

Lemma extractMin_empty (t : MinHeap) (siftPath : list Z) :
  heap t = [] -> extractMin t siftPath = Done (t, None, siftPath).
Proof. intros H. unfold extractMin. rewrite H. reflexivity. Qed.

End MinHeapOps.

Module MinHeapRemove.
Import MinHeap HeapSpec HeapInv MinHeapFacts MinHeapSift MinHeapSiftDown MinHeapOps.

Lemma findFrom_range (h : list HeapNode) (i v : Z) :
  0 <= i -> findFrom h i v = -1 \/ i <= findFrom h i v < i + size h.
Proof.
  revert i. induction h as [|c h IH]; intros i Hi; simpl; [left; reflexivity|].
  unfold size in *. simpl length.
  destruct (value c =? v); [right; lia|].
  destruct (IH (i + 1) ltac:(lia)) as [H|H]; [left; exact H | right; lia].
Qed.

(** [remove] once the value was found at [index]. *)
Lemma remove_unfold (t : MinHeap) (v : Z) (siftPath : list Z) :
  findFrom (heap t) 0 v <> -1 ->
  remove t v siftPath =
    let index := findFrom (heap t) 0 v in
    bind (get (heap t) index) (fun _ =>
    bind (back (heap t)) (fun b =>
    bind (bind (set (heap t) index b) pop_back) (fun h =>
      if index <? size h then
        bind (siftDownLoop (length h) h index (siftPath ++ [index]))
          (fun '(h, current, siftPath) =>
        bind (siftUpLoop (length h) h current siftPath) (fun '(h, _, siftPath) =>
          Done (true, mkHeap h (nextNodeId t), siftPath)))
      else Done (true, mkHeap h (nextNodeId t), siftPath ++ [index])))).
Proof.
  intros Hne. unfold remove.
  replace (findFrom (heap t) 0 v =? -1) with false by lia. cbv zeta.
  destruct (get (heap t) _); cbn [bind]; try reflexivity.
  destruct (back (heap t)) as [b| |]; cbn [bind]; try reflexivity.
  destruct (set (heap t) _ b); cbn [bind]; reflexivity.
Qed.

(** [remove] keeps the heap order, found or not. *)
Lemma remove_spec (t : MinHeap) (v : Z) (siftPath : list Z) :
  heapOrdered (heap t) ->
  exists ok h' path',
    remove t v siftPath = Done (ok, mkHeap h' (nextNodeId t), path') /\ heapOrdered h'.
Proof.
  intros Ho. destruct (decide (findFrom (heap t) 0 v = -1)) as [Hnf|Hf].
  - unfold remove. rewrite Hnf. simpl. destruct t as [h n]. simpl in *.
    exists false, h, siftPath. split; [reflexivity | exact Ho].
  - rewrite remove_unfold by exact Hf. cbv zeta.
    set (idx := findFrom (heap t) 0 v) in *.
    assert (Hidx : 0 <= idx < size (heap t)).
    { destruct (findFrom_range (heap t) 0 v ltac:(lia)) as [H|H]; [contradiction|].
      fold idx in H. lia. }
    destruct (get_in_range (heap t) idx Hidx) as [x [Hgx _]].
    destruct (proj2 (last_is_Some (heap t))) as [b Hb].
    { intros E. rewrite E in Hidx. unfold size in Hidx. simpl in Hidx. lia. }
    apply last_Some in Hb as [h0 Hh0]. rewrite Hh0 in *.
    destruct (replace_with_last h0 b x idx Hgx) as (Hback & Hset & _ & Hsz).
    rewrite Hgx, Hback. cbn [bind]. rewrite Hset. cbn [bind].
    rewrite size_app in Hidx. unfold size in Hidx at 2. simpl in Hidx.
    rewrite Hsz.
    destruct (idx <? size h0) eqn:E; cbv zeta in *.
    2:{ eexists _, _, _. split; [reflexivity|]. eapply heapOrdered_prefix, Ho. }
    set (h2 := <[Z.to_nat idx:=b]> h0) in *.
    assert (Hk2 : forall j, j < size h0 ->
              key h2 j = if decide (j = idx) then value b else key (h0 ++ [b]) j).
    { intros j Hj. unfold key, h2. rewrite get_insert by lia.
      destruct (decide (j = idx)); [reflexivity|]. rewrite get_app_l by lia.
      reflexivity. }
    assert (Ho' : forall i, 0 < i < size h0 ->
              key (h0 ++ [b]) (parent i) <= key (h0 ++ [b]) i).
    { intros i Hi. apply Ho. rewrite size_app. unfold size at 2. simpl. lia. }
    assert (Hchild : forall i, 0 < i < size h0 -> parent i = idx -> 0 < idx ->
              key (h0 ++ [b]) (parent idx) <= key (h0 ++ [b]) i).
    { intros i Hi Hp Hpos. etrans; [apply Ho'; lia|]. rewrite <- Hp. apply Ho'; lia. }
    destruct (siftDown_spec (length h2) h2 idx (siftPath ++ [idx]))
      as (h3 & k & p3 & Hrun & Hsz3 & _ & Hk & Hord & Hnoop).
    { lia. } { unfold size. lia. }
    rewrite Hrun. cbn [bind].
    destruct (get_in_range h3 k ltac:(lia)) as [y [Hgy _]].
    destruct (siftUp_spec (length h3) h3 k p3 y)
      as (h4 & k4 & tr & Hrun4 & _ & _ & _ & _ & _ & _ & _ & Hord4).
    { lia. } { unfold size in *. lia. } { exact Hgy. }
    rewrite Hrun4. cbn [bind].
    eexists _, _, _. split; [reflexivity|]. apply Hord4.
    destruct (decide (0 < idx /\ value b < key h2 (parent idx))) as [[Hpos Hlt]|Hge].
    + (* the replacement is below its parent: nothing sinks, the cell swims *)
      pose proof (parent_range idx Hpos) as Hpr.
      rewrite Hk2, decide_False in Hlt by lia.
      destruct Hnoop as (-> & -> & ->).
      { intros i Hi Hp. pose proof (parent_range i ltac:(lia)).
        rewrite !Hk2 by lia. rewrite decide_True, decide_False by lia.
        specialize (Hchild i ltac:(lia) Hp Hpos). lia. }
      split.
      * intros i Hi Hne. pose proof (parent_range i ltac:(lia)).
        rewrite !Hk2 by lia. rewrite (decide_False (P := i = idx)) by exact Hne.
        destruct (decide (parent i = idx)) as [Hp|Hp]; [|apply Ho'; lia].
        specialize (Hchild i ltac:(lia) Hp Hpos). lia.
      * intros _ i Hi Hp. pose proof (parent_range i ltac:(lia)).
        rewrite !Hk2 by lia. rewrite !decide_False by lia.
        apply Hchild; auto; lia.
    + (* the replacement is not below its parent: sinking restores the order *)
      assert (HO3 : heapOrdered h3).
      { apply Hord. split.
        - intros i Hi Hp. pose proof (parent_range i ltac:(lia)).
          rewrite !Hk2 by lia. rewrite (decide_False (P := parent i = idx)) by exact Hp.
          destruct (decide (i = idx)) as [->|Hne]; [|apply Ho'; lia].
          destruct (decide (value b < key h2 (parent idx))) as [Hlt|Hlt].
          + exfalso. apply Hge. split; [lia | exact Hlt].
          + rewrite Hk2, decide_False in Hlt by lia. lia.
        - intros Hpos i Hi Hp. pose proof (parent_range i ltac:(lia)).
          pose proof (parent_range idx Hpos).
          rewrite !Hk2 by lia. rewrite !decide_False by lia.
          apply Hchild; auto; lia. }
      split.
      * intros i Hi _. apply HO3. exact Hi.
      * intros Hpos i Hi Hp. pose proof (parent_range k Hpos).
        etrans; [apply HO3; lia|]. rewrite <- Hp. apply HO3. exact Hi.
Qed.

(** Repeated [extractMin] on an ordered heap: the values come out in
    non-decreasing order and are those of the heap. *)
Lemma drain_spec (fuel : nat) (t : MinHeap) :
  (length (heap t) <= fuel)%nat -> heapOrdered (heap t) ->
  exists out, drain fuel t = Done out /\ Sorted Z.le out /\ out ≡ₚ value <$> heap t.
Proof.
  revert t. induction fuel as [|fuel IH]; intros t Hlen Ho.
  - destruct (heap t) eqn:E; [|simpl in Hlen; lia].
    exists []. simpl. rewrite (extractMin_empty t [] E). simpl. auto.
  - destruct (heap t) as [|m rest] eqn:E.
    + exists []. simpl. rewrite (extractMin_empty t [] E). simpl. auto.
    + destruct (extractMin_spec t [] m rest E) as (h' & p & Hrun & Hperm & Hord).
      rewrite E in Hperm, Hord. specialize (Hord Ho).
      assert (Hlen' : (length h' <= fuel)%nat).
      { apply Permutation_length in Hperm. simpl in *. lia. }
      destruct (IH (mkHeap h' (nextNodeId t)) Hlen' Hord) as (out & Hd & Hs & Hp).
      exists (value m :: out). simpl. rewrite Hrun. cbn [bind]. rewrite Hd. cbn [bind].
      simpl in Hp. split; [reflexivity|]. split.
      * constructor; [exact Hs|]. destruct out as [|o out]; constructor.
        assert (Hin : o ∈ value <$> m :: rest).
        { rewrite <- Hperm, fmap_cons, <- Hp. right. left. }
        apply list_elem_of_fmap in Hin as (c & -> & Hc).
        apply list_elem_of_lookup in Hc as [i Hi].
        assert (Hr : 0 <= Z.of_nat i < size (m :: rest)).
        { apply lookup_lt_Some in Hi. unfold size. lia. }
        pose proof (root_minimal (m :: rest) (Z.of_nat i) Ho Hr) as Hmin.
        unfold key in Hmin at 1. change (get (m :: rest) 0) with (Done m) in Hmin.
        rewrite (key_get _ _ c) in Hmin; [exact Hmin|].
        apply get_Done. split; [exact Hr|]. rewrite Nat2Z.id. exact Hi.
      * change (value m :: out ≡ₚ value <$> m :: rest).
        rewrite <- Hperm, fmap_cons, Hp. reflexivity.
Qed.

End MinHeapRemove.

(** ** MinHeap: the claims *)

Module MinHeapClaims.
Import MinHeap HeapSpec HeapInv MinHeapFacts MinHeapSift MinHeapSiftDown MinHeapOps
  MinHeapRemove.

(** C7. The trace of [insert] starts with the index at which the value was
    appended (the old size); every later entry is the parent of the entry
    before it, reached by a swap over a greater value; the trace ends at the
    index where the new cell rests, which is 0 or has a parent whose value is
    not above the inserted one.  The call never faults and never runs out of
    fuel. *)
Theorem insert_trace (t : MinHeap) (v : Z) (siftPath : list Z) :
  let new := mkHeapNode v (nextNodeId t) in
  exists t' tr k,
    insert t v siftPath = Done (t', siftPath ++ size (heap t) :: tr) /\
    climbs (heap t ++ [new]) v (size (heap t)) tr /\
    last (size (heap t) :: tr) = Some k /\
    get (heap t') k = Done new /\
    (k = 0 \/ key (heap t') (parent k) <= v).
Proof.
  intros new.
  destruct (insert_spec t v siftPath) as (h' & k & tr & Hrun & _ & Hcl & Hlast & Hg & Hstop & _).
  exists (mkHeap h' (nextNodeId t + 1)), tr, k. auto.
Qed.

Lemma step_ordered (t : MinHeap) (o : op) :
  heapOrdered (heap t) -> exists t', step t o = Done t' /\ heapOrdered (heap t').
Proof.
  intros Ho. destruct o as [v| |v]; simpl.
  - destruct (insert_spec t v []) as (h' & k & tr & Hrun & _ & _ & _ & _ & _ & Hord).
    rewrite Hrun. cbn [bind]. eexists. split; [reflexivity|]. apply Hord, Ho.
  - destruct (heap t) as [|m rest] eqn:E.
    + rewrite (extractMin_empty t [] E). cbn [bind]. eexists. split; [reflexivity|].
      rewrite E. apply heapOrdered_nil.
    + destruct (extractMin_spec t [] m rest E) as (h' & p & Hrun & _ & Hord).
      rewrite Hrun. cbn [bind]. eexists. split; [reflexivity|].
      apply Hord. rewrite E. exact Ho.
  - destruct (remove_spec t v [] Ho) as (ok & h' & p & Hrun & Hord).
    rewrite Hrun. cbn [bind]. eexists. split; [reflexivity | exact Hord].
Qed.

Lemma run_ordered (ops : list op) (t : MinHeap) :
  heapOrdered (heap t) -> exists t', run t ops = Done t' /\ heapOrdered (heap t').
Proof.
  revert t. induction ops as [|o ops IH]; intros t Ho; simpl.
  - eauto.
  - destruct (step_ordered t o Ho) as (t1 & Hs & Ho1). rewrite Hs. cbn [bind].
    apply IH, Ho1.
Qed.

Lemma run_inserts (vs : list Z) (t : MinHeap) :
  exists t', run t (Insert <$> vs) = Done t' /\
             value <$> heap t' ≡ₚ (value <$> heap t) ++ vs.
Proof.
  revert t. induction vs as [|v vs IH]; intros t; simpl.
  - exists t. rewrite app_nil_r. auto.
  - destruct (insert_spec t v []) as (h' & k & tr & Hrun & Hperm & _).
    rewrite Hrun. cbn [bind].
    destruct (IH (mkHeap h' (nextNodeId t + 1))) as (t' & Hr & Hp).
    exists t'. split; [exact Hr|]. rewrite Hp. simpl. rewrite Hperm, fmap_app. simpl.
    rewrite <- app_assoc. reflexivity.
Qed.

(** C2. From the empty heap, every sequence of [insert], [extractMin] and
    [remove] runs to completion and leaves a heap in which no cell is below
    its parent ([parent i = (i-1)/2]) and every index below the size holds a
    cell; and after any sequence of inserts, calling [extractMin] until the
    heap is empty yields the inserted values in non-decreasing order. *)
Theorem heap_order_invariant :
  (forall ops : list op,
     exists t, run empty ops = Done t /\ heapOrdered (heap t) /\ dense (heap t)) /\
  (forall vs : list Z,
     exists t out,
       run empty (Insert <$> vs) = Done t /\
       drain (length (heap t)) t = Done out /\
       Sorted Z.le out /\ out ≡ₚ vs).
Proof.
  split.
  - intros ops. destruct (run_ordered ops empty heapOrdered_nil) as (t & Hr & Ho).
    exists t. split; [exact Hr|]. split; [exact Ho | apply dense_all].
  - intros vs. destruct (run_inserts vs empty) as (t & Hr & Hp).
    destruct (run_ordered (Insert <$> vs) empty heapOrdered_nil) as (t' & Hr' & Ho).
    rewrite Hr in Hr'. injection Hr' as <-.
    destruct (drain_spec (length (heap t)) t (le_n _) Ho) as (out & Hd & Hs & Hpo).
    exists t, out. repeat split; auto. rewrite Hpo, Hp. reflexivity.
Qed.

(** Scenario 4: inserting 5, 3, 8, 1, 4 gives the array 1, 3, 8, 5, 4, and
    draining it yields 1, 3, 4, 5, 8. *)
Example heap_scenario :
  exists t, run empty (Insert <$> [5; 3; 8; 1; 4]) = Done t /\
            value <$> heap t = [1; 3; 8; 5; 4] /\
            drain 5 t = Done [1; 3; 4; 5; 8].
Proof. eexists. vm_compute. repeat split. Qed.

End MinHeapClaims.

(** ** AVL: balance *)

Module AVLBalance.
Import AVLTree AVLSpec AVLInv.

Lemma realHeight_nonneg (t : AVLNode) : 0 <= realHeight t.
Proof. induction t; simpl; lia. Qed.

Lemma getHeight_real (t : AVLNode) : balanced t -> getHeight t = realHeight t.
Proof. destruct t; simpl; [reflexivity|]. intros [-> _]. reflexivity. Qed.

Lemma realHeight_Null (t : AVLNode) : realHeight t = 0 -> t = Null.
Proof.
  destruct t as [|v l r h i]; [reflexivity|]. simpl.
  pose proof (realHeight_nonneg l). pose proof (realHeight_nonneg r). lia.
Qed.

Ltac heights :=
  simpl in *;
  repeat match goal with H : _ /\ _ |- _ => destruct H end;
  subst;
  repeat match goal with
         | H : balanced ?t |- context [getHeight ?t] =>
             rewrite (getHeight_real t H)
         end.

Ltac pos t := pose proof (realHeight_nonneg t).

(** The rebalancing step of [insertHelper]: with subtrees that are balanced
    and at most two apart, the taller one (if two apart) having grown on the
    side of [value], the step returns without fault a balanced tree; it is the
    node itself when no rotation was due, and it has the height of the taller
    subtree otherwise. *)
Lemma insertRebalance_spec (nv : Z) (l r : AVLNode) (h i v : Z) (a : refs) :
  balanced l -> balanced r ->
  -2 <= realHeight l - realHeight r <= 2 ->
  (realHeight l - realHeight r = 2 -> grew l v) ->
  (realHeight l - realHeight r = -2 -> grew r v) ->
  exists t' a',
    insertRebalance (Node nv l r h i) v a = Done (t', a') /\ balanced t' /\
    ((-1 <= realHeight l - realHeight r <= 1 /\
      t' = Node nv l r (1 + Z.max (realHeight l) (realHeight r)) i /\ a' = a) \/
     (realHeight t' = Z.max (realHeight l) (realHeight r) /\
      (realHeight l - realHeight r = 2 \/ realHeight l - realHeight r = -2))).
Proof.
  intros Hl Hr Hd Hgl Hgr. unfold insertRebalance.
  cbn [updateHeight getBalance]. rewrite (getHeight_real l Hl), (getHeight_real r Hr).
  destruct (decide (realHeight l - realHeight r = 2)) as [E2|N2].
  - (* left-heavy *)
    specialize (Hgl E2). destruct l as [|lv ll lr lh li]; [contradiction|].
    replace (realHeight (Node lv ll lr lh li) - realHeight r >? 1) with true by lia.
    cbn [andThen leftOf valueOf bind]. simpl in Hgl.
    destruct (Z.ltb_spec v lv) as [Hlt|Hge].
    + (* left-left: single right rotation *)
      destruct Hgl as [[_ Hgl]|[? _]]; [|lia].
      cbn -[Z.max realHeight]. eexists _, _. split; [reflexivity|].
      pos ll; pos lr; pos r. heights.
      split; [repeat split; auto; lia | right; lia].
    + destruct Hgl as [[? _]|[Hgt Hgl]]; [lia|].
      replace (realHeight (Node lv ll lr lh li) - realHeight r <? -1) with false by lia.
      replace (v >? lv) with true by lia.
      destruct lr as [|xv A B xh xi]; [simpl in Hgl; pos ll; lia|].
      cbn -[Z.max realHeight]. eexists _, _. split; [reflexivity|].
      pos ll; pos A; pos B; pos r. heights.
      split; [repeat split; auto; lia | right; lia].
  - destruct (decide (realHeight l - realHeight r = -2)) as [E2|N2'].
    + (* right-heavy *)
      specialize (Hgr E2). destruct r as [|rv rl rr rh ri]; [contradiction|].
      replace (realHeight l - realHeight (Node rv rl rr rh ri) >? 1) with false by lia.
      replace (realHeight l - realHeight (Node rv rl rr rh ri) <? -1) with true by lia.
      cbn [andThen rightOf valueOf bind]. simpl in Hgr.
      destruct (Z.ltb_spec rv v) as [Hlt|Hge].
      * destruct Hgr as [[? _]|[_ Hgr]]; [lia|].
        replace (v >? rv) with true by lia.
        cbn -[Z.max realHeight]. eexists _, _. split; [reflexivity|].
        pos l; pos rl; pos rr. heights.
        split; [repeat split; auto; lia | right; lia].
      * destruct Hgr as [[Hlt Hgr]|[? _]]; [|lia].
        replace (v >? rv) with false by lia.
        replace (v <? rv) with true by lia.
        destruct rl as [|xv A B xh xi]; [simpl in Hgr; pos rr; lia|].
        cbn -[Z.max realHeight]. eexists _, _. split; [reflexivity|].
        pos l; pos A; pos B; pos rr. heights.
        split; [repeat split; auto; lia | right; lia].
    + replace (realHeight l - realHeight r >? 1) with false by lia.
      replace (realHeight l - realHeight r <? -1) with false by lia.
      cbn [andThen bind]. eexists _, _. split; [reflexivity|].
      heights. simpl. split; [repeat split; auto; lia | left].
      repeat split; auto; lia.
Qed.

End AVLBalance.

Module AVLBalance2.
Import AVLTree AVLSpec AVLInv AVLBalance.

(** [insertHelper] on a balanced subtree: no fault, a balanced result, and
    the height unchanged or one more; when it is one more and the subtree
    was not empty, the value's side of the new root is the taller one. *)
Lemma insertHelper_spec (t : AVLNode) (v : Z) (a : refs) (n : Z) :
  balanced t ->
  exists t' a' n',
    insertHelper t v a n = Done (t', a', n') /\ balanced t' /\
    (realHeight t' = realHeight t \/
     (realHeight t' = realHeight t + 1 /\ (t = Null \/ grew t' v))).
Proof.
  revert a n. induction t as [|nv l IHl r IHr h i]; intros a n Hb.
  - simpl. eexists _, _, _. split; [reflexivity|]. simpl.
    split; [repeat split; lia | right; split; [lia | left; reflexivity]].
  - simpl in Hb. destruct Hb as (Hh & Hd & Hbl & Hbr). cbn [insertHelper].
    destruct (Z.ltb_spec v nv) as [Hlt|Hge].
    + destruct (IHl (visit i a) n Hbl) as (l' & a1 & n1 & Hrun & Hbl' & Hgrow).
      rewrite Hrun. cbn [bind].
      destruct (insertRebalance_spec nv l' r h i v a1 Hbl' Hbr) as
        (t' & a' & Hreb & Hbt & Hcase).
      { lia. }
      { intros E. destruct Hgrow as [?|[? [->|Hg]]]; [lia| |exact Hg].
        simpl in *. pose proof (realHeight_nonneg r). lia. }
      { intros E. lia. }
      rewrite Hreb. cbn [bind]. eexists _, _, _. split; [reflexivity|].
      split; [exact Hbt|]. cbn [realHeight].
      destruct Hcase as [(Hd' & -> & _)|[Hrt Hrot]].
      * cbn [realHeight grew].
        destruct (decide (realHeight l' = realHeight l)) as [E|E]; [left; lia|].
        destruct (decide (realHeight r < realHeight l')); [|left; lia].
        right. split; [lia|]. right. left. split; [exact Hlt | lia].
      * left. lia.
    + destruct (Z.ltb_spec nv v) as [Hgt|Hle].
      * replace (v >? nv) with true by lia.
        destruct (IHr (visit i a) n Hbr) as (r' & a1 & n1 & Hrun & Hbr' & Hgrow).
        rewrite Hrun. cbn [bind].
        destruct (insertRebalance_spec nv l r' h i v a1 Hbl Hbr') as
          (t' & a' & Hreb & Hbt & Hcase).
        { lia. }
        { intros E. lia. }
        { intros E. destruct Hgrow as [?|[? [->|Hg]]]; [lia| |exact Hg].
          simpl in *. pose proof (realHeight_nonneg l). lia. }
        rewrite Hreb. cbn [bind]. eexists _, _, _. split; [reflexivity|].
        split; [exact Hbt|]. cbn [realHeight].
        destruct Hcase as [(Hd' & -> & _)|[Hrt Hrot]].
        -- cbn [realHeight grew].
           destruct (decide (realHeight r' = realHeight r)) as [E|E]; [left; lia|].
           destruct (decide (realHeight l < realHeight r')); [|left; lia].
           right. split; [lia|]. right. right. split; [exact Hgt | lia].
        -- left. lia.
      * replace (v >? nv) with false by lia.
        eexists _, _, _. split; [reflexivity|]. simpl. auto.
Qed.

(** The rebalancing step of [deleteHelper]: with balanced subtrees at most
    two apart it returns without fault a balanced tree, the node itself when
    no rotation was due, and at most one shorter than the updated node
    otherwise. *)
Lemma deleteRebalance_spec (nv : Z) (l r : AVLNode) (h i : Z) (a : refs) :
  balanced l -> balanced r ->
  -2 <= realHeight l - realHeight r <= 2 ->
  exists t' a',
    deleteRebalance (Node nv l r h i) a = Done (t', a') /\ balanced t' /\
    ((-1 <= realHeight l - realHeight r <= 1 /\
      t' = Node nv l r (1 + Z.max (realHeight l) (realHeight r)) i /\ a' = a) \/
     (Z.max (realHeight l) (realHeight r) <= realHeight t'
        <= 1 + Z.max (realHeight l) (realHeight r) /\
      (realHeight l - realHeight r = 2 \/ realHeight l - realHeight r = -2))).
Proof.
  intros Hl Hr Hd. unfold deleteRebalance.
  cbn [updateHeight getBalance]. rewrite (getHeight_real l Hl), (getHeight_real r Hr).
  destruct (decide (realHeight l - realHeight r = 2)) as [E2|N2].
  - destruct l as [|lv ll lr lh li]; [simpl in E2; pos r; lia|].
    replace (realHeight (Node lv ll lr lh li) - realHeight r >? 1) with true by lia.
    cbn [andThen leftOf bind getBalance].
    assert (Hbll : balanced ll) by (simpl in Hl; tauto).
    assert (Hblr : balanced lr) by (simpl in Hl; tauto).
    rewrite (getHeight_real ll Hbll), (getHeight_real lr Hblr).
    destruct (Z.leb_spec 0 (realHeight ll - realHeight lr)) as [Hle|Hlt].
    + replace (realHeight ll - realHeight lr >=? 0) with true by lia.
      cbn -[Z.max realHeight]. eexists _, _. split; [reflexivity|].
      pos ll; pos lr; pos r. heights.
      split; [repeat split; auto; lia | right; lia].
    + replace (realHeight ll - realHeight lr >=? 0) with false by lia.
      replace (realHeight ll - realHeight lr <? 0) with true by lia.
      destruct lr as [|xv A B xh xi]; [simpl in Hlt; pos ll; lia|].
      cbn -[Z.max realHeight]. eexists _, _. split; [reflexivity|].
      pos ll; pos A; pos B; pos r. heights.
      split; [repeat split; auto; lia | right; lia].
  - destruct (decide (realHeight l - realHeight r = -2)) as [E2|N2'].
    + destruct r as [|rv rl rr rh ri]; [simpl in E2; pos l; lia|].
      replace (realHeight l - realHeight (Node rv rl rr rh ri) >? 1) with false by lia.
      replace (realHeight l - realHeight (Node rv rl rr rh ri) <? -1) with true by lia.
      cbn [andThen rightOf bind getBalance].
      assert (Hbrl : balanced rl) by (simpl in Hr; tauto).
      assert (Hbrr : balanced rr) by (simpl in Hr; tauto).
      rewrite (getHeight_real rl Hbrl), (getHeight_real rr Hbrr).
      destruct (Z.leb_spec (realHeight rl - realHeight rr) 0) as [Hle|Hlt].
      * cbn -[Z.max realHeight]. eexists _, _. split; [reflexivity|].
        pos l; pos rl; pos rr. heights.
        split; [repeat split; auto; lia | right; lia].
      * replace (realHeight rl - realHeight rr >? 0) with true by lia.
        destruct rl as [|xv A B xh xi]; [simpl in Hlt; pos rr; lia|].
        cbn -[Z.max realHeight]. eexists _, _. split; [reflexivity|].
        pos l; pos A; pos B; pos rr. heights.
        split; [repeat split; auto; lia | right; lia].
    + replace (realHeight l - realHeight r >? 1) with false by lia.
      replace (realHeight l - realHeight r <? -1) with false by lia.
      cbn [andThen bind]. eexists _, _. split; [reflexivity|].
      heights. split; [repeat split; auto; lia | left].
      repeat split; auto; lia.
Qed.

Lemma findMin_value (t : AVLNode) :
  t <> Null -> exists tv, valueOf (findMin t) = Done tv.
Proof.
  induction t as [|nv l IHl r _ h i]; [congruence|]. intros _. simpl.
  destruct l as [|lv ll lr lh li]; [simpl; eauto|].
  apply IHl. discriminate.
Qed.

(** [deleteHelper] on a balanced subtree: no fault, a balanced result, and
    the height unchanged or one less. *)
Lemma deleteHelper_spec (t : AVLNode) (v : Z) (a : refs) :
  balanced t ->
  exists t' a',
    deleteHelper t v a = Done (t', a') /\ balanced t' /\
    realHeight t - 1 <= realHeight t' <= realHeight t.
Proof.
  revert v a. induction t as [|nv l IHl r IHr h i]; intros v a Hb.
  - simpl. eexists _, _. split; [reflexivity|]. simpl. split; [exact I | lia].
  - simpl in Hb. destruct Hb as (Hh & Hd & Hbl & Hbr). cbn [deleteHelper].
    assert (Hfin : forall l' r' a1 tv,
      balanced l' -> balanced r' ->
      realHeight l - 1 <= realHeight l' <= realHeight l ->
      realHeight r - 1 <= realHeight r' <= realHeight r ->
      (realHeight l' = realHeight l \/ realHeight r' = realHeight r) ->
      exists t' a',
        deleteRebalance (Node tv l' r' h i) a1 = Done (t', a') /\ balanced t' /\
        realHeight (Node nv l r h i) - 1 <= realHeight t' <= realHeight (Node nv l r h i)).
    { intros l' r' a1 tv Hbl' Hbr' Hhl Hhr Hone.
      destruct (deleteRebalance_spec tv l' r' h i a1 Hbl' Hbr') as
        (t' & a' & Hreb & Hbt & Hcase); [lia|].
      exists t', a'. split; [exact Hreb|]. split; [exact Hbt|]. cbn [realHeight].
      destruct Hcase as [(Hd' & -> & _)|[Hrt Hrot]]; [cbn [realHeight]|]; lia. }
    destruct (Z.ltb_spec v nv) as [Hlt|Hge].
    + destruct (IHl v (visit i a) Hbl) as (l' & a1 & Hrun & Hbl' & Hhl).
      rewrite Hrun. cbn [bind]. apply Hfin; auto; lia.
    + destruct (Z.ltb_spec nv v) as [Hgt|Hle].
      * replace (v >? nv) with true by lia.
        destruct (IHr v (visit i a) Hbr) as (r' & a1 & Hrun & Hbr' & Hhr).
        rewrite Hrun. cbn [bind]. apply Hfin; auto; lia.
      * replace (v >? nv) with false by lia.
        destruct l as [|lv ll lr lh li].
        { eexists _, _. split; [reflexivity|]. split; [exact Hbr|].
          simpl in *. pos r. lia. }
        destruct r as [|rv rl rr rh ri].
        { eexists _, _. split; [reflexivity|]. split; [exact Hbl|].
          cbn [realHeight] in *. pos ll. pos lr. lia. }
        destruct (findMin_value (Node rv rl rr rh ri)) as [tv Htv]; [discriminate|].
        rewrite Htv. cbn [bind].
        destruct (IHr tv (found i (visit i a)) Hbr) as (r' & a1 & Hrun & Hbr' & Hhr).
        rewrite Hrun. cbn [bind]. apply Hfin; auto; lia.
Qed.

Lemma step_balanced (t : AVLTree) (o : op) :
  balanced (root t) -> exists t', step t o = Done t' /\ balanced (root t').
Proof.
  intros Hb. destruct o as [v|v|v|]; simpl.
  - unfold insert.
    destruct (insertHelper_spec (root t) v (mkRefs true [] None NONE []) (nextNodeId t) Hb)
      as (t' & a' & n' & Hrun & Hbt & _).
    rewrite Hrun. cbn [bind]. eexists. split; [reflexivity | exact Hbt].
  - unfold remove.
    destruct (deleteHelper_spec (root t) v (mkRefs true [] None NONE []) Hb)
      as (t' & a' & Hrun & Hbt & _).
    rewrite Hrun. cbn [bind]. eexists. split; [reflexivity | exact Hbt].
  - unfold search. destruct (searchHelper (root t) v []).
    eexists. split; [reflexivity | exact Hb].
  - eexists. split; [reflexivity | exact I].
Qed.

(** C1. From the empty tree, every sequence of [insert], [remove], [search]
    and [clear] runs to completion (no null pointer is followed) and leaves a
    tree in which every cached height is the recomputed height of its subtree
    (0 for [nullptr], 1 for a leaf) and every balance factor
    height(left) - height(right) is -1, 0 or 1.  As every prefix of a run is a
    run, this holds after each operation. *)
Theorem avl_balance_invariant (ops : list op) :
  exists t, run empty ops = Done t /\ balanced (root t).
Proof.
  assert (Hinit : balanced (root empty)) by exact I.
  revert Hinit. generalize empty.
  induction ops as [|o ops IH]; intros t Hb; simpl.
  - exists t. split; [reflexivity | exact Hb].
  - destruct (step_balanced t o Hb) as (t1 & Hs & Hb1).
    rewrite Hs. cbn [bind]. apply IH, Hb1.
Qed.

End AVLBalance2.

(** ** AVL: order and in-order sequence *)

Module AVLOrder.
Import AVLTree AVLSpec AVLInv AVLBalance AVLBalance2.

Lemma inorderHelper_app (t : AVLNode) (result : list Z) :
  inorderHelper t result = result ++ inorder t.
Proof.
  revert result. induction t as [|v l IHl r IHr h i]; intros result; simpl.
  - rewrite app_nil_r. reflexivity.
  - rewrite IHr, IHl, <- !app_assoc. reflexivity.
Qed.

Lemma inorderTraversal_inorder (t : AVLTree) : inorderTraversal t = inorder (root t).
Proof. unfold inorderTraversal. apply inorderHelper_app. Qed.

Lemma ordered_sorted (t : AVLNode) : ordered t <-> StronglySorted Z.lt (inorder t).
Proof.
  induction t as [|v l IHl r IHr h i]; simpl.
  - split; [constructor | auto].
  - rewrite StronglySorted_app, StronglySorted_cons, IHl, IHr, !Forall_forall.
    split.
    + intros (Hl & Hr & Hsl & Hsr). repeat split; auto.
      intros x1 x2 H1 H2. apply elem_of_cons in H2 as [->|H2]; [auto|].
      specialize (Hl x1 H1). specialize (Hr x2 H2). lia.
    + intros (Hlr & Hsl & Hr & Hsr). repeat split; auto.
      intros x Hx. apply Hlr; [exact Hx | left].
Qed.

Ltac step_done H :=
  cbn [updateHeight getBalance getHeight leftOf rightOf valueOf setLeft setRight
       rotateLeft rotateRight bind andThen] in H.

Ltac inv_done H :=
  step_done H;
  repeat (match type of H with
          | context [andThen ?c _] => destruct c
          | context [if ?c then _ else _] => destruct c
          end; step_done H);
  try discriminate H; injection H as <- <-.

Ltac list_eq := simpl; rewrite <- ?app_assoc; simpl; rewrite <- ?app_assoc; reflexivity.

(** Neither rebalancing step changes the in-order sequence. *)
Lemma insertRebalance_inorder (node : AVLNode) (v : Z) (a : refs) (t' : AVLNode)
    (a' : refs) :
  insertRebalance node v a = Done (t', a') -> inorder t' = inorder node.
Proof.
  unfold insertRebalance. intros H.
  destruct node as [|nv l r h i]; [cbn in H; injection H as <- <-; reflexivity|].
  destruct l as [|lv ll lr lh li], r as [|rv rl rr rh ri];
    try destruct lr as [|xv A B xh xi]; try destruct rl as [|yv C D yh yi];
    inv_done H; list_eq.
Qed.

Lemma deleteRebalance_inorder (node : AVLNode) (a : refs) (t' : AVLNode) (a' : refs) :
  deleteRebalance node a = Done (t', a') -> inorder t' = inorder node.
Proof.
  unfold deleteRebalance. intros H.
  destruct node as [|nv l r h i]; [cbn in H; injection H as <- <-; reflexivity|].
  destruct l as [|lv ll lr lh li], r as [|rv rl rr rh ri];
    try destruct lr as [|xv A B xh xi]; try destruct rl as [|yv C D yh yi];
    inv_done H; list_eq.
Qed.

(** [insertHelper] of an absent value into an ordered subtree puts the value
    at its place in the in-order sequence. *)
Lemma insertHelper_inorder (t : AVLNode) (v : Z) (a : refs) (n : Z)
    (t' : AVLNode) (a' : refs) (n' : Z) :
  insertHelper t v a n = Done (t', a', n') -> ordered t -> v ∉ inorder t ->
  exists l1 l2, inorder t = l1 ++ l2 /\ inorder t' = l1 ++ v :: l2 /\
                Forall (fun x => x < v) l1 /\ Forall (fun x => v < x) l2.
Proof.
  revert a n t' a' n'. induction t as [|nv l IHl r IHr h i];
    intros a n t' a' n' H Ho Hnin.
  - simpl in H. injection H as <- <- <-. exists [], []. simpl. auto.
  - simpl in Ho. destruct Ho as (Hfl & Hfr & Hol & Hor).
    simpl in Hnin. rewrite elem_of_app, elem_of_cons in Hnin.
    cbn [insertHelper] in H.
    destruct (Z.ltb_spec v nv) as [Hlt|Hge].
    + destruct (insertHelper l v (visit i a) n) as [[[l' a1] n1]| |] eqn:E;
        cbn [bind] in H; try discriminate.
      destruct (insertRebalance (Node nv l' r h i) v a1) as [[t1 a2]| |] eqn:E2;
        cbn [bind] in H; try discriminate.
      injection H as <- <- <-.
      destruct (IHl _ _ _ _ _ E Hol ltac:(tauto)) as (l1 & l2 & H1 & H2 & Hf1 & Hf2).
      exists l1, (l2 ++ nv :: inorder r).
      rewrite (insertRebalance_inorder _ _ _ _ _ E2). simpl. rewrite H1, H2.
      split; [list_eq|]. split; [list_eq|]. split; [exact Hf1|].
      apply Forall_app. split; [exact Hf2|]. constructor; [exact Hlt|].
      eapply Forall_impl; [exact Hfr|]. simpl. intros. lia.
    + destruct (Z.ltb_spec nv v) as [Hgt|Hle]; [|exfalso; apply Hnin; right; left; lia].
      replace (v >? nv) with true in H by lia.
      destruct (insertHelper r v (visit i a) n) as [[[r' a1] n1]| |] eqn:E;
        cbn [bind] in H; try discriminate.
      destruct (insertRebalance (Node nv l r' h i) v a1) as [[t1 a2]| |] eqn:E2;
        cbn [bind] in H; try discriminate.
      injection H as <- <- <-.
      destruct (IHr _ _ _ _ _ E Hor ltac:(tauto)) as (l1 & l2 & H1 & H2 & Hf1 & Hf2).
      exists (inorder l ++ nv :: l1), l2.
      rewrite (insertRebalance_inorder _ _ _ _ _ E2). simpl. rewrite H1, H2.
      split; [list_eq|]. split; [list_eq|]. split; [|exact Hf2].
      apply Forall_app. split.
      * eapply Forall_impl; [exact Hfl|]. simpl. intros. lia.
      * constructor; [exact Hgt | exact Hf1].
Qed.

Lemma filter_keep (v : Z) (l : list Z) :
  v ∉ l -> filter (fun x => x <> v) l = l.
Proof.
  induction l as [|x l IH]; [reflexivity|]. rewrite not_elem_of_cons. intros [Hx Hl].
  rewrite filter_cons_True by congruence. rewrite IH by exact Hl. reflexivity.
Qed.

Lemma findMin_head (t : AVLNode) (tv : Z) :
  valueOf (findMin t) = Done tv -> exists rest, inorder t = tv :: rest.
Proof.
  induction t as [|nv l IHl r _ h i]; [discriminate|]. simpl.
  destruct l as [|lv ll lr lh li].
  - simpl. intros [= ->]. eauto.
  - intros H. destruct (IHl H) as [rest Hr]. rewrite Hr. simpl. eauto.
Qed.

(** [deleteHelper] on an ordered subtree removes the value from the in-order
    sequence and nothing else. *)
Lemma deleteHelper_inorder (t : AVLNode) (v : Z) (a : refs) (t' : AVLNode) (a' : refs) :
  deleteHelper t v a = Done (t', a') -> ordered t ->
  inorder t' = filter (fun x => x <> v) (inorder t).
Proof.
  revert v a t' a'. induction t as [|nv l IHl r IHr h i]; intros v a t' a' H Ho.
  - simpl in H. injection H as <- <-. reflexivity.
  - pose proof Ho as Hs. apply ordered_sorted in Hs.
    simpl in Ho. destruct Ho as (Hfl & Hfr & Hol & Hor).
    rewrite Forall_forall in Hfl, Hfr.
    cbn [deleteHelper] in H. cbn [inorder].
    rewrite filter_app, filter_cons.
    destruct (Z.ltb_spec v nv) as [Hlt|Hge].
    + destruct (deleteHelper l v (visit i a)) as [[l' a1]| |] eqn:E;
        cbn [bind] in H; try discriminate.
      rewrite (deleteRebalance_inorder _ _ _ _ H). simpl.
      rewrite (IHl _ _ _ _ E Hol). rewrite decide_True by lia.
      rewrite (filter_keep v (inorder r)); [reflexivity|].
      intros Hin. specialize (Hfr v Hin). lia.
    + destruct (Z.ltb_spec nv v) as [Hgt|Hle].
      * replace (v >? nv) with true in H by lia.
        destruct (deleteHelper r v (visit i a)) as [[r' a1]| |] eqn:E;
          cbn [bind] in H; try discriminate.
        rewrite (deleteRebalance_inorder _ _ _ _ H). simpl.
        rewrite (IHr _ _ _ _ E Hor). rewrite decide_True by lia.
        rewrite (filter_keep v (inorder l)); [reflexivity|].
        intros Hin. specialize (Hfl v Hin). lia.
      * replace (v >? nv) with false in H by lia.
        assert (v = nv) as -> by lia.
        rewrite decide_False by (intros Hc; apply Hc; reflexivity).
        rewrite (filter_keep nv (inorder l))
          by (intros Hin; specialize (Hfl nv Hin); lia).
        rewrite (filter_keep nv (inorder r))
          by (intros Hin; specialize (Hfr nv Hin); lia).
        destruct l as [|lv ll lr lh li].
        { injection H as <- <-. reflexivity. }
        destruct r as [|rv rl rr rh ri].
        { injection H as <- <-. simpl. rewrite app_nil_r. reflexivity. }
        destruct (valueOf (findMin (Node rv rl rr rh ri))) as [tv| |] eqn:Etv;
          cbn [bind] in H; try discriminate.
        destruct (deleteHelper (Node rv rl rr rh ri) tv (found i (visit i a)))
          as [[r' a1]| |] eqn:E; cbn [bind] in H; try discriminate.
        rewrite (deleteRebalance_inorder _ _ _ _ H). cbn [inorder].
        rewrite (IHr _ _ _ _ E Hor).
        destruct (findMin_head _ _ Etv) as [rest Hrest].
        apply ordered_sorted in Hor. rewrite Hrest in Hor.
        cbn [inorder] in Hrest |- *. rewrite Hrest.
        rewrite filter_cons_False by (intros Hc; apply Hc; reflexivity).
        rewrite filter_keep; [reflexivity|].
        apply StronglySorted_cons in Hor as [Hall _].
        rewrite Forall_forall in Hall. intros Hin. specialize (Hall tv Hin). lia.
Qed.

End AVLOrder.

(** ** BST *)

Module BSTFacts.
Import BST BSTSpec.

Lemma bst_inorderHelper_app (t : Node) (result : list Z) :
  inorderHelper t result = result ++ inorder t.
Proof.
  revert result. induction t as [|v l IHl r IHr i]; intros result; simpl.
  - rewrite app_nil_r. reflexivity.
  - rewrite IHr, IHl, <- !app_assoc. reflexivity.
Qed.

Lemma bst_inorderTraversal_inorder (t : BST) : inorderTraversal t = inorder (root t).
Proof. unfold inorderTraversal. apply bst_inorderHelper_app. Qed.

(** Inserting a value that an ordered tree already holds: the tree and the
    counter are returned as they were, [success] is cleared, and the path
    ends at the node that holds the value. *)
Lemma bst_insertHelper_present (t : Node) (v : Z) (s : bool) (p : list ref) (n : Z) :
  ordered t -> v ∈ inorder t ->
  exists tr i, insertHelper t v s p n = (t, false, p ++ tr, n) /\
               last tr = Some i /\ holds t i v.
Proof.
  revert s p. induction t as [|nv l IHl r IHr i]; intros s p Ho Hin.
  - simpl in Hin. inversion Hin.
  - simpl in Ho. destruct Ho as (Hfl & Hfr & Hol & Hor).
    rewrite Forall_forall in Hfl, Hfr.
    simpl in Hin. rewrite elem_of_app, elem_of_cons in Hin. cbn [insertHelper holds].
    destruct (Z.ltb_spec v nv) as [Hlt|Hge].
    + assert (Hl : v ∈ inorder l).
      { destruct Hin as [?|[?|Hr]]; [assumption | lia | specialize (Hfr v Hr); lia]. }
      destruct (IHl s (p ++ [i]) Hol Hl) as (tr & j & Hrun & Hlast & Hh).
      rewrite Hrun. exists (i :: tr), j. rewrite <- app_assoc. simpl.
      split; [reflexivity|]. split; [|auto].
      destruct tr; [discriminate | exact Hlast].
    + destruct (Z.ltb_spec nv v) as [Hgt|Hle].
      * replace (v >? nv) with true by lia.
        assert (Hr : v ∈ inorder r).
        { destruct Hin as [Hl|[?|?]]; [specialize (Hfl v Hl); lia | lia | assumption]. }
        destruct (IHr s (p ++ [i]) Hor Hr) as (tr & j & Hrun & Hlast & Hh).
        rewrite Hrun. exists (i :: tr), j. rewrite <- app_assoc. simpl.
        split; [reflexivity|]. split; [|auto].
        destruct tr; [discriminate | exact Hlast].
      * replace (v >? nv) with false by lia.
        exists [i], i. split; [reflexivity|]. split; [reflexivity|].
        left. split; [reflexivity | lia].
Qed.


Lemma findMinWithPath_findMin (t : Node) (p : list ref) :
  (findMinWithPath t p).1 = findMin t.
Proof.
  revert p. induction t as [|nv l IHl r _ i]; intros p; [reflexivity|]. simpl.
  destruct l; [reflexivity | apply IHl].
Qed.

Lemma findMin_node (t : Node) :
  t <> Null -> exists sv sl sr si, findMin t = Mk sv sl sr si.
Proof.
  induction t as [|nv l IHl r _ i]; [congruence|]. intros _. simpl.
  destruct l; [eauto | apply IHl; discriminate].
Qed.

(** Deleting the value of a node with two children: [deletedNode] is that
    node, which stays in the tree and now holds the value of the leftmost
    node of its right subtree; [successor] is that leftmost node. *)
Lemma deleteHelper_two_children (t : Node) (v : Z) (a : delrefs)
    (l r : Node) (i : Z) (p0 p : list ref) :
  searchHelper t v p0 = (Mk v l r i, p) -> l <> Null -> r <> Null ->
  exists sv sl sr si,
    findMin r = Mk sv sl sr si /\
    deletedNode (deleteHelper t v a).2 = Some i /\
    successor (deleteHelper t v a).2 = Some si /\
    holds (deleteHelper t v a).1 i sv.
Proof.
  revert a p0. induction t as [|nv tl IHl tr IHr ti]; intros a p0 Hs Hl Hr.
  - discriminate.
  - cbn [searchHelper] in Hs. cbn [deleteHelper].
    destruct (v <? nv) eqn:E1.
    + destruct (IHl (mkDel (success a) (path a ++ [ti]) (deletedNode a) (successor a))
                  _ Hs Hl Hr) as (sv & sl & sr & si & Hm & Hd & Hsu & Hh).
      destruct (deleteHelper tl v _) as [l' a'].
      exists sv, sl, sr, si. simpl in *. tauto.
    + destruct (v >? nv) eqn:E2.
      * destruct (IHr (mkDel (success a) (path a ++ [ti]) (deletedNode a) (successor a))
                    _ Hs Hl Hr) as (sv & sl & sr & si & Hm & Hd & Hsu & Hh).
        destruct (deleteHelper tr v _) as [r' a'].
        exists sv, sl, sr, si. simpl in *. tauto.
      * injection Hs as -> -> -> -> _.
        destruct l as [|lv ll lr li]; [congruence|].
        destruct r as [|rv rl rr ri]; [congruence|].
        pose proof (findMinWithPath_findMin (Mk rv rl rr ri) []) as Hfm.
        destruct (findMinWithPath (Mk rv rl rr ri) []) as [succ sp]. cbn [fst] in Hfm.
        subst succ.
        destruct (findMin_node (Mk rv rl rr ri) ltac:(discriminate))
          as (sv & sl & sr & si & Hm).
        rewrite Hm.
        destruct (deleteHelper (Mk rv rl rr ri) sv (mkDel true [] None None)) as [r' a'].
        exists sv, sl, sr, si. simpl. tauto.
Qed.

End BSTFacts.

(** ** AVL: duplicates and the reported rotation *)

Module AVLReport.
Import AVLTree AVLSpec AVLInv AVLBalance AVLBalance2 AVLOrder.

(** Inserting a value that a balanced, ordered subtree already holds: the
    subtree and the counter come back as they were, no rotation is reported,
    [success] is cleared and the path ends at the node that holds the value. *)
Lemma insertHelper_present (t : AVLNode) (v : Z) (a : refs) (n : Z) :
  balanced t -> ordered t -> v ∈ inorder t ->
  exists tr i,
    insertHelper t v a n =
      Done (t, mkRefs false (path a ++ tr) (deletedNode a) (rotation a) (performed a), n) /\
    last tr = Some i /\ holds t i v.
Proof.
  revert a. induction t as [|nv l IHl r IHr h i]; intros a Hb Ho Hin.
  - simpl in Hin. inversion Hin.
  - simpl in Hb. destruct Hb as (Hh & Hd & Hbl & Hbr).
    simpl in Ho. destruct Ho as (Hfl & Hfr & Hol & Hor).
    rewrite Forall_forall in Hfl, Hfr.
    simpl in Hin. rewrite elem_of_app, elem_of_cons in Hin. cbn [insertHelper holds].
    assert (Hsame : forall a1, insertRebalance (Node nv l r h i) v a1 =
                               Done (Node nv l r h i, a1)).
    { intros a1. destruct (insertRebalance_spec nv l r h i v a1 Hbl Hbr)
        as (t' & a' & Hreb & _ & [(_ & -> & ->)|[_ ?]]); try lia.
      rewrite Hreb, Hh. reflexivity. }
    destruct (Z.ltb_spec v nv) as [Hlt|Hge].
    + assert (Hl : v ∈ inorder l).
      { destruct Hin as [?|[?|Hr]]; [assumption | lia | specialize (Hfr v Hr); lia]. }
      destruct (IHl (visit i a) Hbl Hol Hl) as (tr & j & Hrun & Hlast & Hho).
      rewrite Hrun. cbn [bind]. rewrite Hsame. cbn [bind].
      exists (i :: tr), j. simpl. rewrite <- app_assoc.
      split; [reflexivity|]. split; [|auto].
      destruct tr; [discriminate | exact Hlast].
    + destruct (Z.ltb_spec nv v) as [Hgt|Hle].
      * replace (v >? nv) with true by lia.
        assert (Hr : v ∈ inorder r).
        { destruct Hin as [Hl|[?|?]]; [specialize (Hfl v Hl); lia | lia | assumption]. }
        destruct (IHr (visit i a) Hbr Hor Hr) as (tr & j & Hrun & Hlast & Hho).
        rewrite Hrun. cbn [bind]. rewrite Hsame. cbn [bind].
        exists (i :: tr), j. simpl. rewrite <- app_assoc.
        split; [reflexivity|]. split; [|auto].
        destruct tr; [discriminate | exact Hlast].
      * replace (v >? nv) with false by lia.
        exists [i], i. split; [reflexivity|]. split; [reflexivity|].
        left. split; [reflexivity | lia].
Qed.




End AVLReport.

(** ** BST and AVL: the claims *)

Module TreeClaims.
Import AVLTree AVLSpec AVLInv AVLBalance AVLBalance2 AVLOrder AVLReport Examples.




(** C4 on the AVL tree.  In the tree 20 (10, 30), node 0 holds 20 and has two
    children.  [remove 20] overwrites node 0 with 30 and unlinks node 2, the
    successor; the [deletedNode] handed back is node 2, not node 0. *)
Theorem avl_remove_two_children_deletedNode :
  exists t ok t' a,
    run empty three = Done t /\
    root t = Node 20 (Node 10 Null Null 1 1) (Node 30 Null Null 1 2) 2 0 /\
    remove t 20 [] = Done (ok, t', a) /\
    root t' = Node 30 (Node 10 Null Null 1 1) Null 2 0 /\
    getAllNodes t' = [0; 1] /\
    deletedNode a = Some 2.
Proof. eexists _, _, _, _. vm_compute. repeat split. Qed.

(** C4 on the BST: there [deletedNode] is the overwritten node. *)
Lemma bst_remove_two_children_deletedNode (t : BST.BST) (v : Z) (p : list ref)
    (l r : BST.Node) (i : Z) (q : list ref) :
  BST.searchHelper (BST.root t) v [] = (BST.Mk v l r i, q) ->
  l <> BST.Null -> r <> BST.Null ->
  exists sv sl sr si,
    BST.findMin r = BST.Mk sv sl sr si /\
    BST.deletedNode (BST.remove t v p).2 = Some i /\
    BST.successor (BST.remove t v p).2 = Some si /\
    BSTSpec.holds (BST.root (BST.remove t v p).1.2) i sv.
Proof.
  intros Hs Hl Hr. unfold BST.remove.
  destruct (BSTFacts.deleteHelper_two_children (BST.root t) v
              (BST.mkDel true p None None) l r i [] q Hs Hl Hr)
    as (sv & sl & sr & si & Hm & Hd & Hsu & Hh).
  destruct (BST.deleteHelper (BST.root t) v _) as [r' a'].
  exists sv, sl, sr, si. simpl in *. auto.
Qed.

(** C5. Inserting a value that is already present returns [false] and
    leaves the tree as it was, with the identifier counter and, for the AVL
    tree, the cached heights; the trace ends at the node that holds the
    value, and the AVL tree reports no rotation. *)
Theorem duplicate_insert (tb : BST.BST) (ta : AVLTree) (v : Z) (p : list ref) :
  (BSTSpec.ordered (BST.root tb) -> v ∈ BST.inorderTraversal tb ->
   exists tr i,
     BST.insert tb v p = (false, tb, p ++ tr) /\
     last tr = Some i /\ BSTSpec.holds (BST.root tb) i v) /\
  (balanced (root ta) -> ordered (root ta) -> v ∈ inorderTraversal ta ->
   exists tr i a,
     insert ta v p = Done (false, ta, a) /\
     path a = p ++ tr /\ last tr = Some i /\ holds (root ta) i v /\
     rotation a = NONE /\ performed a = []).
Proof.
  split.
  - intros Ho Hin. rewrite BSTFacts.bst_inorderTraversal_inorder in Hin.
    unfold BST.insert.
    destruct (BSTFacts.bst_insertHelper_present (BST.root tb) v true p (BST.nextNodeId tb)
                Ho Hin) as (tr & i & Hrun & Hlast & Hh).
    rewrite Hrun. exists tr, i. destruct tb. auto.
  - intros Hb Ho Hin. rewrite inorderTraversal_inorder in Hin. unfold insert.
    destruct (insertHelper_present (root ta) v (mkRefs true p None NONE [])
                (nextNodeId ta) Hb Ho Hin) as (tr & i & Hrun & Hlast & Hh).
    rewrite Hrun. cbn [bind]. eexists tr, i, _. destruct ta.
    split; [reflexivity|]. simpl. auto.
Qed.

Lemma duplicate_insert_witness :
  (exists tr i,
     BST.insert bst_50_30 30 [] = (false, bst_50_30, [] ++ tr) /\
     last tr = Some i /\ BSTSpec.holds (BST.root bst_50_30) i 30) /\
  (exists tr i a,
     insert avl_50_30 30 [] = Done (false, avl_50_30, a) /\
     path a = [] ++ tr /\ last tr = Some i /\ holds (root avl_50_30) i 30 /\
     rotation a = NONE /\ performed a = []).
Proof.
  destruct (duplicate_insert bst_50_30 avl_50_30 30 []) as [Hb Ha].
  split.
  - apply Hb.
    + vm_compute. repeat constructor; lia.
    + vm_compute. left.
  - apply Ha.
    + vm_compute. repeat split; discriminate.
    + vm_compute. repeat constructor; lia.
    + vm_compute. left.
Defined.




(** Scenarios 1 and 2: inserting 30, 20, 10 rotates right; inserting
    30, 10, 20 rotates left-right; both give 20 (10, 30) with heights 2, 1, 1. *)
Example avl_scenarios :
  (exists ok t a,
     insert (treeOf (Insert <$> [30; 20])) 10 [] = Done (ok, t, a) /\
     rotation a = RIGHT /\ inorderTraversal t = [10; 20; 30] /\
     heights (root t) = [2; 1; 1] /\
     exists i j k, root t = Node 20 (Node 10 Null Null 1 i) (Node 30 Null Null 1 j) 2 k) /\
  (exists ok t a,
     insert (treeOf (Insert <$> [30; 10])) 20 [] = Done (ok, t, a) /\
     rotation a = LEFT_RIGHT /\
     exists i j k, root t = Node 20 (Node 10 Null Null 1 i) (Node 30 Null Null 1 j) 2 k).
Proof. split; eexists _, _, _; vm_compute; repeat split; eexists _, _, _; reflexivity. Qed.

(** Scenario 3: after inserting 50, 30, 70, 20, 40, 60, 80 into a BST,
    removing 30 overwrites it with 40; the trace is the nodes 50, 30 and then
    40, and [deletedNode] is the overwritten node. *)
Example bst_scenario :
  let build := fold_left (fun t v => (BST.insert t v []).1.2) [50; 30; 70; 20; 40; 60; 80]
                 BST.empty in
  let '(ok, t, a) := BST.remove build 30 [] in
  ok = true /\ BST.inorderTraversal t = [20; 40; 50; 60; 70; 80] /\
  BST.path a = [0; 1; 4] /\ BST.deletedNode a = Some 1 /\ BST.successor a = Some 4 /\
  BSTSpec.holds (BST.root t) 1 40.
Proof. vm_compute. repeat split. right. left. left. split; reflexivity. Qed.

End TreeClaims.

(** * Further properties *)

(** ** BST: search, insert, remove, identifiers *)

Module BSTMore.
Import BST BSTSpec BSTRun BSTFacts.

Lemma bst_ordered_sorted (t : Node) : ordered t <-> StronglySorted Z.lt (inorder t).
Proof.
  induction t as [|v l IHl r IHr i]; simpl.
  - split; [constructor | auto].
  - rewrite StronglySorted_app, StronglySorted_cons, IHl, IHr, !Forall_forall.
    split.
    + intros (Hl & Hr & Hsl & Hsr). repeat split; auto.
      intros x1 x2 H1 H2. apply elem_of_cons in H2 as [->|H2]; [auto|].
      specialize (Hl x1 H1). specialize (Hr x2 H2). lia.
    + intros (Hlr & Hsl & Hr & Hsr). repeat split; auto.
      intros x Hx. apply Hlr; [exact Hx | left].
Qed.

Lemma sorted_filter (P : Z -> Prop) `{!forall x, Decision (P x)} (l : list Z) :
  StronglySorted Z.lt l -> StronglySorted Z.lt (filter P l).
Proof.
  induction 1 as [|x l Hs IH Hall]; [constructor|].
  rewrite filter_cons. destruct (decide (P x)); [|exact IH].
  constructor; [exact IH|]. rewrite Forall_forall in *.
  intros y Hy. apply Hall. eapply elem_of_sublist; [exact Hy | apply sublist_filter].
Qed.

Lemma collectNodes_ids (t : Node) (acc : list ref) : collectNodes t acc = acc ++ ids t.
Proof.
  revert acc. induction t as [|v l IHl r IHr i]; intros acc; simpl.
  - rewrite app_nil_r. reflexivity.
  - rewrite IHr, IHl, <- !app_assoc. reflexivity.
Qed.

Lemma getAllNodes_ids (t : BST) : getAllNodes t = ids (root t).
Proof. unfold getAllNodes. apply collectNodes_ids. Qed.

(** The node [searchHelper] returns holds the value searched for, is in the
    tree, and ends the path. *)
Lemma searchHelper_found (t : Node) (v : Z) (p : list ref) (nv : Z) (l r : Node)
    (i : Z) (q : list ref) :
  searchHelper t v p = (Mk nv l r i, q) ->
  nv = v /\ holds t i v /\ exists tr, q = p ++ tr /\ last tr = Some i.
Proof.
  revert p. induction t as [|tv tl IHl tr IHr ti]; intros p H; [discriminate|].
  cbn [searchHelper holds] in *.
  destruct (Z.ltb_spec v tv) as [Hlt|Hge].
  - destruct (IHl _ H) as (-> & Hh & tr' & -> & Hlast).
    split; [reflexivity|]. split; [auto|].
    exists (ti :: tr'). rewrite <- app_assoc. split; [reflexivity|].
    destruct tr'; [discriminate | exact Hlast].
  - destruct (Z.ltb_spec tv v) as [Hgt|Hle].
    + replace (v >? tv) with true in H by lia.
      destruct (IHr _ H) as (-> & Hh & tr' & -> & Hlast).
      split; [reflexivity|]. split; [auto|].
      exists (ti :: tr'). rewrite <- app_assoc. split; [reflexivity|].
      destruct tr'; [discriminate | exact Hlast].
    + replace (v >? tv) with false in H by lia.
      injection H as <- <- <- <- <-.
      split; [lia|]. split; [left; split; [reflexivity | lia]|].
      exists [ti]. split; reflexivity.
Qed.

(** On an ordered tree the search fails exactly for the absent values. *)
Lemma searchHelper_Null_iff (t : Node) (v : Z) (p : list ref) :
  ordered t -> (searchHelper t v p).1 = Null <-> v ∉ inorder t.
Proof.
  revert p. induction t as [|tv tl IHl tr IHr ti]; intros p Ho.
  - simpl. split; [intros _ H; inversion H | reflexivity].
  - simpl in Ho. destruct Ho as (Hfl & Hfr & Hol & Hor).
    rewrite Forall_forall in Hfl, Hfr.
    cbn [searchHelper inorder]. rewrite elem_of_app, elem_of_cons.
    destruct (Z.ltb_spec v tv) as [Hlt|Hge].
    + rewrite (IHl _ Hol). split; [|tauto].
      intros Hn [?|[?|Hr]]; [tauto | lia | specialize (Hfr v Hr); lia].
    + destruct (Z.ltb_spec tv v) as [Hgt|Hle].
      * replace (v >? tv) with true by lia. rewrite (IHr _ Hor). split; [|tauto].
        intros Hn [Hl|[?|?]]; [specialize (Hfl v Hl); lia | lia | tauto].
      * replace (v >? tv) with false by lia. simpl.
        split; [discriminate|]. intros Hn. exfalso. apply Hn. right. left. lia.
Qed.

(** [insertHelper] against [searchHelper], on any tree: a value the search
    finds is refused and nothing changes; otherwise a leaf with the next
    identifier is added where the search ended. *)
Lemma insertHelper_search (t : Node) (v : Z) (s : bool) (p : list ref) (n : Z) :
  match searchHelper t v p with
  | (Null, sp) =>
      exists t', insertHelper t v s p n = (t', s, sp ++ [n], n + 1) /\
                 holds t' n v /\ ids t' ≡ₚ n :: ids t /\
                 exists l1 l2, inorder t = l1 ++ l2 /\ inorder t' = l1 ++ v :: l2
  | (Mk _ _ _ _, sp) => insertHelper t v s p n = (t, false, sp, n)
  end.
Proof.
  revert s p. induction t as [|tv tl IHl tr IHr ti]; intros s p.
  - simpl. eexists. split; [reflexivity|]. split; [left; auto|]. split; [reflexivity|].
    exists [], []. auto.
  - cbn [searchHelper insertHelper].
    destruct (v <? tv).
    + specialize (IHl s (p ++ [ti])).
      destruct (searchHelper tl v (p ++ [ti])) as [[|? ? ? ?] sp].
      * destruct IHl as (l' & -> & Hh & Hids & l1 & l2 & H1 & H2).
        eexists. split; [reflexivity|]. cbn [holds ids inorder].
        split; [auto|]. split.
        { rewrite Hids. apply perm_swap. }
        exists l1, (l2 ++ tv :: inorder tr). rewrite H1, H2, <- !app_assoc. auto.
      * rewrite IHl. reflexivity.
    + destruct (v >? tv).
      * specialize (IHr s (p ++ [ti])).
        destruct (searchHelper tr v (p ++ [ti])) as [[|? ? ? ?] sp].
        -- destruct IHr as (r' & -> & Hh & Hids & l1 & l2 & H1 & H2).
           eexists. split; [reflexivity|]. cbn [holds ids inorder].
           split; [auto|]. split.
           { rewrite Hids, <- Permutation_middle. apply perm_swap. }
           exists (inorder tl ++ tv :: l1), l2. rewrite H1, H2, <- !app_assoc. auto.
        -- rewrite IHr. reflexivity.
      * reflexivity.
Qed.

(** [deleteHelper] against [searchHelper], on any tree: [success] survives
    exactly when the search finds the value; when it does not, the tree is
    returned as it was and the path is the search path. *)
Lemma deleteHelper_search (t : Node) (v : Z) (a : delrefs) :
  match searchHelper t v (path a) with
  | (Null, sp) =>
      deleteHelper t v a = (t, mkDel false sp (deletedNode a) (successor a))
  | (Mk _ _ _ _, _) => success (deleteHelper t v a).2 = success a
  end.
Proof.
  revert a. induction t as [|tv tl IHl tr IHr ti]; intros a; [reflexivity|].
  cbn [searchHelper deleteHelper].
  destruct (v <? tv).
  - specialize (IHl (mkDel (success a) (path a ++ [ti]) (deletedNode a) (successor a))).
    cbn [path success deletedNode successor] in IHl.
    destruct (searchHelper tl v (path a ++ [ti])) as [[|? ? ? ?] sp].
    + rewrite IHl. reflexivity.
    + destruct (deleteHelper tl v _) as [l' a']. exact IHl.
  - destruct (v >? tv).
    + specialize (IHr (mkDel (success a) (path a ++ [ti]) (deletedNode a) (successor a))).
      cbn [path success deletedNode successor] in IHr.
      destruct (searchHelper tr v (path a ++ [ti])) as [[|? ? ? ?] sp].
      * rewrite IHr. reflexivity.
      * destruct (deleteHelper tr v _) as [r' a']. exact IHr.
    + destruct tl as [|lv ll lr li]; [reflexivity|].
      destruct tr as [|rv rl rr ri]; [reflexivity|].
      destruct (findMinWithPath (Mk rv rl rr ri) []) as [succ sp'].
      destruct (deleteHelper (Mk rv rl rr ri) _ _) as [r' a']. reflexivity.
Qed.

Lemma bst_findMin_head (t : Node) (sv : Z) (sl sr : Node) (si : Z) :
  findMin t = Mk sv sl sr si -> exists rest, inorder t = sv :: rest.
Proof.
  induction t as [|nv l IHl r _ i]; [discriminate|]. simpl.
  destruct l as [|lv ll lr li].
  - intros [= -> <- _ _]. simpl. eauto.
  - intros H. destruct (IHl H) as [rest Hr]. rewrite Hr. simpl. eauto.
Qed.

(** [deleteHelper] on an ordered tree removes the value from the in-order
    sequence and nothing else; the identifiers left are among those before,
    in the same order. *)
Lemma bst_deleteHelper_inorder (t : Node) (v : Z) (a : delrefs) :
  ordered t ->
  inorder (deleteHelper t v a).1 = filter (fun x => x <> v) (inorder t).
Proof.
  revert v a. induction t as [|nv l IHl r IHr i]; intros v a Ho; [reflexivity|].
  simpl in Ho. destruct Ho as (Hfl & Hfr & Hol & Hor).
  rewrite Forall_forall in Hfl, Hfr.
  cbn [deleteHelper inorder]. rewrite filter_app, filter_cons.
  destruct (Z.ltb_spec v nv) as [Hlt|Hge].
  - specialize (IHl v (mkDel (success a) (path a ++ [i]) (deletedNode a) (successor a)) Hol).
    destruct (deleteHelper l v _) as [l' a']. cbn [fst inorder] in *.
    rewrite IHl, decide_True by lia.
    rewrite (AVLOrder.filter_keep v (inorder r)); [reflexivity|].
    intros Hin. specialize (Hfr v Hin). lia.
  - destruct (Z.ltb_spec nv v) as [Hgt|Hle].
    + replace (v >? nv) with true by lia.
      specialize (IHr v (mkDel (success a) (path a ++ [i]) (deletedNode a) (successor a)) Hor).
      destruct (deleteHelper r v _) as [r' a']. cbn [fst inorder] in *.
      rewrite IHr, decide_True by lia.
      rewrite (AVLOrder.filter_keep v (inorder l)); [reflexivity|].
      intros Hin. specialize (Hfl v Hin). lia.
    + replace (v >? nv) with false by lia. assert (v = nv) as -> by lia.
      rewrite decide_False by (intros Hc; apply Hc; reflexivity).
      rewrite (AVLOrder.filter_keep nv (inorder l))
        by (intros Hin; specialize (Hfl nv Hin); lia).
      rewrite (AVLOrder.filter_keep nv (inorder r))
        by (intros Hin; specialize (Hfr nv Hin); lia).
      destruct l as [|lv ll lr li]; [reflexivity|].
      destruct r as [|rv rl rr ri]; [simpl; rewrite app_nil_r; reflexivity|].
      pose proof (findMinWithPath_findMin (Mk rv rl rr ri) []) as Hfm.
      destruct (findMinWithPath (Mk rv rl rr ri) []) as [succ sp]. cbn [fst] in Hfm.
      subst succ.
      destruct (findMin_node (Mk rv rl rr ri) ltac:(discriminate))
        as (sv & sl & sr & si & Hm).
      rewrite Hm.
      specialize (IHr sv (mkDel true [] None None) Hor).
      destruct (bst_findMin_head _ _ _ _ _ Hm) as [rest Hrest].
      apply bst_ordered_sorted in Hor.
      destruct (deleteHelper (Mk rv rl rr ri) sv _) as [r' a']. cbn [fst inorder] in *.
      rewrite IHr. rewrite Hrest in Hor |- *.
      rewrite filter_cons_False by (intros Hc; apply Hc; reflexivity).
      rewrite AVLOrder.filter_keep; [reflexivity|].
      apply StronglySorted_cons in Hor as [Hall _].
      rewrite Forall_forall in Hall. intros Hin. specialize (Hall sv Hin). lia.
Qed.

Lemma deleteHelper_ids (t : Node) (v : Z) (a : delrefs) :
  ids (deleteHelper t v a).1 `sublist_of` ids t.
Proof.
  revert v a. induction t as [|nv l IHl r IHr i]; intros v a; [reflexivity|].
  cbn [deleteHelper].
  destruct (v <? nv).
  - specialize (IHl v (mkDel (success a) (path a ++ [i]) (deletedNode a) (successor a))).
    destruct (deleteHelper l v _) as [l' a']. cbn [fst ids] in *.
    apply sublist_skip, sublist_app; [exact IHl | reflexivity].
  - destruct (v >? nv).
    + specialize (IHr v (mkDel (success a) (path a ++ [i]) (deletedNode a) (successor a))).
      destruct (deleteHelper r v _) as [r' a']. cbn [fst ids] in *.
      apply sublist_skip, sublist_app; [reflexivity | exact IHr].
    + destruct l as [|lv ll lr li].
      { cbn [fst ids]. apply sublist_cons. reflexivity. }
      destruct r as [|rv rl rr ri].
      { cbn [fst]. simpl ids at 2. rewrite app_nil_r. apply sublist_cons. reflexivity. }
      destruct (findMinWithPath (Mk rv rl rr ri) []) as [succ sp].
      match goal with |- context [deleteHelper (Mk rv rl rr ri) ?x ?y] =>
        specialize (IHr x y); destruct (deleteHelper (Mk rv rl rr ri) x y) as [r' a'] end.
      cbn [fst ids] in *. apply sublist_skip, sublist_app; [reflexivity | exact IHr].
Qed.

End BSTMore.

Module BSTExtras.
Import BST BSTSpec BSTRun BSTFacts BSTMore Examples.


Lemma insertHelper_absent_bounds (t : Node) (v : Z) (s : bool) (p : list ref) (n : Z) :
  ordered t -> v ∉ inorder t ->
  exists l1 l2,
    inorder t = l1 ++ l2 /\ inorder (insertHelper t v s p n).1.1.1 = l1 ++ v :: l2 /\
    Forall (fun x => x < v) l1 /\ Forall (fun x => v < x) l2.
Proof.
  revert s p. induction t as [|nv l IHl r IHr i]; intros s p Ho Hnin.
  - exists [], []. simpl. auto.
  - simpl in Ho. destruct Ho as (Hfl & Hfr & Hol & Hor).
    simpl in Hnin. rewrite elem_of_app, elem_of_cons in Hnin.
    cbn [insertHelper].
    destruct (Z.ltb_spec v nv) as [Hlt|Hge].
    + destruct (IHl s (p ++ [i]) Hol ltac:(tauto)) as (l1 & l2 & H1 & H2 & Hf1 & Hf2).
      destruct (insertHelper l v s (p ++ [i]) n) as [[[l' s'] p'] n'].
      cbn [fst inorder] in *. exists l1, (l2 ++ nv :: inorder r).
      rewrite H1, H2, <- !app_assoc. split; [reflexivity|]. split; [reflexivity|].
      split; [exact Hf1|]. apply Forall_app. split; [exact Hf2|].
      constructor; [exact Hlt|]. eapply Forall_impl; [exact Hfr|]. simpl. intros. lia.
    + destruct (Z.ltb_spec nv v) as [Hgt|Hle]; [|exfalso; apply Hnin; right; left; lia].
      replace (v >? nv) with true by lia.
      destruct (IHr s (p ++ [i]) Hor ltac:(tauto)) as (l1 & l2 & H1 & H2 & Hf1 & Hf2).
      destruct (insertHelper r v s (p ++ [i]) n) as [[[r' s'] p'] n'].
      cbn [fst inorder] in *. exists (inorder l ++ nv :: l1), l2.
      rewrite H1, H2, <- !app_assoc. split; [reflexivity|]. split; [reflexivity|].
      split; [|exact Hf2]. apply Forall_app. split.
      * eapply Forall_impl; [exact Hfl|]. simpl. intros. lia.
      * constructor; [exact Hgt | exact Hf1].
Qed.

Lemma sorted_insert (l1 l2 : list Z) (v : Z) :
  StronglySorted Z.lt (l1 ++ l2) ->
  Forall (fun x => x < v) l1 -> Forall (fun x => v < x) l2 ->
  StronglySorted Z.lt (l1 ++ v :: l2).
Proof.
  intros Hs Hf1 Hf2. apply StronglySorted_app in Hs as (Hlr & Hs1 & Hs2).
  rewrite Forall_forall in Hf1. apply StronglySorted_app.
  split; [|split; [exact Hs1 | constructor; assumption]].
  intros x1 x2 H1 H2. apply elem_of_cons in H2 as [->|H2]; auto.
Qed.

(** X2. Inserting an absent value into an ordered BST succeeds and puts the value
    at its sorted position: the in-order sequence gains the value between the
    smaller and the greater values, and the tree stays ordered. *)
Theorem bst_insert_absent (t : BST) (v : Z) (p : list ref)
    (Ho : ordered (root t)) (Hn : v ∉ inorderTraversal t) :
  exists t' tr l1 l2,
    insert t v p = (true, t', tr) /\
    inorderTraversal t = l1 ++ l2 /\ inorderTraversal t' = l1 ++ v :: l2 /\
    Forall (fun x => x < v) l1 /\ Forall (fun x => v < x) l2 /\
    ordered (root t').
Proof.
  rewrite bst_inorderTraversal_inorder in Hn.
  destruct (insertHelper_absent_bounds (root t) v true p (nextNodeId t) Ho Hn)
    as (l1 & l2 & H1 & H2 & Hf1 & Hf2).
  pose proof (insertHelper_search (root t) v true p (nextNodeId t)) as Hs.
  pose proof (searchHelper_Null_iff (root t) v p Ho) as Hnull.
  unfold insert.
  destruct (searchHelper (root t) v p) as [nd sp]. cbn [fst] in Hnull.
  rewrite (proj2 Hnull Hn) in Hs. destruct Hs as (t' & Hrun & _).
  rewrite Hrun in H2 |- *. cbn [fst] in H2.
  eexists _, _, l1, l2. split; [reflexivity|].
  rewrite !bst_inorderTraversal_inorder. cbn [root].
  repeat split; auto.
  apply bst_ordered_sorted. rewrite H2. apply sorted_insert; auto.
  rewrite <- H1. apply bst_ordered_sorted, Ho.
Qed.

Lemma bst_insert_absent_witness :
  exists t' tr l1 l2,
    insert bst_50_30 40 [] = (true, t', tr) /\
    inorderTraversal bst_50_30 = l1 ++ l2 /\ inorderTraversal t' = l1 ++ 40 :: l2 /\
    Forall (fun x => x < 40) l1 /\ Forall (fun x => 40 < x) l2 /\
    ordered (root t').
Proof.
  apply (bst_insert_absent bst_50_30 40 []).
  - vm_compute. repeat constructor; lia.
  - vm_compute. intros Hin.
    repeat (apply elem_of_cons in Hin as [Hin|Hin]; [discriminate|]). inversion Hin.
Defined.

(** X3. [remove] on an ordered BST succeeds exactly when the value is present;
    the in-order sequence loses that value and nothing else, the tree stays
    ordered, no node is created (the nodes left are among those before) and
    the counter is unchanged. *)
Theorem bst_remove_ordered (t : BST) (v : Z) (p : list ref) (Ho : ordered (root t)) :
  let r := remove t v p in
  r.1.1 = bool_decide (v ∈ inorderTraversal t) /\
  inorderTraversal r.1.2 = filter (fun x => x <> v) (inorderTraversal t) /\
  ordered (root r.1.2) /\
  getAllNodes r.1.2 `sublist_of` getAllNodes t /\
  nextNodeId r.1.2 = nextNodeId t.
Proof.
  unfold remove.
  pose proof (deleteHelper_search (root t) v (mkDel true p None None)) as Hs.
  pose proof (bst_deleteHelper_inorder (root t) v (mkDel true p None None) Ho) as Hin.
  pose proof (deleteHelper_ids (root t) v (mkDel true p None None)) as Hids.
  pose proof (searchHelper_Null_iff (root t) v p Ho) as Hnull.
  cbn [path] in Hs.
  destruct (deleteHelper (root t) v _) as [r' a']. cbn [fst snd root nextNodeId] in *.
  rewrite !bst_inorderTraversal_inorder, !getAllNodes_ids. cbn [root].
  split; [|split; [exact Hin | split; [|split; [exact Hids | reflexivity]]]].
  - destruct (searchHelper (root t) v p) as [[|? ? ? ?] sp]; cbn [fst] in *.
    + injection Hs as -> ->. cbn [success].
      rewrite bool_decide_eq_false_2; [reflexivity | apply Hnull; reflexivity].
    + rewrite Hs. cbn [success]. rewrite bool_decide_eq_true_2; [reflexivity|].
      destruct (decide (v ∈ inorder (root t))) as [|Hn]; [assumption|].
      apply Hnull in Hn. discriminate.
  - apply bst_ordered_sorted. rewrite Hin. apply sorted_filter.
    apply bst_ordered_sorted, Ho.
Qed.

Lemma bst_remove_ordered_witness :
  let r := remove bst_50_30 30 [] in
  r.1.1 = bool_decide (30 ∈ inorderTraversal bst_50_30) /\
  inorderTraversal r.1.2 = filter (fun x => x <> 30) (inorderTraversal bst_50_30) /\
  ordered (root r.1.2) /\
  getAllNodes r.1.2 `sublist_of` getAllNodes bst_50_30 /\
  nextNodeId r.1.2 = nextNodeId bst_50_30.
Proof.
  apply (bst_remove_ordered bst_50_30 30 []).
  vm_compute. repeat constructor; lia.
Defined.

(** X4. [remove] follows [search], on any tree: when the search does not find
    the value, [remove] returns [false], the tree is untouched, the trace is
    the search trace and no node is reported; when it does, [remove] returns
    [true]. *)
Theorem bst_remove_follows_search (t : BST) (v : Z) (p : list ref) :
  match (search t v p).1.2 with
  | Null => remove t v p = (false, t, mkDel false (search t v p).2 None None)
  | Mk _ _ _ _ => (remove t v p).1.1 = true
  end.
Proof.
  unfold search, remove.
  pose proof (deleteHelper_search (root t) v (mkDel true p None None)) as Hs.
  cbn [path] in Hs.
  destruct (searchHelper (root t) v p) as [[|? ? ? ?] sp]; cbn [fst snd] in *.
  - rewrite Hs. destruct t. reflexivity.
  - destruct (deleteHelper (root t) v _) as [r' a']. cbn [fst snd] in *. exact Hs.
Qed.

(** X5. On an ordered BST, [contains] answers membership in the in-order
    sequence, and [search] returns a node of the tree that holds the value,
    at which the trace ends, or [nullptr] when the value is absent. *)
Theorem bst_search_membership (t : BST) (v : Z) (p : list ref) (Ho : ordered (root t)) :
  (contains t v).2 = bool_decide (v ∈ inorderTraversal t) /\
  match (search t v p).1.2 with
  | Null => v ∉ inorderTraversal t
  | Mk nv _ _ i =>
      nv = v /\ v ∈ inorderTraversal t /\ holds (root t) i v /\
      exists tr, (search t v p).2 = p ++ tr /\ last tr = Some i
  end.
Proof.
  rewrite bst_inorderTraversal_inorder.
  assert (Hmem : forall q, match (searchHelper (root t) v q).1 with
                           | Null => v ∉ inorder (root t)
                           | Mk _ _ _ _ => v ∈ inorder (root t)
                           end).
  { intros q. pose proof (searchHelper_Null_iff (root t) v q Ho) as Hn.
    destruct (searchHelper (root t) v q) as [[|? ? ? ?] sp]; cbn [fst] in *.
    - apply Hn. reflexivity.
    - destruct (decide (v ∈ inorder (root t))) as [|Hc]; [assumption|].
      apply Hn in Hc. discriminate. }
  split.
  - unfold contains, search. specialize (Hmem []).
    destruct (searchHelper (root t) v []) as [[|? ? ? ?] sp]; cbn [fst snd] in *.
    + rewrite bool_decide_eq_false_2; auto.
    + rewrite bool_decide_eq_true_2; auto.
  - unfold search. specialize (Hmem p).
    pose proof (searchHelper_found (root t) v p) as Hf.
    destruct (searchHelper (root t) v p) as [[|nv l r i] sp]; cbn [fst snd] in *.
    + exact Hmem.
    + destruct (Hf nv l r i sp eq_refl) as (Hv & Hh & Htr). auto.
Qed.

Lemma bst_search_membership_witness :
  (contains bst_50_30 30).2 = bool_decide (30 ∈ inorderTraversal bst_50_30) /\
  match (search bst_50_30 30 []).1.2 with
  | Null => 30 ∉ inorderTraversal bst_50_30
  | Mk nv _ _ i =>
      nv = 30 /\ 30 ∈ inorderTraversal bst_50_30 /\ holds (root bst_50_30) i 30 /\
      exists tr, (search bst_50_30 30 []).2 = [] ++ tr /\ last tr = Some i
  end.
Proof.
  apply (bst_search_membership bst_50_30 30 []).
  vm_compute. repeat constructor; lia.
Defined.






End BSTExtras.

(** ** BST: height and the edge list of the visualizer *)

Module BSTShape.
Import BST BSTSpec BSTRun BSTFacts BSTMore.

Lemma nodes_length (t : Node) : nodes t = Z.of_nat (length (ids t)).
Proof.
  induction t as [|v l IHl r IHr i]; [reflexivity|].
  cbn [nodes ids length]. rewrite length_app, IHl, IHr. lia.
Qed.

Lemma getHeightHelper_nonneg (t : Node) : 0 <= getHeightHelper t.
Proof. induction t; cbn [getHeightHelper]; lia. Qed.

(** X7. The height [getHeight] computes is at most the number of nodes, and a
    tree of that height has fewer than 2^height nodes; the height is 0
    exactly when the tree is empty. *)
Theorem bst_height_bounds (t : BST) :
  let n := Z.of_nat (length (getAllNodes t)) in
  getHeight t <= n /\ n < 2 ^ getHeight t /\ isEmpty t = bool_decide (getHeight t = 0).
Proof.
  cbv zeta. rewrite getAllNodes_ids, <- nodes_length. unfold getHeight, isEmpty.
  split; [|split].
  - induction (root t) as [|v l IHl r IHr i]; cbn [getHeightHelper nodes]; [lia|].
    pose proof (getHeightHelper_nonneg l). pose proof (getHeightHelper_nonneg r). lia.
  - induction (root t) as [|v l IHl r IHr i]; cbn [getHeightHelper nodes]; [lia|].
    pose proof (getHeightHelper_nonneg l). pose proof (getHeightHelper_nonneg r).
    rewrite Z.pow_add_r by lia. change (2 ^ 1) with 2.
    assert (2 ^ getHeightHelper l <= 2 ^ Z.max (getHeightHelper l) (getHeightHelper r))
      by (apply Z.pow_le_mono_r; lia).
    assert (2 ^ getHeightHelper r <= 2 ^ Z.max (getHeightHelper l) (getHeightHelper r))
      by (apply Z.pow_le_mono_r; lia).
    lia.
  - destruct (root t) as [|v l r i]; cbn [getHeightHelper]; [reflexivity|].
    pose proof (getHeightHelper_nonneg l). pose proof (getHeightHelper_nonneg r).
    rewrite bool_decide_eq_false_2 by lia. reflexivity.
Qed.

Lemma buildEdgeListHelper_app (t : Node) (es : list Visualizer.EdgeVisual) :
  Visualizer.buildEdgeListHelper t es = es ++ Visualizer.buildEdgeListHelper t [].
Proof.
  revert es. induction t as [|v l IHl r IHr i]; intros es; cbn [Visualizer.buildEdgeListHelper].
  - rewrite app_nil_r. reflexivity.
  - destruct l as [|lv ll lr li], r as [|rv rl rr ri].
    + rewrite app_nil_r. reflexivity.
    + rewrite (IHr (es ++ _)), (IHr ([] ++ _)), <- !app_assoc. reflexivity.
    + rewrite (IHl (es ++ _)), (IHl ([] ++ _)), <- !app_assoc. reflexivity.
    + rewrite (IHr (Visualizer.buildEdgeListHelper _ (es ++ _) ++ _)).
      rewrite (IHr (Visualizer.buildEdgeListHelper _ ([] ++ _) ++ _)).
      rewrite (IHl (es ++ _)), (IHl ([] ++ _)), <- !app_assoc. reflexivity.
Qed.

Lemma buildEdgeListHelper_spec (t : Node) :
  Visualizer.toNodeId <$> Visualizer.buildEdgeListHelper t [] = tail (ids t) /\
  Forall (fun e => childOf t (Visualizer.fromNodeId e) (Visualizer.toNodeId e) /\
                   Visualizer.isHighlighted e = false)
         (Visualizer.buildEdgeListHelper t []).
Proof.
  induction t as [|v l IHl r IHr i]; [split; [reflexivity | constructor]|].
  destruct IHl as [IHl1 IHl2], IHr as [IHr1 IHr2].
  assert (Hl : forall e, childOf l (Visualizer.fromNodeId e) (Visualizer.toNodeId e) /\
                         Visualizer.isHighlighted e = false ->
                         childOf (Mk v l r i) (Visualizer.fromNodeId e) (Visualizer.toNodeId e) /\
                         Visualizer.isHighlighted e = false)
    by (cbn [childOf]; tauto).
  assert (Hr : forall e, childOf r (Visualizer.fromNodeId e) (Visualizer.toNodeId e) /\
                         Visualizer.isHighlighted e = false ->
                         childOf (Mk v l r i) (Visualizer.fromNodeId e) (Visualizer.toNodeId e) /\
                         Visualizer.isHighlighted e = false)
    by (cbn [childOf]; tauto).
  apply (Forall_impl _ _ _ IHl2) in Hl. apply (Forall_impl _ _ _ IHr2) in Hr.
  cbn [Visualizer.buildEdgeListHelper ids tail].
  destruct l as [|lv ll lr li], r as [|rv rl rr ri].
  - split; [reflexivity | constructor].
  - rewrite buildEdgeListHelper_app, fmap_app, IHr1. split; [reflexivity|].
    apply Forall_app. split; [|exact Hr].
    constructor; [|constructor]. split; [|reflexivity]. cbn. left. auto.
  - rewrite buildEdgeListHelper_app, fmap_app, IHl1.
    split; [cbn; rewrite app_nil_r; reflexivity|].
    apply Forall_app. split; [|exact Hl].
    constructor; [|constructor]. split; [|reflexivity]. cbn. left. auto.
  - rewrite (buildEdgeListHelper_app (Mk rv rl rr ri)).
    rewrite (buildEdgeListHelper_app (Mk lv ll lr li)).
    rewrite !fmap_app, IHl1, IHr1. split; [cbn; rewrite <- !app_assoc; reflexivity|].
    repeat (apply Forall_app; split); try assumption; try apply Forall_nil_2.
    all: constructor; [|constructor]; split; [|reflexivity]; cbn; left; auto.
Qed.

(** X8. The edge list the visualizer builds has one edge per node other than the
    root: the edge targets, in order, are the nodes after the root in the
    pre-order of [getAllNodes]; every edge goes from a node to one of its
    children and is not highlighted. *)
Theorem edge_list_covers_nodes (t : BST) :
  Visualizer.toNodeId <$> Visualizer.buildEdgeList t = tail (getAllNodes t) /\
  Forall (fun e => childOf (root t) (Visualizer.fromNodeId e) (Visualizer.toNodeId e) /\
                   Visualizer.isHighlighted e = false)
         (Visualizer.buildEdgeList t) /\
  length (Visualizer.buildEdgeList t) = pred (length (getAllNodes t)).
Proof.
  unfold Visualizer.buildEdgeList, getRoot. rewrite getAllNodes_ids.
  destruct (buildEdgeListHelper_spec (root t)) as [H1 H2].
  split; [exact H1|]. split; [exact H2|].
  rewrite <- (length_fmap Visualizer.toNodeId), H1. destruct (ids (root t)); reflexivity.
Qed.

End BSTShape.

(** ** AVL: search, reference parameters, identifiers *)

Module AVLMore.
Import AVLTree AVLSpec AVLInv AVLRun AVLBalance AVLBalance2 AVLOrder AVLReport.

Lemma avl_collectNodes_ids (t : AVLNode) (acc : list ref) :
  collectNodes t acc = acc ++ ids t.
Proof.
  revert acc. induction t as [|v l IHl r IHr h i]; intros acc; simpl.
  - rewrite app_nil_r. reflexivity.
  - rewrite IHr, IHl, <- !app_assoc. reflexivity.
Qed.

Lemma avl_getAllNodes_ids (t : AVLTree) : getAllNodes t = ids (root t).
Proof. unfold getAllNodes. apply avl_collectNodes_ids. Qed.

Lemma avl_nodes_length (t : AVLNode) : nodes t = Z.of_nat (length (ids t)).
Proof.
  induction t as [|v l IHl r IHr h i]; [reflexivity|].
  cbn [nodes ids length]. rewrite length_app, IHl, IHr. lia.
Qed.

Lemma avl_searchHelper_found (t : AVLNode) (v : Z) (p : list ref) (nv : Z)
    (l r : AVLNode) (h i : Z) (q : list ref) :
  searchHelper t v p = (Node nv l r h i, q) ->
  nv = v /\ holds t i v /\ exists tr, q = p ++ tr /\ last tr = Some i.
Proof.
  revert p. induction t as [|tv tl IHl tr IHr th ti]; intros p H; [discriminate|].
  cbn [searchHelper holds] in *.
  destruct (Z.ltb_spec v tv) as [Hlt|Hge].
  - destruct (IHl _ H) as (-> & Hh & tr' & -> & Hlast).
    split; [reflexivity|]. split; [auto|].
    exists (ti :: tr'). rewrite <- app_assoc. split; [reflexivity|].
    destruct tr'; [discriminate | exact Hlast].
  - destruct (Z.ltb_spec tv v) as [Hgt|Hle].
    + replace (v >? tv) with true in H by lia.
      destruct (IHr _ H) as (-> & Hh & tr' & -> & Hlast).
      split; [reflexivity|]. split; [auto|].
      exists (ti :: tr'). rewrite <- app_assoc. split; [reflexivity|].
      destruct tr'; [discriminate | exact Hlast].
    + replace (v >? tv) with false in H by lia.
      injection H as <- <- <- <- <- <-.
      split; [lia|]. split; [left; split; [reflexivity | lia]|].
      exists [ti]. split; reflexivity.
Qed.

Lemma avl_searchHelper_Null_iff (t : AVLNode) (v : Z) (p : list ref) :
  ordered t -> (searchHelper t v p).1 = Null <-> v ∉ inorder t.
Proof.
  revert p. induction t as [|tv tl IHl tr IHr th ti]; intros p Ho.
  - simpl. split; [intros _ H; inversion H | reflexivity].
  - simpl in Ho. destruct Ho as (Hfl & Hfr & Hol & Hor).
    rewrite Forall_forall in Hfl, Hfr.
    cbn [searchHelper inorder]. rewrite elem_of_app, elem_of_cons.
    destruct (Z.ltb_spec v tv) as [Hlt|Hge].
    + rewrite (IHl _ Hol). split; [|tauto].
      intros Hn [?|[?|Hr]]; [tauto | lia | specialize (Hfr v Hr); lia].
    + destruct (Z.ltb_spec tv v) as [Hgt|Hle].
      * replace (v >? tv) with true by lia. rewrite (IHr _ Hor). split; [|tauto].
        intros Hn [Hl|[?|?]]; [specialize (Hfl v Hl); lia | lia | tauto].
      * replace (v >? tv) with false by lia. simpl.
        split; [discriminate|]. intros Hn. exfalso. apply Hn. right. left. lia.
Qed.

(** What a rebalancing step does to the reference parameters and to the
    identifiers: it leaves the parameters alone or reports one rotation, and
    it keeps the nodes. *)
Lemma insertRebalance_refs (node : AVLNode) (v : Z) (a : refs) (t' : AVLNode) (a' : refs) :
  insertRebalance node v a = Done (t', a') ->
  (a' = a \/ exists x, x <> NONE /\ a' = report x a) /\ ids t' ≡ₚ ids node.
Proof.
  unfold insertRebalance. intros H.
  destruct node as [|nv l r h i]; [cbn in H; injection H as <- <-; auto|].
  destruct l as [|lv ll lr lh li], r as [|rv rl rr rh ri];
    try destruct lr as [|xv A B xh xi]; try destruct rl as [|yv C D yh yi];
    inv_done H; (split; [first [left; reflexivity | right; eexists; split;
                                  [|reflexivity]; discriminate]
                        | cbn [ids]; solve_Permutation]).
Qed.

Lemma deleteRebalance_refs (node : AVLNode) (a : refs) (t' : AVLNode) (a' : refs) :
  deleteRebalance node a = Done (t', a') ->
  (a' = a \/ exists x, x <> NONE /\ a' = report x a) /\ ids t' ≡ₚ ids node.
Proof.
  unfold deleteRebalance. intros H.
  destruct node as [|nv l r h i]; [cbn in H; injection H as <- <-; auto|].
  destruct l as [|lv ll lr lh li], r as [|rv rl rr rh ri];
    try destruct lr as [|xv A B xh xi]; try destruct rl as [|yv C D yh yi];
    inv_done H; (split; [first [left; reflexivity | right; eexists; split;
                                  [|reflexivity]; discriminate]
                        | cbn [ids]; solve_Permutation]).
Qed.

End AVLMore.

(** ** AVL: rotations per insert, contents of remove, size against height *)

Module AVLMore2.
Import AVLTree AVLSpec AVLInv AVLRun AVLBalance AVLBalance2 AVLOrder AVLReport AVLMore.

(** [insertHelper] on a balanced subtree rotates at most once, and a
    rotation brings the height back to what it was. *)
Lemma insertHelper_rotations (t : AVLNode) (v : Z) (a : refs) (n : Z) :
  balanced t ->
  exists t' a' n',
    insertHelper t v a n = Done (t', a', n') /\ balanced t' /\
    realHeight t <= realHeight t' <= realHeight t + 1 /\
    ((performed a' = performed a /\ rotation a' = rotation a) \/
     (exists x, x <> NONE /\ performed a' = performed a ++ [x] /\ rotation a' = x /\
                realHeight t' = realHeight t)).
Proof.
  revert a n. induction t as [|nv l IHl r IHr h i]; intros a n Hb.
  - simpl. eexists _, _, _. split; [reflexivity|]. simpl.
    split; [repeat split; lia|]. split; [lia | left; auto].
  - pose proof Hb as Hb0. simpl in Hb. destruct Hb as (Hh & Hd & Hbl & Hbr).
    cbn [insertHelper].
    assert (Hstep : forall l' r' a1,
      balanced l' -> balanced r' ->
      realHeight l <= realHeight l' <= realHeight l + 1 ->
      realHeight r <= realHeight r' <= realHeight r + 1 ->
      (realHeight l' = realHeight l \/ realHeight r' = realHeight r) ->
      (realHeight l' - realHeight r' = 2 -> grew l' v) ->
      (realHeight l' - realHeight r' = -2 -> grew r' v) ->
      ((performed a1 = performed a /\ rotation a1 = rotation a) \/
       (exists x, x <> NONE /\ performed a1 = performed a ++ [x] /\ rotation a1 = x /\
                  realHeight l' = realHeight l /\ realHeight r' = realHeight r)) ->
      exists t' a',
        insertRebalance (Node nv l' r' h i) v a1 = Done (t', a') /\ balanced t' /\
        realHeight (Node nv l r h i) <= realHeight t' <= realHeight (Node nv l r h i) + 1 /\
        ((performed a' = performed a /\ rotation a' = rotation a) \/
         (exists x, x <> NONE /\ performed a' = performed a ++ [x] /\ rotation a' = x /\
                    realHeight t' = realHeight (Node nv l r h i)))).
    { intros l' r' a1 Hbl' Hbr' Hhl Hhr Hone Hgl Hgr Hrot.
      destruct (insertRebalance_spec nv l' r' h i v a1 Hbl' Hbr' ltac:(lia) Hgl Hgr)
        as (t' & a' & Hreb & Hbt & Hcase).
      exists t', a'. split; [exact Hreb|]. split; [exact Hbt|].
      destruct (insertRebalance_refs _ _ _ _ _ Hreb) as [Hrefs _].
      cbn [realHeight].
      destruct Hcase as [(Hd' & -> & ->)|[Hrt Htwo]].
      - cbn [realHeight]. split; [lia|].
        destruct Hrot as [Hsame|(x & Hx & Hp & Hr & Hhl' & Hhr')]; [left; exact Hsame|].
        right. exists x. repeat split; auto. lia.
      - split; [lia|].
        destruct Hrot as [[Hp Hr]|(x & Hx & Hp & Hr & Hhl' & Hhr')]; [|lia].
        destruct Hrefs as [->|(x & Hx & ->)]; [left; auto|].
        right. exists x. cbn [report performed rotation]. rewrite Hp.
        repeat split; auto. lia. }
    destruct (Z.ltb_spec v nv) as [Hlt|Hge].
    + destruct (IHl (visit i a) n Hbl) as (l' & a1 & n1 & Hrun & Hbl' & Hhl & Hrot).
      destruct (insertHelper_spec l v (visit i a) n Hbl)
        as (l2 & a2 & n2 & Hrun2 & _ & Hgrow).
      rewrite Hrun in Hrun2. injection Hrun2 as <- <- <-.
      rewrite Hrun. cbn [bind].
      assert (Hgl : realHeight l' - realHeight r = 2 -> grew l' v).
      { intros E. destruct Hgrow as [?|[? [->|Hg]]]; [lia| |exact Hg].
        simpl in *. pose proof (realHeight_nonneg r). lia. }
      assert (Hgr : realHeight l' - realHeight r = -2 -> grew r v) by (intros E; lia).
      assert (Hrot' : (performed a1 = performed a /\ rotation a1 = rotation a) \/
                (exists x, x <> NONE /\ performed a1 = performed a ++ [x] /\
                   rotation a1 = x /\ realHeight l' = realHeight l /\
                   realHeight r = realHeight r)).
      { destruct Hrot as [?|(x & ? & ? & ? & ?)]; [left; assumption|].
        right. exists x. auto. }
      destruct (Hstep l' r a1 Hbl' Hbr ltac:(lia) ltac:(lia) ltac:(lia) Hgl Hgr Hrot')
        as (t' & a' & Hreb & Hrest).
      rewrite Hreb. cbn [bind]. eexists _, _, _. split; [reflexivity | exact Hrest].
    + destruct (Z.ltb_spec nv v) as [Hgt|Hle].
      * replace (v >? nv) with true by lia.
        destruct (IHr (visit i a) n Hbr) as (r' & a1 & n1 & Hrun & Hbr' & Hhr & Hrot).
        destruct (insertHelper_spec r v (visit i a) n Hbr)
          as (r2 & a2 & n2 & Hrun2 & _ & Hgrow).
        rewrite Hrun in Hrun2. injection Hrun2 as <- <- <-.
        rewrite Hrun. cbn [bind].
        assert (Hgl : realHeight l - realHeight r' = 2 -> grew l v) by (intros E; lia).
        assert (Hgr : realHeight l - realHeight r' = -2 -> grew r' v).
        { intros E. destruct Hgrow as [?|[? [->|Hg]]]; [lia| |exact Hg].
          simpl in *. pose proof (realHeight_nonneg l). lia. }
        assert (Hrot' : (performed a1 = performed a /\ rotation a1 = rotation a) \/
                  (exists x, x <> NONE /\ performed a1 = performed a ++ [x] /\
                     rotation a1 = x /\ realHeight l = realHeight l /\
                     realHeight r' = realHeight r)).
        { destruct Hrot as [?|(x & ? & ? & ? & ?)]; [left; assumption|].
          right. exists x. auto. }
        destruct (Hstep l r' a1 Hbl Hbr' ltac:(lia) ltac:(lia) ltac:(lia) Hgl Hgr Hrot')
          as (t' & a' & Hreb & Hrest).
        rewrite Hreb. cbn [bind]. eexists _, _, _. split; [reflexivity | exact Hrest].
      * replace (v >? nv) with false by lia.
        eexists _, _, _. split; [reflexivity|]. split; [exact Hb0|].
        split; [lia|]. left. auto.
Qed.

(** [insertHelper] against [searchHelper]: [success], the path, the counter
    and the nodes. *)
Lemma avl_insertHelper_search (t : AVLNode) (v : Z) (a : refs) (n : Z)
    (t' : AVLNode) (a' : refs) (n' : Z) :
  insertHelper t v a n = Done (t', a', n') ->
  deletedNode a' = deletedNode a /\
  match searchHelper t v (path a) with
  | (Null, sp) =>
      success a' = success a /\ path a' = sp ++ [n] /\ n' = n + 1 /\
      ids t' ≡ₚ n :: ids t
  | (Node _ _ _ _ _, sp) =>
      success a' = false /\ path a' = sp /\ n' = n /\ ids t' ≡ₚ ids t
  end.
Proof.
  revert a t' a' n'. induction t as [|nv l IHl r IHr h i]; intros a t' a' n' H.
  - simpl in H. injection H as <- <- <-. simpl. auto.
  - cbn [insertHelper searchHelper] in *.
    destruct (v <? nv).
    + destruct (insertHelper l v (visit i a) n) as [[[l' a1] n1]| |] eqn:E;
        cbn [bind] in H; try discriminate.
      destruct (insertRebalance (Node nv l' r h i) v a1) as [[t1 a2]| |] eqn:E2;
        cbn [bind] in H; try discriminate.
      injection H as <- <- <-.
      destruct (insertRebalance_refs _ _ _ _ _ E2) as [Hrefs Hids].
      destruct (IHl _ _ _ _ E) as [Hdel IH]. cbn [visit deletedNode success] in IH, Hdel.
      assert (Hsame : success a2 = success a1 /\ path a2 = path a1 /\
                      deletedNode a2 = deletedNode a1)
        by (destruct Hrefs as [->|(x & _ & ->)]; auto).
      destruct Hsame as (Hs & Hp & Hdn). rewrite Hdn.
      split; [exact Hdel|].
      match goal with |- context [searchHelper ?x ?y ?z] =>
        change (searchHelper x y z) with (searchHelper l v (path (visit i a))) end.
      revert IH.
      destruct (searchHelper l v (path (visit i a))) as [[|? ? ? ? ?] sp];
        cbv beta iota;
        intros (? & ? & ? & Hi); rewrite Hs, Hp, Hids; cbn [ids];
        (split; [assumption|split; [assumption|split; [assumption|]]]);
        rewrite Hi; [solve_Permutation | reflexivity].
    + destruct (v >? nv).
      * destruct (insertHelper r v (visit i a) n) as [[[r' a1] n1]| |] eqn:E;
          cbn [bind] in H; try discriminate.
        destruct (insertRebalance (Node nv l r' h i) v a1) as [[t1 a2]| |] eqn:E2;
          cbn [bind] in H; try discriminate.
        injection H as <- <- <-.
        destruct (insertRebalance_refs _ _ _ _ _ E2) as [Hrefs Hids].
        destruct (IHr _ _ _ _ E) as [Hdel IH]. cbn [visit deletedNode success] in IH, Hdel.
        assert (Hsame : success a2 = success a1 /\ path a2 = path a1 /\
                        deletedNode a2 = deletedNode a1)
          by (destruct Hrefs as [->|(x & _ & ->)]; auto).
        destruct Hsame as (Hs & Hp & Hdn). rewrite Hdn.
        split; [exact Hdel|].
        match goal with |- context [searchHelper ?x ?y ?z] =>
        change (searchHelper x y z) with (searchHelper r v (path (visit i a))) end.
      revert IH.
      destruct (searchHelper r v (path (visit i a))) as [[|? ? ? ? ?] sp];
          cbv beta iota;
          intros (? & ? & ? & Hi); rewrite Hs, Hp, Hids; cbn [ids];
          (split; [assumption|split; [assumption|split; [assumption|]]]);
          rewrite Hi; [solve_Permutation | reflexivity].
      * injection H as <- <- <-. cbn. auto.
Qed.

(** [deleteHelper] creates no node. *)
Lemma avl_deleteHelper_ids (t : AVLNode) (v : Z) (a : refs) (t' : AVLNode) (a' : refs) :
  deleteHelper t v a = Done (t', a') -> ids t' ⊆+ ids t.
Proof.
  revert v a t' a'. induction t as [|nv l IHl r IHr h i]; intros v a t' a' H.
  - simpl in H. injection H as <- <-. reflexivity.
  - cbn [deleteHelper] in H.
    destruct (v <? nv).
    + destruct (deleteHelper l v (visit i a)) as [[l' a1]| |] eqn:E;
        cbn [bind] in H; try discriminate.
      destruct (deleteRebalance_refs _ _ _ _ H) as [_ ->]. cbn [ids].
      apply submseteq_skip, submseteq_app; [eapply IHl; exact E | reflexivity].
    + destruct (v >? nv).
      * destruct (deleteHelper r v (visit i a)) as [[r' a1]| |] eqn:E;
          cbn [bind] in H; try discriminate.
        destruct (deleteRebalance_refs _ _ _ _ H) as [_ ->]. cbn [ids].
        apply submseteq_skip, submseteq_app; [reflexivity | eapply IHr; exact E].
      * destruct l as [|lv ll lr lh li].
        { injection H as <- <-. cbn [ids]. apply submseteq_cons. reflexivity. }
        destruct r as [|rv rl rr rh ri].
        { injection H as <- <-. simpl ids at 2. rewrite app_nil_r.
          apply submseteq_cons. reflexivity. }
        destruct (valueOf (findMin (Node rv rl rr rh ri))) as [tv| |];
          cbn [bind] in H; try discriminate.
        destruct (deleteHelper (Node rv rl rr rh ri) tv (found i (visit i a)))
          as [[r' a1]| |] eqn:E; cbn [bind] in H; try discriminate.
        destruct (deleteRebalance_refs _ _ _ _ H) as [_ ->].
        change (ids (Node tv (Node lv ll lr lh li) r' h i))
          with (i :: ids (Node lv ll lr lh li) ++ ids r').
        change (ids (Node nv (Node lv ll lr lh li) (Node rv rl rr rh ri) h i))
          with (i :: ids (Node lv ll lr lh li) ++ ids (Node rv rl rr rh ri)).
        apply submseteq_skip, submseteq_app; [reflexivity | eapply IHr; exact E].
Qed.

(** On an ordered subtree [deleteHelper] keeps [success] exactly when the
    value is present. *)
Lemma avl_deleteHelper_success (t : AVLNode) (v : Z) (a : refs) (t' : AVLNode)
    (a' : refs) :
  deleteHelper t v a = Done (t', a') -> ordered t ->
  success a' = if decide (v ∈ inorder t) then success a else false.
Proof.
  revert v a t' a'. induction t as [|nv l IHl r IHr h i]; intros v a t' a' H Ho.
  - simpl in H. injection H as <- <-. reflexivity.
  - pose proof Ho as Ho0. simpl in Ho. destruct Ho as (Hfl & Hfr & Hol & Hor).
    rewrite Forall_forall in Hfl, Hfr.
    assert (Hkeep : forall node a1 t1 a2,
              deleteRebalance node a1 = Done (t1, a2) -> success a2 = success a1).
    { intros node a1 t1 a2 Hr. destruct (deleteRebalance_refs _ _ _ _ Hr) as [[->|(x & _ & ->)] _];
        reflexivity. }
    cbn [deleteHelper] in H. cbn [inorder].
    destruct (Z.ltb_spec v nv) as [Hlt|Hge].
    + destruct (deleteHelper l v (visit i a)) as [[l' a1]| |] eqn:E;
        cbn [bind] in H; try discriminate.
      rewrite (Hkeep _ _ _ _ H), (IHl _ _ _ _ E Hol). cbn [visit success].
      destruct (decide (v ∈ inorder l)) as [Hin|Hn].
      * rewrite decide_True; [reflexivity|]. apply elem_of_app. auto.
      * rewrite decide_False; [reflexivity|].
        rewrite elem_of_app, elem_of_cons.
        intros [?|[?|Hr]]; [tauto | lia | specialize (Hfr v Hr); lia].
    + destruct (Z.ltb_spec nv v) as [Hgt|Hle].
      * replace (v >? nv) with true in H by lia.
        destruct (deleteHelper r v (visit i a)) as [[r' a1]| |] eqn:E;
          cbn [bind] in H; try discriminate.
        rewrite (Hkeep _ _ _ _ H), (IHr _ _ _ _ E Hor). cbn [visit success].
        destruct (decide (v ∈ inorder r)) as [Hin|Hn].
        -- rewrite decide_True; [reflexivity|].
           apply elem_of_app. right. right. exact Hin.
        -- rewrite decide_False; [reflexivity|].
           rewrite elem_of_app, elem_of_cons.
           intros [Hl|[?|?]]; [specialize (Hfl v Hl); lia | lia | tauto].
      * replace (v >? nv) with false in H by lia.
        rewrite decide_True by (rewrite elem_of_app, elem_of_cons; right; left; lia).
        destruct l as [|lv ll lr lh li]; [injection H as <- <-; reflexivity|].
        destruct r as [|rv rl rr rh ri]; [injection H as <- <-; reflexivity|].
        destruct (valueOf (findMin (Node rv rl rr rh ri))) as [tv| |] eqn:Etv;
          cbn [bind] in H; try discriminate.
        destruct (deleteHelper (Node rv rl rr rh ri) tv (found i (visit i a)))
          as [[r' a1]| |] eqn:E; cbn [bind] in H; try discriminate.
        rewrite (Hkeep _ _ _ _ H), (IHr _ _ _ _ E Hor). cbn [found visit success].
        destruct (AVLOrder.findMin_head _ _ Etv) as [rest Hrest].
        rewrite decide_True; [reflexivity|]. rewrite Hrest. apply elem_of_cons. left. reflexivity.
Qed.

(** On a balanced subtree, a value the search does not find leaves the
    subtree as it was; only [success] and the path change. *)
Lemma avl_deleteHelper_not_found (t : AVLNode) (v : Z) (a : refs) :
  balanced t ->
  match searchHelper t v (path a) with
  | (Null, sp) =>
      deleteHelper t v a =
        Done (t, mkRefs false sp (deletedNode a) (rotation a) (performed a))
  | (Node _ _ _ _ _, _) => True
  end.
Proof.
  revert a. induction t as [|nv l IHl r IHr h i]; intros a Hb; [reflexivity|].
  simpl in Hb. destruct Hb as (Hh & Hd & Hbl & Hbr).
  assert (Hsame : forall a1, deleteRebalance (Node nv l r h i) a1 =
                             Done (Node nv l r h i, a1)).
  { intros a1. destruct (deleteRebalance_spec nv l r h i a1 Hbl Hbr ltac:(lia))
      as (t' & a' & Hreb & _ & [(_ & -> & ->)|[_ ?]]); try lia.
    rewrite Hreb, Hh. reflexivity. }
  cbn [searchHelper deleteHelper].
  destruct (v <? nv).
  - specialize (IHl (visit i a) Hbl).
    match goal with |- context [searchHelper ?x ?y ?z] =>
      change (searchHelper x y z) with (searchHelper l v (path (visit i a))) end.
    revert IHl.
    destruct (searchHelper l v (path (visit i a))) as [[|? ? ? ? ?] sp];
      [|intros _; exact I].
    intros IHl. rewrite IHl. cbn [bind]. rewrite Hsame. reflexivity.
  - destruct (v >? nv).
    + specialize (IHr (visit i a) Hbr).
      match goal with |- context [searchHelper ?x ?y ?z] =>
        change (searchHelper x y z) with (searchHelper r v (path (visit i a))) end.
      revert IHr.
      destruct (searchHelper r v (path (visit i a))) as [[|? ? ? ? ?] sp];
        [|intros _; exact I].
      intros IHr. rewrite IHr. cbn [bind]. rewrite Hsame. reflexivity.
    + exact I.
Qed.

(** A balanced subtree of height [h] has at least [2^(h/2) - 1] nodes. *)
Lemma balanced_nodes (t : AVLNode) :
  balanced t -> 2 ^ (realHeight t / 2) <= nodes t + 1.
Proof.
  induction t as [|v l IHl r IHr h i]; intros Hb; [vm_compute; discriminate|].
  simpl in Hb. destruct Hb as (_ & Hd & Hbl & Hbr).
  specialize (IHl Hbl). specialize (IHr Hbr). cbn [realHeight nodes].
  pose proof (realHeight_nonneg l). pose proof (realHeight_nonneg r).
  set (m := Z.max (realHeight l) (realHeight r)) in *.
  assert (Hm : 0 <= m) by lia.
  assert (Hpl : 0 < 2 ^ (realHeight l / 2))
    by (apply Z.pow_pos_nonneg; [lia | apply Z.div_pos; lia]).
  assert (Hpr : 0 < 2 ^ (realHeight r / 2))
    by (apply Z.pow_pos_nonneg; [lia | apply Z.div_pos; lia]).
  destruct (decide (m = 0)) as [E|E].
  - rewrite E. change ((1 + 0) / 2) with 0. change (2 ^ 0) with 1. lia.
  - assert (Hk : (1 + m) / 2 = (m - 1) / 2 + 1)
      by (Z.div_mod_to_equations; lia).
    assert (0 <= (m - 1) / 2) by (apply Z.div_pos; lia).
    rewrite Hk, Z.pow_add_r by lia. change (2 ^ 1) with 2.
    assert (2 ^ ((m - 1) / 2) <= 2 ^ (realHeight l / 2))
      by (apply Z.pow_le_mono_r; [lia | apply Z.div_le_mono; lia]).
    assert (2 ^ ((m - 1) / 2) <= 2 ^ (realHeight r / 2))
      by (apply Z.pow_le_mono_r; [lia | apply Z.div_le_mono; lia]).
    lia.
Qed.


End AVLMore2.

Module AVLExtras.
Import AVLTree AVLSpec AVLInv AVLRun AVLBalance AVLBalance2 AVLOrder AVLReport.
Import AVLMore AVLMore2 Examples.

(** X9. [AVLTree::insert] on a balanced tree rotates at most once: either no
    rotation class is assigned and [rotation] stays [NONE], or exactly one
    is, [rotation] is that class and the tree is as high as before.  In both
    cases the result is balanced and the height grows by at most one. *)
Theorem avl_insert_rotates_once (t : AVLTree) (v : Z) (p : list ref)
    (Hb : balanced (root t)) :
  exists ok t' a,
    insert t v p = Done (ok, t', a) /\ balanced (root t') /\
    getTreeHeight t <= getTreeHeight t' <= getTreeHeight t + 1 /\
    ((performed a = [] /\ rotation a = NONE) \/
     (exists x, x <> NONE /\ performed a = [x] /\ rotation a = x /\
                getTreeHeight t' = getTreeHeight t)).
Proof.
  unfold insert, getTreeHeight.
  destruct (insertHelper_rotations (root t) v (mkRefs true p None NONE []) (nextNodeId t) Hb)
    as (t' & a' & n' & -> & Hb' & Hh & Hrot).
  cbn [bind]. eexists _, _, _. split; [reflexivity|]. cbn [root].
  rewrite (getHeight_real _ Hb), (getHeight_real _ Hb').
  split; [exact Hb'|]. split; [exact Hh|]. exact Hrot.
Qed.

Lemma avl_insert_rotates_once_witness :
  exists ok t' a,
    insert (treeOf five) 4 [] = Done (ok, t', a) /\ balanced (root t') /\
    getTreeHeight (treeOf five) <= getTreeHeight t' <= getTreeHeight (treeOf five) + 1 /\
    ((performed a = [] /\ rotation a = NONE) \/
     (exists x, x <> NONE /\ performed a = [x] /\ rotation a = x /\
                getTreeHeight t' = getTreeHeight (treeOf five))).
Proof.
  apply (avl_insert_rotates_once (treeOf five) 4 []).
  vm_compute. repeat split; discriminate.
Defined.



(** X11. Inserting an absent value into a balanced, ordered AVL tree succeeds and
    puts the value at its sorted position, whatever rotation follows: the
    in-order sequence gains the value between the smaller and the greater
    values, and the tree stays ordered. *)
Theorem avl_insert_absent (t : AVLTree) (v : Z) (p : list ref)
    (Hb : balanced (root t)) (Ho : ordered (root t)) (Hn : v ∉ inorderTraversal t) :
  exists t' a l1 l2,
    insert t v p = Done (true, t', a) /\
    inorderTraversal t = l1 ++ l2 /\ inorderTraversal t' = l1 ++ v :: l2 /\
    Forall (fun x => x < v) l1 /\ Forall (fun x => v < x) l2 /\
    ordered (root t').
Proof.
  rewrite inorderTraversal_inorder in Hn. unfold insert.
  destruct (insertHelper_spec (root t) v (mkRefs true p None NONE []) (nextNodeId t) Hb)
    as (t' & a' & n' & Hrun & _).
  rewrite Hrun. cbn [bind].
  destruct (insertHelper_inorder _ _ _ _ _ _ _ Hrun Ho Hn) as (l1 & l2 & H1 & H2 & Hf1 & Hf2).
  destruct (avl_insertHelper_search _ _ _ _ _ _ _ Hrun) as [_ Hs].
  cbn [path success] in Hs.
  pose proof (proj2 (avl_searchHelper_Null_iff (root t) v p Ho) Hn) as Hnull.
  destruct (searchHelper (root t) v p) as [[|? ? ? ? ?] sp]; [|discriminate].
  destruct Hs as (-> & _).
  exists (mkAVL t' n'), a', l1, l2. rewrite !inorderTraversal_inorder. cbn [root].
  split; [reflexivity|]. split; [exact H1|]. split; [exact H2|].
  split; [exact Hf1|]. split; [exact Hf2|].
  apply ordered_sorted. rewrite H2. apply BSTExtras.sorted_insert; auto.
  rewrite <- H1. apply ordered_sorted, Ho.
Qed.

Lemma avl_insert_absent_witness :
  exists t' a l1 l2,
    insert (treeOf five) 4 [] = Done (true, t', a) /\
    inorderTraversal (treeOf five) = l1 ++ l2 /\ inorderTraversal t' = l1 ++ 4 :: l2 /\
    Forall (fun x => x < 4) l1 /\ Forall (fun x => 4 < x) l2 /\
    ordered (root t').
Proof.
  apply (avl_insert_absent (treeOf five) 4 []).
  - vm_compute. repeat split; discriminate.
  - vm_compute. repeat (split; [repeat constructor|]). exact I.
  - vm_compute. intros H. repeat (apply elem_of_cons in H as [H|H]; [discriminate|]).
    inversion H.
Defined.

(** X12. [AVLTree::remove] on a balanced, ordered tree returns [true] exactly when
    the value is present; the in-order sequence loses that value and nothing
    else, the tree stays ordered and balanced, its height drops by at most
    one, no node is created and the counter is unchanged. *)
Theorem avl_remove_ordered (t : AVLTree) (v : Z) (p : list ref)
    (Hb : balanced (root t)) (Ho : ordered (root t)) :
  exists t' a,
    remove t v p = Done (bool_decide (v ∈ inorderTraversal t), t', a) /\
    inorderTraversal t' = filter (fun x => x <> v) (inorderTraversal t) /\
    ordered (root t') /\ balanced (root t') /\
    getTreeHeight t - 1 <= getTreeHeight t' <= getTreeHeight t /\
    getAllNodes t' ⊆+ getAllNodes t /\
    nextNodeId t' = nextNodeId t.
Proof.
  unfold remove, getTreeHeight.
  destruct (deleteHelper_spec (root t) v (mkRefs true p None NONE []) Hb)
    as (t' & a' & Hrun & Hb' & Hh).
  rewrite Hrun. cbn [bind]. exists (mkAVL t' (nextNodeId t)), a'.
  rewrite !inorderTraversal_inorder, !avl_getAllNodes_ids. cbn [root nextNodeId].
  rewrite (getHeight_real _ Hb), (getHeight_real _ Hb').
  pose proof (deleteHelper_inorder _ _ _ _ _ Hrun Ho) as Hin.
  split.
  - rewrite (avl_deleteHelper_success _ _ _ _ _ Hrun Ho). cbn [success].
    destruct (decide (v ∈ inorder (root t))) as [H|H].
    + rewrite bool_decide_eq_true_2 by exact H. reflexivity.
    + rewrite bool_decide_eq_false_2 by exact H. reflexivity.
  - split; [exact Hin|]. split.
    + apply ordered_sorted. rewrite Hin. apply BSTMore.sorted_filter.
      apply ordered_sorted, Ho.
    + split; [exact Hb'|]. split; [exact Hh|].
      split; [eapply avl_deleteHelper_ids; exact Hrun | reflexivity].
Qed.

Lemma avl_remove_ordered_witness :
  exists t' a,
    remove (treeOf cascade) 10 [] =
      Done (bool_decide (10 ∈ inorderTraversal (treeOf cascade)), t', a) /\
    inorderTraversal t' = filter (fun x => x <> 10) (inorderTraversal (treeOf cascade)) /\
    ordered (root t') /\ balanced (root t') /\
    getTreeHeight (treeOf cascade) - 1 <= getTreeHeight t' <= getTreeHeight (treeOf cascade) /\
    getAllNodes t' ⊆+ getAllNodes (treeOf cascade) /\
    nextNodeId t' = nextNodeId (treeOf cascade).
Proof.
  apply (avl_remove_ordered (treeOf cascade) 10 []).
  - vm_compute. repeat split; discriminate.
  - vm_compute. repeat (split; [repeat constructor|]). repeat split; repeat constructor.
Defined.

(** X13. [AVLTree::remove] of a value the search does not find, on a balanced
    tree: it returns [false], the tree is untouched, no rotation and no
    deleted node is reported, and the trace is the search trace. *)
Theorem avl_remove_not_found (t : AVLTree) (v : Z) (p : list ref)
    (Hb : balanced (root t)) (Hs : (search t v p).1.2 = Null) :
  remove t v p = Done (false, t, mkRefs false (search t v p).2 None NONE []).
Proof.
  unfold remove, search in *.
  pose proof (avl_deleteHelper_not_found (root t) v (mkRefs true p None NONE []) Hb) as H.
  cbn [path] in H.
  destruct (searchHelper (root t) v p) as [[|? ? ? ? ?] sp]; [|discriminate].
  rewrite H. cbn. destruct t. reflexivity.
Qed.

Lemma avl_remove_not_found_witness :
  remove avl_50_30 40 [] =
    Done (false, avl_50_30, mkRefs false (search avl_50_30 40 []).2 None NONE []).
Proof.
  apply (avl_remove_not_found avl_50_30 40 []).
  - vm_compute. repeat split; discriminate.
  - reflexivity.
Defined.

(** X14. On an ordered AVL tree, [contains] answers membership in the in-order
    sequence, and [search] returns a node of the tree that holds the value,
    at which the trace ends, or [nullptr] when the value is absent. *)
Theorem avl_search_membership (t : AVLTree) (v : Z) (p : list ref)
    (Ho : ordered (root t)) :
  (contains t v).2 = bool_decide (v ∈ inorderTraversal t) /\
  match (search t v p).1.2 with
  | Null => v ∉ inorderTraversal t
  | Node nv _ _ _ i =>
      nv = v /\ v ∈ inorderTraversal t /\ holds (root t) i v /\
      exists tr, (search t v p).2 = p ++ tr /\ last tr = Some i
  end.
Proof.
  rewrite inorderTraversal_inorder. unfold contains, search. split.
  - pose proof (avl_searchHelper_Null_iff (root t) v [] Ho) as H.
    destruct (searchHelper (root t) v []) as [[|? ? ? ? ?] sp]; cbn [fst snd] in *.
    + rewrite bool_decide_eq_false_2; [reflexivity | apply H; reflexivity].
    + rewrite bool_decide_eq_true_2; [reflexivity|].
      destruct (decide (v ∈ inorder (root t))) as [Hin|Hn]; [exact Hin|].
      apply H in Hn. discriminate.
  - pose proof (avl_searchHelper_Null_iff (root t) v p Ho) as H.
    destruct (searchHelper (root t) v p) as [[|nv l r h i] sp] eqn:E; cbn [fst snd] in *.
    + apply H. reflexivity.
    + destruct (avl_searchHelper_found _ _ _ _ _ _ _ _ _ E) as (-> & Hh & Htr).
      split; [reflexivity|]. split; [|split; [exact Hh | exact Htr]].
      destruct (decide (v ∈ inorder (root t))) as [Hin|Hn]; [exact Hin|].
      apply H in Hn. discriminate.
Qed.

Lemma avl_search_membership_witness :
  (contains avl_50_30 30).2 = bool_decide (30 ∈ inorderTraversal avl_50_30) /\
  match (search avl_50_30 30 []).1.2 with
  | Null => 30 ∉ inorderTraversal avl_50_30
  | Node nv _ _ _ i =>
      nv = 30 /\ 30 ∈ inorderTraversal avl_50_30 /\ holds (root avl_50_30) i 30 /\
      exists tr, (search avl_50_30 30 []).2 = [] ++ tr /\ last tr = Some i
  end.
Proof.
  apply (avl_search_membership avl_50_30 30 []).
  vm_compute. repeat (split; [repeat constructor|]). exact I.
Defined.

(** X15. A balanced AVL tree of height [h] has at least [2^(h/2) - 1] nodes, so
    [getTreeHeight] is at most twice the logarithm of the node count plus
    one; and the height is 0 exactly when the tree is empty. *)
Theorem avl_height_logarithmic (t : AVLTree) (Hb : balanced (root t)) :
  2 ^ (getTreeHeight t / 2) <= Z.of_nat (length (getAllNodes t)) + 1 /\
  isEmpty t = bool_decide (getTreeHeight t = 0).
Proof.
  unfold getTreeHeight, isEmpty.
  rewrite (getHeight_real _ Hb), avl_getAllNodes_ids, <- avl_nodes_length.
  split; [apply balanced_nodes, Hb|].
  destruct (root t) as [|v l r h i]; [reflexivity|].
  cbn [realHeight]. pose proof (realHeight_nonneg l). pose proof (realHeight_nonneg r).
  rewrite bool_decide_eq_false_2 by lia. reflexivity.
Qed.

Lemma avl_height_logarithmic_witness :
  2 ^ (getTreeHeight (treeOf cascade) / 2)
    <= Z.of_nat (length (getAllNodes (treeOf cascade))) + 1 /\
  isEmpty (treeOf cascade) = bool_decide (getTreeHeight (treeOf cascade) = 0).
Proof.
  apply (avl_height_logarithmic (treeOf cascade)).
  vm_compute. repeat split; discriminate.
Defined.



End AVLExtras.

(** ** MinHeap: minimum, removal by value, linear search, identifiers *)

Module MinHeapMore.
Import MinHeap HeapSpec HeapInv MinHeapFacts MinHeapSift MinHeapSiftDown MinHeapOps.
Import MinHeapRemove.

(** The scan of [remove] stops at the first cell that holds the value. *)
Lemma findFrom_first (h : list HeapNode) (i v : Z) :
  0 <= i ->
  (findFrom h i v = -1 /\ Forall (fun c => value c <> v) h) \/
  (exists k c, findFrom h i v = i + Z.of_nat k /\ h !! k = Some c /\ value c = v /\
               Forall (fun c => value c <> v) (take k h)).
Proof.
  revert i. induction h as [|c h IH]; intros i Hi; simpl; [left; auto|].
  destruct (Z.eqb_spec (value c) v) as [E|E].
  - right. exists 0%nat, c. simpl.
    split; [lia|]. split; [reflexivity|]. split; [exact E | constructor].
  - destruct (IH (i + 1) ltac:(lia)) as [[H1 H2]|(k & c' & H1 & H2 & H3 & H4)].
    + left. split; [exact H1|]. constructor; assumption.
    + right. exists (S k), c'. simpl.
      split; [lia|]. split; [exact H2|]. split; [exact H3|].
      constructor; assumption.
Qed.

(** [search] scans like [remove] does and records every index it reads. *)
Lemma searchFrom_findFrom (h : list HeapNode) (i v : Z) (p : list Z) :
  0 <= i ->
  searchFrom h i v p =
    (findFrom h i v,
     p ++ seqZ i (if decide (findFrom h i v = -1) then size h
                  else findFrom h i v - i + 1)).
Proof.
  revert i p. induction h as [|c h IH]; intros i p Hi; simpl.
  - rewrite app_nil_r. reflexivity.
  - destruct (value c =? v).
    + rewrite decide_False by lia. replace (i - i + 1) with 1 by lia. reflexivity.
    + rewrite IH by lia. f_equal. rewrite <- app_assoc. f_equal.
      destruct (findFrom_range h (i + 1) v ltac:(lia)) as [E|E].
      * rewrite E. rewrite !decide_True by reflexivity.
        unfold size. simpl length. rewrite (seqZ_cons i) by lia.
        simpl. do 2 f_equal; lia.
      * rewrite !decide_False by lia. rewrite (seqZ_cons i) by lia.
        simpl. do 2 f_equal; lia.
Qed.

(** [remove] on any vector, once the value is there: it ends, and takes out
    the cell at the index the scan found. *)
Lemma remove_found (t : MinHeap) (v : Z) (siftPath : list Z) (k : nat) (x : HeapNode) :
  findFrom (heap t) 0 v = Z.of_nat k -> heap t !! k = Some x ->
  exists h' path',
    remove t v siftPath = Done (true, mkHeap h' (nextNodeId t), path') /\
    x :: h' ≡ₚ heap t.
Proof.
  intros Hf Hx. rewrite remove_unfold by lia. cbv zeta. rewrite Hf.
  assert (Hidx : 0 <= Z.of_nat k < size (heap t)).
  { apply lookup_lt_Some in Hx. unfold size. lia. }
  assert (Hgx : get (heap t) (Z.of_nat k) = Done x).
  { apply get_Done. split; [exact Hidx|]. rewrite Nat2Z.id. exact Hx. }
  destruct (proj2 (last_is_Some (heap t))) as [b Hb].
  { intros E. rewrite E in Hx. discriminate. }
  apply last_Some in Hb as [h0 Hh0]. rewrite Hh0 in *.
  destruct (replace_with_last h0 b x (Z.of_nat k) Hgx) as (Hback & Hset & Hperm & Hsz).
  rewrite Hgx, Hback. cbn [bind]. rewrite Hset. cbn [bind].
  rewrite size_app in Hidx. unfold size in Hidx at 2. simpl in Hidx.
  rewrite Hsz.
  destruct (Z.of_nat k <? size h0) eqn:E; cbv zeta in *.
  2:{ eexists _, _. split; [reflexivity | exact Hperm]. }
  set (h2 := <[Z.to_nat (Z.of_nat k):=b]> h0) in *.
  destruct (siftDown_spec (length h2) h2 (Z.of_nat k) (siftPath ++ [Z.of_nat k]))
    as (h3 & k3 & p3 & Hrun & Hsz3 & Hp3 & Hk & _).
  { lia. } { unfold size. lia. }
  rewrite Hrun. cbn [bind].
  destruct (get_in_range h3 k3 ltac:(lia)) as [y [Hgy _]].
  destruct (siftUp_spec (length h3) h3 k3 p3 y)
    as (h4 & k4 & tr & Hrun4 & _ & Hp4 & _).
  { lia. } { unfold size in *. lia. } { exact Hgy. }
  rewrite Hrun4. cbn [bind].
  eexists _, _. split; [reflexivity|]. rewrite Hp4, Hp3. exact Hperm.
Qed.

(** In an ordered heap no cell is below the root. *)
Lemma root_least (h : list HeapNode) (m : HeapNode) (rest : list HeapNode) :
  h = m :: rest -> heapOrdered h -> Forall (fun c => value m <= value c) h.
Proof.
  intros -> Ho. apply Forall_forall. intros c Hc.
  apply list_elem_of_lookup in Hc as [i Hi].
  assert (Hr : 0 <= Z.of_nat i < size (m :: rest)).
  { apply lookup_lt_Some in Hi. unfold size. lia. }
  pose proof (root_minimal (m :: rest) (Z.of_nat i) Ho Hr) as Hmin.
  unfold key in Hmin at 1. change (get (m :: rest) 0) with (Done m) in Hmin.
  rewrite (key_get _ _ c) in Hmin; [exact Hmin|].
  apply get_Done. split; [exact Hr|]. rewrite Nat2Z.id. exact Hi.
Qed.


End MinHeapMore.

Module MinHeapExtras.
Import MinHeap HeapSpec HeapInv MinHeapFacts MinHeapSift MinHeapSiftDown MinHeapOps.
Import MinHeapRemove MinHeapMore.

(** X17. [peekMin] and [extractMin] on an ordered heap: on the empty heap both
    give [nullptr] and nothing changes; otherwise [extractMin] detaches the
    cell [peekMin] shows, no cell of the heap has a smaller value, the other
    cells all stay, the heap stays ordered and the counter is unchanged. *)
Theorem heap_extractMin_minimum (t : MinHeap) (p : list Z)
    (Ho : heapOrdered (heap t)) :
  match peekMin t with
  | None => extractMin t p = Done (t, None, p) /\ isEmpty t = true
  | Some m =>
      exists t' path',
        extractMin t p = Done (t', Some m, path') /\
        Forall (fun c => value m <= value c) (heap t) /\
        m :: heap t' ≡ₚ heap t /\
        heapOrdered (heap t') /\
        getSize t' = getSize t - 1 /\
        nextNodeId t' = nextNodeId t
  end.
Proof.
  unfold peekMin, isEmpty. destruct (heap t) as [|m rest] eqn:E; cbn [head].
  - split; [apply extractMin_empty, E | reflexivity].
  - destruct (extractMin_spec t p m rest E) as (h' & path' & Hrun & Hperm & Hord).
    exists (mkHeap h' (nextNodeId t)), path'. cbn [heap nextNodeId].
    split; [exact Hrun|]. rewrite E in *.
    split; [eapply root_least; [reflexivity | exact Ho]|].
    split; [exact Hperm|]. split; [apply Hord, Ho|].
    split; [|reflexivity]. unfold getSize, size. cbn [heap]. rewrite E.
    apply Permutation_length in Hperm. simpl in *. lia.
Qed.

Lemma heap_extractMin_minimum_witness :
  let t := mkHeap [mkHeapNode 1 0; mkHeapNode 5 1; mkHeapNode 3 2] 3 in
  match peekMin t with
  | None => extractMin t [] = Done (t, None, []) /\ isEmpty t = true
  | Some m =>
      exists t' path',
        extractMin t [] = Done (t', Some m, path') /\
        Forall (fun c => value m <= value c) (heap t) /\
        m :: heap t' ≡ₚ heap t /\
        heapOrdered (heap t') /\
        getSize t' = getSize t - 1 /\
        nextNodeId t' = nextNodeId t
  end.
Proof.
  apply (heap_extractMin_minimum
           (mkHeap [mkHeapNode 1 0; mkHeapNode 5 1; mkHeapNode 3 2] 3) []).
  intros i Hi. unfold size in Hi. simpl in Hi.
  assert (Hc : i = 1 \/ i = 2) by lia.
  destruct Hc as [-> | ->]; vm_compute; discriminate.
Defined.

(** X18. [MinHeap::remove] on any vector, ordered or not: it never faults; when
    no cell holds the value it returns [false] and changes nothing;
    otherwise it returns [true] and takes out exactly one cell, the first one
    in index order that holds the value (the one [search] reports), all
    other cells stay and the counter is unchanged. *)
Theorem heap_remove_contents (t : MinHeap) (v : Z) (p q : list Z) :
  if bool_decide (v ∈ value <$> heap t) then
    exists x t' path',
      remove t v p = Done (true, t', path') /\
      heap t !! Z.to_nat (search t v q).1.2 = Some x /\ value x = v /\
      x :: heap t' ≡ₚ heap t /\
      getSize t' = getSize t - 1 /\
      nextNodeId t' = nextNodeId t
  else remove t v p = Done (false, t, p).
Proof.
  unfold search. rewrite searchFrom_findFrom by lia. cbn [fst snd].
  destruct (findFrom_first (heap t) 0 v ltac:(lia)) as [[Hf Hall]|(k & c & Hf & Hc & Hv & _)].
  - rewrite bool_decide_eq_false_2.
    + unfold remove. rewrite Hf. reflexivity.
    + intros Hin. apply list_elem_of_fmap in Hin as (c & -> & Hc).
      rewrite Forall_forall in Hall. apply (Hall c Hc). reflexivity.
  - rewrite bool_decide_eq_true_2.
    2:{ apply list_elem_of_fmap. exists c. split; [auto|].
        eapply list_elem_of_lookup_2, Hc. }
    destruct (remove_found t v p k c Hf Hc) as (h' & path' & Hrun & Hperm).
    exists c, (mkHeap h' (nextNodeId t)), path'. cbn [heap nextNodeId].
    rewrite Hf, Z.add_0_l, Nat2Z.id.
    split; [exact Hrun|]. split; [exact Hc|]. split; [exact Hv|].
    split; [exact Hperm|]. split; [|reflexivity].
    unfold getSize, size. cbn [heap]. apply Permutation_length in Hperm.
    simpl in Hperm. lia.
Qed.

(** X19. [MinHeap::search] is a linear scan: it returns the first index whose
    cell holds the value, or -1 when there is none; the trace is extended by
    the indices read, 0 up to the returned index, or all of them on failure;
    the heap is not changed. *)
Theorem heap_search_first (t : MinHeap) (v : Z) (p : list Z) :
  (search t v p).1.1 = t /\
  ((Forall (fun c => value c <> v) (heap t) /\
    search t v p = (t, -1, p ++ seqZ 0 (getSize t))) \/
   (exists k c,
      heap t !! k = Some c /\ value c = v /\
      Forall (fun c => value c <> v) (take k (heap t)) /\
      search t v p = (t, Z.of_nat k, p ++ seqZ 0 (Z.of_nat k + 1)))).
Proof.
  unfold search, getSize. rewrite searchFrom_findFrom by lia. split; [reflexivity|].
  destruct (findFrom_first (heap t) 0 v ltac:(lia)) as [[Hf Hall]|(k & c & Hf & Hc & Hv & Hall)].
  - left. split; [exact Hall|]. rewrite Hf. rewrite decide_True by reflexivity. reflexivity.
  - right. exists k, c. rewrite Hf. rewrite decide_False by lia.
    repeat split; auto. do 3 f_equal. lia.
Qed.


End MinHeapExtras.

(** ** LinkedList: well-formedness over runs, insertAtTail, search *)

Module LinkedListMore.
Import LinkedList LinkedListSpec LinkedListFacts ListRun.

(** A chain either holds no node with the value, or splits at the first one. *)
Lemma list_first_match_split (l : list ListNode) (v : Z) :
  Forall (fun m => value m <> v) l \/
  exists l1 n l2, l = l1 ++ n :: l2 /\ value n = v /\ Forall (fun m => value m <> v) l1.
Proof.
  induction l as [|c l IH]; [left; constructor|].
  destruct (decide (value c = v)) as [E|E].
  - right. exists [], c, l. repeat split; auto.
  - destruct IH as [H|(l1 & n & l2 & -> & Hn & Hl1)].
    + left. constructor; assumption.
    + right. exists (c :: l1), n, l2. repeat split; auto.
Qed.

(** [remove] at the first node that holds the value, on a well-formed list. *)
Lemma remove_at_first (t : LinkedList) (l1 l2 : list ListNode) (n : ListNode)
    (path : list ref) :
  wellFormed t -> chain t = l1 ++ n :: l2 ->
  Forall (fun m => value m <> value n) l1 ->
  remove t (value n) path =
    (true,
     mkList (l1 ++ l2) (id <$> last (l1 ++ l2)) (nextNodeId t) (size t - 1),
     path ++ (id <$> l1 ++ [n]),
     Some (id n)).
Proof.
  intros [Htail Hnd] Hchain Hl1. unfold remove. rewrite Hchain.
  destruct l1 as [|h l1]; simpl.
  - rewrite Z.eqb_refl. repeat f_equal.
    destruct l2; [reflexivity|]. rewrite Htail, Hchain. simpl.
    rewrite last_cons. reflexivity.
  - apply Forall_cons in Hl1 as [Hh Hl1].
    destruct (value h =? value n) eqn:E; [lia|].
    rewrite (removeLoop_first_match l1 l2 n h _ _ Hl1). simpl.
    rewrite <- app_assoc. simpl. repeat f_equal.
    rewrite Htail, Hchain. rewrite Hchain in Hnd.
    change (h :: l1 ++ n :: l2) with ((h :: l1) ++ n :: l2) in *.
    rewrite last_app. simpl (last (n :: l2)). rewrite last_cons.
    change (h :: l1 ++ l2) with ((h :: l1) ++ l2). rewrite last_app.
    destruct (last l2) as [z|] eqn:El2.
    + simpl. rewrite decide_False; [reflexivity|].
      intros [= Hz]. rewrite fmap_app, fmap_cons in Hnd.
      apply NoDup_app in Hnd as (_ & _ & Hnd). apply NoDup_cons in Hnd as [Hnd _].
      apply Hnd. rewrite <- Hz. apply list_elem_of_fmap_2.
      apply last_Some_elem_of. exact El2.
    + simpl. rewrite decide_True by reflexivity.
      rewrite last_cons. destruct (last l1); reflexivity.
Qed.




(** The loop of [search] stops at the first node that holds the value. *)
Lemma list_searchLoop_first (l1 l2 : list ListNode) (n : ListNode) (p : list ref) :
  Forall (fun m => value m <> value n) l1 ->
  searchLoop (l1 ++ n :: l2) (value n) p = (Some n, p ++ (id <$> l1 ++ [n])).
Proof.
  revert p. induction l1 as [|c l1 IH]; intros p Hl1; simpl.
  - rewrite Z.eqb_refl. reflexivity.
  - apply Forall_cons in Hl1 as [Hc Hl1].
    destruct (value c =? value n) eqn:E; [lia|].
    rewrite (IH _ Hl1), <- app_assoc. reflexivity.
Qed.

Lemma list_searchLoop_absent (l : list ListNode) (v : Z) (p : list ref) :
  Forall (fun m => value m <> v) l -> searchLoop l v p = (None, p ++ (id <$> l)).
Proof.
  revert p. induction l as [|c l IH]; intros p Hl; simpl.
  - rewrite app_nil_r. reflexivity.
  - apply Forall_cons in Hl as [Hc Hl].
    destruct (value c =? v) eqn:E; [lia|].
    rewrite (IH _ Hl), <- app_assoc. reflexivity.
Qed.

End LinkedListMore.

Module LinkedListExtras.
Import LinkedList LinkedListSpec LinkedListFacts ListRun LinkedListMore.




(** X23. [remove] on a well-formed list returns [true] exactly when some node
    holds the value.  Then one node is unlinked, it holds the value and is
    the one reported as [deletedNode], the size drops by one and the list
    stays well formed; otherwise the list is unchanged, the trace is extended
    by every node and [deletedNode] is [nullptr]. *)
Theorem list_remove_membership (t : LinkedList) (v : Z) (p : list ref)
    (Hwf : wellFormed t) :
  if bool_decide (v ∈ value <$> chain t) then
    exists t' tr n,
      remove t v p = (true, t', tr, Some (id n)) /\
      value n = v /\ chain t ≡ₚ n :: chain t' /\ chain t' `sublist_of` chain t /\
      getSize t' = getSize t - 1 /\ nextNodeId t' = nextNodeId t /\
      wellFormed t'
  else remove t v p = (false, t, p ++ getAllNodes t, None).
Proof.
  destruct (list_first_match_split (chain t) v) as [Habs|(l1 & n & l2 & Hch & Hn & Hl1)].
  - rewrite bool_decide_eq_false_2.
    + apply remove_absent, Habs.
    + intros Hin. apply list_elem_of_fmap in Hin as (c & -> & Hc).
      rewrite Forall_forall in Habs. apply (Habs c Hc). reflexivity.
  - rewrite bool_decide_eq_true_2.
    2:{ rewrite Hch, fmap_app, fmap_cons, Hn. apply elem_of_app. right.
        apply elem_of_cons. left. reflexivity. }
    subst v. rewrite (remove_at_first t l1 l2 n p Hwf Hch Hl1).
    eexists _, _, n. split; [reflexivity|]. cbn [chain size nextNodeId getSize].
    split; [reflexivity|]. rewrite Hch.
    split; [symmetry; apply Permutation_middle|].
    split; [apply sublist_app; [reflexivity | apply sublist_cons; reflexivity]|].
    split; [reflexivity|]. split; [reflexivity|].
    split; [reflexivity|]. cbn [chain].
    destruct Hwf as [_ Hnd]. rewrite Hch in Hnd.
    rewrite fmap_app in *. rewrite fmap_cons in Hnd.
    apply NoDup_app in Hnd as (H1 & H2 & H3). apply NoDup_cons in H3 as [_ H3].
    apply NoDup_app. split; [exact H1|]. split; [|exact H3].
    intros i Hi Hi2. apply (H2 i Hi). right. exact Hi2.
Qed.

Lemma list_remove_membership_witness :
  if bool_decide (20 ∈ value <$> chain list123) then
    exists t' tr n,
      remove list123 20 [] = (true, t', tr, Some (id n)) /\
      value n = 20 /\ chain list123 ≡ₚ n :: chain t' /\
      chain t' `sublist_of` chain list123 /\
      getSize t' = getSize list123 - 1 /\ nextNodeId t' = nextNodeId list123 /\
      wellFormed t'
  else remove list123 20 [] = (false, list123, [] ++ getAllNodes list123, None).
Proof.
  apply (list_remove_membership list123 20 []).
  split; [reflexivity|]. apply (bool_decide_unpack (NoDup [0; 1; 2])). vm_compute. exact I.
Defined.

(** X24. [LinkedList::search] follows the chain from the head and stops at the
    first node that holds the value: it returns that node and extends the
    trace by the nodes up to it, or returns [nullptr] after extending the
    trace by every node; [contains] answers accordingly and the list is not
    changed. *)
Theorem list_search_first (t : LinkedList) (v : Z) (p : list ref) :
  (Forall (fun m => value m <> v) (chain t) /\
   search t v p = (t, None, p ++ getAllNodes t) /\
   contains t v = (t, false)) \/
  (exists l1 n l2,
     chain t = l1 ++ n :: l2 /\ value n = v /\
     Forall (fun m => value m <> v) l1 /\
     search t v p = (t, Some n, p ++ (id <$> l1 ++ [n])) /\
     contains t v = (t, true)).
Proof.
  unfold contains, search, getAllNodes.
  destruct (list_first_match_split (chain t) v) as [Habs|(l1 & n & l2 & Hch & Hn & Hl1)].
  - left. rewrite !(list_searchLoop_absent _ _ _ Habs). auto.
  - right. exists l1, n, l2. subst v. rewrite Hch, !(list_searchLoop_first _ _ _ _ Hl1). auto.
Qed.



End LinkedListExtras.

(** ** Stack and Queue: order of service and search *)

Module StackMore.
Import Stack StackRun.

Lemma fmap_rev {A B : Type} (f : A -> B) (l : list A) : f <$> rev l = rev (f <$> l).
Proof.
  induction l as [|x l IH]; [reflexivity|]. simpl. rewrite fmap_app, IH. reflexivity.
Qed.



Lemma stack_searchLoop_first (l1 l2 : list StackNode) (n : StackNode) (p : list ref) :
  Forall (fun m => value m <> value n) l1 ->
  searchLoop (l1 ++ n :: l2) (value n) p = (Some n, p ++ (id <$> l1 ++ [n])).
Proof.
  revert p. induction l1 as [|c l1 IH]; intros p Hl1; simpl.
  - rewrite Z.eqb_refl. reflexivity.
  - apply Forall_cons in Hl1 as [Hc Hl1].
    destruct (value c =? value n) eqn:E; [lia|].
    rewrite (IH _ Hl1), <- app_assoc. reflexivity.
Qed.

Lemma stack_searchLoop_absent (l : list StackNode) (v : Z) (p : list ref) :
  Forall (fun m => value m <> v) l -> searchLoop l v p = (None, p ++ (id <$> l)).
Proof.
  revert p. induction l as [|c l IH]; intros p Hl; simpl.
  - rewrite app_nil_r. reflexivity.
  - apply Forall_cons in Hl as [Hc Hl].
    destruct (value c =? v) eqn:E; [lia|].
    rewrite (IH _ Hl), <- app_assoc. reflexivity.
Qed.

Lemma stack_first_match_split (l : list StackNode) (v : Z) :
  Forall (fun m => value m <> v) l \/
  exists l1 n l2, l = l1 ++ n :: l2 /\ value n = v /\ Forall (fun m => value m <> v) l1.
Proof.
  induction l as [|c l IH]; [left; constructor|].
  destruct (decide (value c = v)) as [E|E].
  - right. exists [], c, l. repeat split; auto.
  - destruct IH as [H|(l1 & n & l2 & -> & Hn & Hl1)].
    + left. constructor; assumption.
    + right. exists (c :: l1), n, l2. repeat split; auto.
Qed.

End StackMore.

Module StackExtras.
Import Stack StackRun StackMore.


(** X27. [Stack::search] scans from the top down and stops at the topmost cell
    that holds the value: it returns that cell and extends the trace by the
    cells from the top down to it, or returns [nullptr] after extending the
    trace by every cell, top first; [contains] answers accordingly and the
    stack is not changed. *)
Theorem stack_search_topmost (t : Stack) (v : Z) (p : list ref) :
  (Forall (fun m => value m <> v) (elements t) /\
   search t v p = (t, None, p ++ rev (id <$> elements t)) /\
   contains t v = (t, false)) \/
  (exists below n above,
     elements t = below ++ n :: above /\ value n = v /\
     Forall (fun m => value m <> v) above /\
     search t v p = (t, Some n, p ++ rev (id <$> n :: above)) /\
     contains t v = (t, true)).
Proof.
  unfold contains, search.
  destruct (stack_first_match_split (rev (elements t)) v) as [Habs|(l1 & n & l2 & Hch & Hn & Hl1)].
  - left. rewrite !(stack_searchLoop_absent _ _ _ Habs), fmap_rev.
    split; [|auto]. apply Forall_rev in Habs. rewrite rev_involutive in Habs. exact Habs.
  - right. exists (rev l2), n, (rev l1). subst v.
    rewrite Hch, !(stack_searchLoop_first _ _ _ _ Hl1).
    split.
    { rewrite <- (rev_involutive (elements t)), Hch, rev_app_distr. simpl.
      rewrite <- app_assoc. reflexivity. }
    split; [reflexivity|]. split; [apply Forall_rev, Hl1|].
    split; [|reflexivity]. rewrite fmap_cons. simpl rev.
    rewrite fmap_app, fmap_rev, rev_involutive. reflexivity.
Qed.

End StackExtras.

Module QueueMore.
Import Queue QueueRun.



Lemma queue_searchLoop_first (l1 l2 : list QueueNode) (n : QueueNode) (p : list ref) :
  Forall (fun m => value m <> value n) l1 ->
  searchLoop (l1 ++ n :: l2) (value n) p = (Some n, p ++ (id <$> l1 ++ [n])).
Proof.
  revert p. induction l1 as [|c l1 IH]; intros p Hl1; simpl.
  - rewrite Z.eqb_refl. reflexivity.
  - apply Forall_cons in Hl1 as [Hc Hl1].
    destruct (value c =? value n) eqn:E; [lia|].
    rewrite (IH _ Hl1), <- app_assoc. reflexivity.
Qed.

Lemma queue_searchLoop_absent (l : list QueueNode) (v : Z) (p : list ref) :
  Forall (fun m => value m <> v) l -> searchLoop l v p = (None, p ++ (id <$> l)).
Proof.
  revert p. induction l as [|c l IH]; intros p Hl; simpl.
  - rewrite app_nil_r. reflexivity.
  - apply Forall_cons in Hl as [Hc Hl].
    destruct (value c =? v) eqn:E; [lia|].
    rewrite (IH _ Hl), <- app_assoc. reflexivity.
Qed.

Lemma queue_first_match_split (l : list QueueNode) (v : Z) :
  Forall (fun m => value m <> v) l \/
  exists l1 n l2, l = l1 ++ n :: l2 /\ value n = v /\ Forall (fun m => value m <> v) l1.
Proof.
  induction l as [|c l IH]; [left; constructor|].
  destruct (decide (value c = v)) as [E|E].
  - right. exists [], c, l. repeat split; auto.
  - destruct IH as [H|(l1 & n & l2 & -> & Hn & Hl1)].
    + left. constructor; assumption.
    + right. exists (c :: l1), n, l2. repeat split; auto.
Qed.

End QueueMore.

Module QueueExtras.
Import Queue QueueRun QueueMore.


(** X29. [Queue::search] scans from the front and stops at the first cell that
    holds the value: it returns that cell and extends the trace by the cells
    up to it, or returns [nullptr] after extending the trace by every cell;
    [contains] answers accordingly and the queue is not changed. *)
Theorem queue_search_first (t : Queue) (v : Z) (p : list ref) :
  (Forall (fun m => value m <> v) (elements t) /\
   search t v p = (t, None, p ++ (id <$> elements t)) /\
   contains t v = (t, false)) \/
  (exists l1 n l2,
     elements t = l1 ++ n :: l2 /\ value n = v /\
     Forall (fun m => value m <> v) l1 /\
     search t v p = (t, Some n, p ++ (id <$> l1 ++ [n])) /\
     contains t v = (t, true)).
Proof.
  unfold contains, search.
  destruct (queue_first_match_split (elements t) v) as [Habs|(l1 & n & l2 & Hch & Hn & Hl1)].
  - left. rewrite !(queue_searchLoop_absent _ _ _ Habs). auto.
  - right. exists l1, n, l2. subst v. rewrite Hch, !(queue_searchLoop_first _ _ _ _ Hl1). auto.
Qed.

End QueueExtras.

(** ** TextInput: what the event handler lets into the text *)

Module TextInputFacts.
Import TextInput TextInputSpec.

Lemma Forall_removelast {A : Type} (P : A -> Prop) (l : list A) :
  Forall P l -> Forall P (removelast l).
Proof.
  induction 1 as [|x l Hx Hl IH]; [constructor|].
  destruct l as [|y l]; [constructor|].
  change (removelast (x :: y :: l)) with (x :: removelast (y :: l)).
  constructor; assumption.
Qed.

Lemma length_removelast_le {A : Type} (l : list A) :
  (length (removelast l) <= length l)%nat.
Proof.
  induction l as [|x l IH]; [reflexivity|].
  destruct l as [|y l]; [simpl; lia|].
  change (removelast (x :: y :: l)) with (x :: removelast (y :: l)).
  simpl in *. lia.
Qed.

Lemma numericText_removelast (s : list ascii) :
  numericText s -> numericText (removelast s).
Proof.
  destruct s as [|c rest]; [auto|]. intros [Hc Hrest].
  destruct rest as [|d rest]; [exact I|].
  change (removelast (c :: d :: rest)) with (c :: removelast (d :: rest)).
  split; [exact Hc | apply Forall_removelast, Hrest].
Qed.

Lemma handleEvent_kept (t : TextInput) (e : Event) :
  kept t -> kept (handleEvent t e) /\ numericOnly (handleEvent t e) = numericOnly t.
Proof.
  intros (Hlen & Hpr & Hnum). destruct t as [s f b]. cbn [inputString numericOnly] in *.
  assert (Hsame : forall f',
            kept (mkInput s f' b) /\ numericOnly (mkInput s f' b) = b).
  { intros f'. split; [|reflexivity]. split; [exact Hlen|]. split; [exact Hpr | exact Hnum]. }
  destruct e as [l inside|u|k|].
  - destruct l; apply Hsame.
  - unfold handleEvent. cbn [inputString isFocused numericOnly].
    destruct f; [|apply Hsame].
    destruct (u =? 8)%N.
    { destruct s as [|c rest]; [apply Hsame|].
      cbn [inputString isFocused numericOnly]. split; [|reflexivity]. split.
      - cbn [inputString]. pose proof (length_removelast_le (c :: rest)). lia.
      - cbn [inputString numericOnly]. split; [apply Forall_removelast, Hpr|].
        destruct b; [apply numericText_removelast, Hnum | exact I]. }
    destruct ((32 <=? u)%N && (u <? 128)%N) eqn:Eu; [|apply Hsame].
    apply andb_true_iff in Eu as [Hlo Hhi].
    apply N.leb_le in Hlo. apply N.ltb_lt in Hhi.
    match goal with |- context [if ?c then _ else _] => destruct c eqn:Eacc end;
      [|apply Hsame].
    apply andb_true_iff in Eacc as [Hacc Hlt]. apply Nat.ltb_lt in Hlt.
    split; [|reflexivity]. unfold kept. cbn [inputString numericOnly].
    split; [rewrite length_app; simpl; lia|]. split.
    + apply Forall_app. split; [exact Hpr|]. constructor; [|constructor].
      rewrite N_ascii_embedding by lia. lia.
    + destruct b; [|exact I].
      destruct s as [|c rest]; cbn [app numericText].
      * split; [|constructor]. apply orb_true_iff in Hacc as [H|H]; [left; exact H|].
        apply andb_true_iff in H as [H _]. right. exact H.
      * destruct Hnum as [Hc Hrest]. split; [exact Hc|].
        apply Forall_app. split; [exact Hrest|]. constructor; [|constructor].
        apply orb_true_iff in Hacc as [H|H]; [exact H|].
        apply andb_true_iff in H as [_ H]. discriminate.
  - destruct k, f; apply Hsame.
  - apply Hsame.
Qed.

(** X30. The text input, whatever the events: the text is never longer than ten
    characters and holds printable 7-bit characters only; a numeric input
    holds digits only, after an optional leading minus sign; the mode never
    changes.  Events that arrive while the input is not focused, other than
    a left mouse press, change nothing. *)
Theorem text_input_invariant (numOnly : bool) (events : list Event) (u : N) (k : bool) :
  let t := after (create numOnly) events in
  (length (getText t) <= 10)%nat /\
  printable (getText t) /\
  (if numOnly then numericText (getText t) else True) /\
  numericOnly t = numOnly /\
  (if isFocused t then True
   else handleEvent t (TextEntered u) = t /\ handleEvent t (KeyPressed k) = t /\
        handleEvent t OtherEvent = t).
Proof.
  cbv zeta. unfold getText.
  assert (H : forall t, kept t ->
            kept (after t events) /\ numericOnly (after t events) = numericOnly t).
  { induction events as [|e events IH]; intros t Hk; [split; [exact Hk | reflexivity]|].
    destruct (handleEvent_kept t e Hk) as [Hk1 Hn1].
    destruct (IH _ Hk1) as [Hk2 Hn2].
    change (after t (e :: events)) with (after (handleEvent t e) events).
    split; [exact Hk2 | congruence]. }
  destruct (H (create numOnly)) as [(Hlen & Hpr & Hnum) Hmode].
  { split; [simpl; lia|]. split; [constructor|]. cbn. destruct numOnly; exact I. }
  cbn [create numericOnly] in Hmode. rewrite Hmode in Hnum.
  split; [exact Hlen|]. split; [exact Hpr|]. split; [exact Hnum|]. split; [exact Hmode|].
  destruct (after (create numOnly) events) as [s f b]. cbn [isFocused].
  destruct f; [exact I|]. unfold handleEvent. cbn [isFocused].
  destruct k; auto.
Qed.

End TextInputFacts.
